(** * NSFWTagger Stash plugin: the batch orchestration engine

    A shallow embedding of the JavaScript sources of the plugin

    - [NSFWTaggerClient] (the container client, with [retryRequest]),
    - [ErrorHandler] (error classification, [retryOperation], [getRetryDelay]),
    - [StashClient] (the GraphQL client of the catalog),
    - [BatchProcessor] (the React component that drives a batch),

    followed by the properties of the engine that the specification states.

    Conventions of the embedding.

    - An [async] function is a state transformer over the world it acts on,
      returning how its promise settles ([Returned] or [Thrown]).
    - Everything outside the plugin is an oracle stored in the world: what the
      container answers to the n-th HTTP request, which GraphQL requests fail,
      what [Math.random] returns.  Theorems quantify over these oracles.
    - Observable steps (an operation being invoked, a sleep, an item being
      started) are appended to a trace, so that claims about "how often" and
      "in which order" are statements about that trace.
    - JS numbers are IEEE-754 doubles; see [JsNumber]. *)

From Stdlib Require Import ZArith NArith QArith Qround Qpower Qminmax Qabs.
From Stdlib Require Import Lia List String Ascii Bool Arith PeanoNat Permutation.
From Stdlib Require Import DecimalString SpecFloat.
Import ListNotations.

Set Implicit Arguments.
Close Scope Q_scope.

(* ===================================================================== *)
(** * JavaScript numbers *)
(* ===================================================================== *)

(** A finite double is modelled by the rational number it denotes.  Every
    arithmetic operation computes the exact rational result and rounds it to
    the nearest double, ties to even ([rnd]): 53 bits of precision, gradual
    underflow below 2^-1022.  Overflow to [Infinity] (results of magnitude
    2^1024 and more) is outside the model, as are [NaN] and the sign of zero:
    the operations below are those of JavaScript as long as their arguments
    are finite doubles and the exact result is below 2^1024 in absolute
    value.  The statements about delays state the range of attempts and base
    delays for which this is the case; the counts of the progress are array
    lengths, far below 2^53. *)
Module JsNumber.
Local Open Scope Q_scope.

(** [ilog2 q] is the integer [k] with [2^k <= q < 2^(k+1)], for [q > 0]. *)
Definition ilog2 (q : Q) : Z :=
  let k := (Z.log2 (Qnum q) - Z.log2 (Zpos (Qden q)))%Z in
  if Qle_bool (2 ^ k) q then k else (k - 1)%Z.

Definition roundTiesToEven (x : Q) : Z :=
  let f := Qfloor x in
  match Qcompare (x - inject_Z f) (1 # 2) with
  | Lt => f
  | Gt => (f + 1)%Z
  | Eq => if Z.even f then f else (f + 1)%Z
  end.

(** The exponent of the unit in the last place of [q]. *)
Definition exponent (q : Q) : Z := Z.max (ilog2 q - 52) (-1074).

Definition round_pos (q : Q) : Q :=
  inject_Z (roundTiesToEven (q / 2 ^ exponent q)) * 2 ^ exponent q.

Definition rnd (q : Q) : Q :=
  match Qnum q with
  | Z0 => 0
  | Zpos _ => round_pos q
  | Zneg _ => - round_pos (- q)
  end.

(** [x + y], [x * y], [x / y] on doubles. *)
Definition add (x y : Q) : Q := rnd (x + y).
Definition mul (x y : Q) : Q := rnd (x * y).
Definition div (x y : Q) : Q := rnd (x / y).

(** [Math.pow(2, n)] for an integer [n]: a power of two is a double for
    [n] from -1074 to 1023. *)
Definition pow2 (n : Z) : Q := 2 ^ n.

(** [Math.min], [Math.floor] and [Math.round] are exact; [Math.round] rounds
    to the nearest integer, ties towards +oo. *)
Definition MathMin (x y : Q) : Q := Qmin x y.
Definition MathFloor (x : Q) : Z := Qfloor x.
Definition MathRound (x : Q) : Z := Qfloor (x + (1 # 2)).

(** A count (an array length, a counter) as a number. *)
Definition ofNat (n : nat) : Q := inject_Z (Z.of_nat n).

(** The value of a finite binary64 datum of the standard library, used to
    compare [rnd] with the library's own [SFdiv] and [SFmul]. *)
Definition SF2Q (f : spec_float) : option Q :=
  match f with
  | S754_zero _ => Some 0
  | S754_finite s m e =>
      Some ((if s then - inject_Z (Zpos m) else inject_Z (Zpos m)) * 2 ^ e)
  | _ => None
  end.

End JsNumber.

(* ===================================================================== *)
(** * JavaScript strings, errors and promises *)
(* ===================================================================== *)

Module Js.
Local Open Scope string_scope.

(** [s.includes(sub)] *)
Fixpoint includes (s sub : string) : bool :=
  if String.prefix sub s then true
  else match s with
       | EmptyString => false
       | String _ s' => includes s' sub
       end.

(** [n.toString()] for a non-negative integer. *)
Definition toString (n : N) : string := NilZero.string_of_uint (N.to_uint n).

(** The fields of an error object that the plugin reads.  [None] is
    [undefined]. *)
Record JsError := mkError {
  e_code : option string;
  e_status : option N;
  e_name : option string;
  e_message : string
}.

(** [new Error(message)] *)
Definition Error (message : string) : JsError :=
  {| e_code := None; e_status := None; e_name := Some "Error"; e_message := message |}.

(** The [TypeError] of a property read on [undefined] or [null]. *)
Definition TypeError (message : string) : JsError :=
  {| e_code := None; e_status := None; e_name := Some "TypeError"; e_message := message |}.

(** What a [throw] carries: an error object, or [undefined] (the initial
    value of [lastError] in the retry loops; [null] behaves alike wherever
    the plugin reads a property of the caught value). *)
Inductive JsThrow :=
| ThrowError (e : JsError)
| ThrowUndefined.

(** How a promise settles. *)
Inductive Completion (A : Type) :=
| Returned (a : A)
| Thrown (e : JsThrow).
Arguments Returned {A} a.
Arguments Thrown {A} e.

(** An async computation over a world of type [S]. *)
Definition M (S A : Type) : Type := S -> Completion A * S.

Definition ret {S A} (a : A) : M S A := fun s => (Returned a, s).

Definition throw {S A} (e : JsThrow) : M S A := fun s => (Thrown e, s).

Definition bind {S A B} (c : M S A) (k : A -> M S B) : M S B :=
  fun s => match c s with
           | (Returned a, s') => k a s'
           | (Thrown e, s') => (Thrown e, s')
           end.

(** [try { c } catch (error) { h error }] *)
Definition try_catch {S A} (c : M S A) (h : JsThrow -> M S A) : M S A :=
  fun s => match c s with
           | (Returned a, s') => (Returned a, s')
           | (Thrown e, s') => h e s'
           end.

(** [error.message] inside a [catch]: a [TypeError] when the caught value is
    [undefined]. *)
Definition message_of {S} (e : JsThrow) : M S string :=
  match e with
  | ThrowError err => ret (e_message err)
  | ThrowUndefined =>
      throw (ThrowError (TypeError "Cannot read properties of undefined (reading 'message')"))
  end.

End Js.

Declare Scope js_scope.
Delimit Scope js_scope with js.
Notation "x <- c ;; k" := (Js.bind c (fun x => k))
  (at level 61, c at next level, right associativity) : js_scope.
Notation "c ;;; k" := (Js.bind c (fun _ => k))
  (at level 61, right associativity) : js_scope.

(* ===================================================================== *)
(** * The world outside the plugin *)
(* ===================================================================== *)

Module Environment.
Import Js.

Definition ItemId := string.
Definition TagId := N.

(** A marker of a processing result: [{ title, seconds, tags }]. *)
Record Marker := mkMarker {
  mk_title : string;
  mk_seconds : Q;
  mk_tags : option (list string)
}.

(** The body of a processing response, as far as the plugin reads it:
    [result.tags] and [result.markers].  An absent field is the empty list;
    the plugin skips the step in both cases. *)
Record ProcessResult := mkResult {
  r_tags : list string;
  r_markers : list Marker
}.

(** The options object sent with a scene or an image. *)
Record SceneOptions := mkSceneOptions {
  frame_interval : option N;
  max_frames : option N;
  shot_detection : option bool
}.

Record ImageOptions := mkImageOptions {
  quality : option string
}.

Inductive Payload :=
| ScenePayload (scene_id : ItemId) (frame_interval max_frames : N) (shot_detection : bool)
| ImagePayload (image_id : ItemId) (quality : string).

(** An HTTP request to the container. *)
Record RemoteReq := mkReq {
  path : string;
  method : string;
  body : option Payload
}.

(** What [fetch] does with it: a response whose body is then read, a
    response whose body cannot be read ([response.json()] or
    [response.text()] rejects, as on malformed JSON), or a rejection of
    [fetch] itself (connection refused, or the [AbortError] of the timeout
    timer). *)
Inductive Response :=
| HttpResponse (status : N) (statusText : string) (data : ProcessResult)
| BodyFails (status : N) (statusText : string) (e : JsError)
| FetchFails (e : JsError).

(** [response.ok] *)
Definition ok (status : N) : bool := (200 <=? status)%N && (status <=? 299)%N.

(** ** The catalog *)

Record Tag := mkTag { tag_id : TagId; tag_name : string }.

Record MarkerRow := mkMarkerRow {
  row_scene : ItemId;
  row_title : string;
  row_seconds : Q;
  row_tag_ids : list TagId
}.

Record Catalog := mkCatalog {
  tags : list Tag;
  next_id : TagId;
  scene_tags : list (ItemId * TagId);
  image_tags : list (ItemId * TagId);
  markers : list MarkerRow
}.

(** The GraphQL operations the plugin sends while it applies a result. *)
Inductive CatalogReq :=
| FindTag (name : string)
| CreateTag (name : string)
| BulkSceneUpdate (scene : ItemId) (tag_ids : list TagId)
| BulkImageUpdate (image : ItemId) (tag_ids : list TagId)
| CreateSceneMarker (scene : ItemId) (title : string) (seconds : Q) (tag_ids : list TagId).

(** The [data] of a GraphQL answer: [findTag] / [createTag], and
    [createSceneMarker]. *)
Record CatalogData := mkData {
  d_tag : option Tag;
  d_marker : option MarkerRow
}.

Definition pair_eqb (a b : ItemId * TagId) : bool :=
  String.eqb (fst a) (fst b) && N.eqb (snd a) (snd b).

(** [mode: "ADD"]: the tags not yet attached are attached. *)
Fixpoint attach (item : ItemId) (ids : list TagId) (rel : list (ItemId * TagId))
  : list (ItemId * TagId) :=
  match ids with
  | [] => rel
  | t :: ids' =>
      let rel' := if existsb (pair_eqb (item, t)) rel then rel else rel ++ [(item, t)] in
      attach item ids' rel'
  end.

(** Whether a marker row is the marker of [scene] with that title and
    offset. *)
Definition sameMarker (scene : ItemId) (title : string) (seconds : Q) (r : MarkerRow) : bool :=
  String.eqb (row_scene r) scene && String.eqb (row_title r) title
  && Qeq_bool (row_seconds r) seconds.

(** Modelled from the spec: the catalog service is an external collaborator
    (Stash), absent from the repository.  Section 6 gives its interface: find
    a tag by name, create a tag, bulk-attach tags to an item with
    [mode = ADD], create a scene marker from title, offset and tag ids.  Each
    successful write is a durable mutation.  Sections 4.3 and 9 take the
    creation of a marker to be idempotent on the side of the catalog, by
    contract: a marker submitted again for the same scene with the same
    title and offset is not stored a second time, the catalog answers with
    the marker it holds.  No such contract is stated for tags: a tag is
    created whenever the mutation is sent, and it is for the plugin to look
    the name up first. *)
Definition perform (req : CatalogReq) (c : Catalog) : CatalogData * Catalog :=
  match req with
  | FindTag name =>
      ({| d_tag := find (fun t => String.eqb (tag_name t) name) (tags c); d_marker := None |}, c)
  | CreateTag name =>
      let t := {| tag_id := next_id c; tag_name := name |} in
      ({| d_tag := Some t; d_marker := None |},
       {| tags := tags c ++ [t]; next_id := N.succ (next_id c);
          scene_tags := scene_tags c; image_tags := image_tags c; markers := markers c |})
  | BulkSceneUpdate scene ids =>
      ({| d_tag := None; d_marker := None |},
       {| tags := tags c; next_id := next_id c;
          scene_tags := attach scene ids (scene_tags c);
          image_tags := image_tags c; markers := markers c |})
  | BulkImageUpdate image ids =>
      ({| d_tag := None; d_marker := None |},
       {| tags := tags c; next_id := next_id c; scene_tags := scene_tags c;
          image_tags := attach image ids (image_tags c); markers := markers c |})
  | CreateSceneMarker scene title seconds ids =>
      match find (sameMarker scene title seconds) (markers c) with
      | Some held => ({| d_tag := None; d_marker := Some held |}, c)
      | None =>
          let row := {| row_scene := scene; row_title := title;
                        row_seconds := seconds; row_tag_ids := ids |} in
          ({| d_tag := None; d_marker := Some row |},
           {| tags := tags c; next_id := next_id c; scene_tags := scene_tags c;
              image_tags := image_tags c; markers := markers c ++ [row] |})
      end
  end.

(** ** The environment of a run

    [remote n req] is the container's answer to [req] when it is the [n]-th
    request it receives; [stash_fault n] is the error of the [n]-th GraphQL
    request, if it fails.  Both logs grow at the end. *)
Record Env := mkEnv {
  remote : nat -> RemoteReq -> Response;
  remote_log : list RemoteReq;
  stash_fault : nat -> option JsError;
  stash_log : list CatalogReq;
  catalog : Catalog
}.

End Environment.

(** ** Traces *)

Module World.
Import Js.

Inductive Event :=
| Invoke (attempt : nat)             (* a retry loop calls the wrapped operation *)
| Settle (attempt : nat) (error : option JsThrow)
                                     (* the promise of that call settles:
                                        fulfilled, or rejected with an error *)
| Warn (attempt : nat) (delay : Q)   (* console.warn of a retry *)
| Sleep (delay : Q)                  (* await of setTimeout(resolve, delay) *)
| ItemStart (id : string)            (* processItem(id) is called *)
| ItemDone (id : string) (ok : bool) (* its promise settles *)
| CancelSignal.                      (* the cancel action runs *)

Record World (S : Type) := mkWorld {
  env : S;
  random : nat -> Q;      (* the successive values of Math.random() *)
  draws : nat;            (* how many of them were consumed *)
  trace : list Event
}.

Section Ops.
Context {S : Type}.

Definition emit (e : Event) (w : World S) : World S :=
  {| env := env w; random := random w; draws := draws w; trace := trace w ++ [e] |}.

Definition with_env (s : S) (w : World S) : World S :=
  {| env := s; random := random w; draws := draws w; trace := trace w |}.

(** [Math.random()] *)
Definition MathRandom (w : World S) : Q * World S :=
  (random w (draws w),
   {| env := env w; random := random w; draws := Datatypes.S (draws w); trace := trace w |}).

(** A computation on the environment, run inside the world. *)
Definition liftEnv {A} (c : M S A) : M (World S) A :=
  fun w => let (r, s') := c (env w) in (r, with_env s' w).

End Ops.
End World.

(* ===================================================================== *)
(** * ErrorHandler *)
(* ===================================================================== *)

Module ErrorHandler.
Import Js World.
Local Open Scope string_scope.

(** The constructor's [this.maxRetries = 3] and [this.baseDelay = 1000]. *)
Definition maxRetries : nat := 3.
Definition baseDelay : Q := 1000.

(** Truthiness of a property that holds a string or a number: [undefined],
    the empty string and zero are falsy. *)
Definition truthyStr (o : option string) : bool :=
  match o with Some s => negb (String.eqb s "") | None => false end.

Definition truthyNum (o : option N) : bool :=
  match o with Some n => negb (N.eqb n 0) | None => false end.

Definition getErrorCode (error : option JsError) : string :=
  match error with
  | None => "UNKNOWN_ERROR"
  | Some error =>
      if truthyStr (e_code error) then
        match e_code error with Some c => c | None => "" end
      else if truthyNum (e_status error) then
        match e_status error with Some n => toString n | None => "" end
      else if truthyStr (e_name error) then
        match e_name error with Some x => x | None => "" end
      else "UNKNOWN_ERROR"
  end.

(** [codes.includes(code)] on an array of strings. *)
Definition includesCode (codes : list string) (c : string) : bool :=
  existsb (String.eqb c) codes.

Definition retryableCodes : list string :=
  ["NETWORK_ERROR"; "TIMEOUT"; "CONNECTION_REFUSED"; "ECONNRESET"; "ENETUNREACH";
   "ECONNABORTED"; "500"; "502"; "503"; "504"].

Definition isRetryableError (error : JsError) : bool :=
  includesCode retryableCodes (getErrorCode (Some error))
  || includes (e_message error) "timeout"
  || includes (e_message error) "network".

Definition nonRetryableCodes : list string :=
  ["VALIDATION_ERROR"; "AUTHENTICATION_ERROR"; "PERMISSION_DENIED"; "NOT_FOUND";
   "400"; "401"; "403"; "404"].

Definition shouldRetry (error : JsError) : bool :=
  if includesCode nonRetryableCodes (getErrorCode (Some error)) then false
  else isRetryableError error.

(** [getRetryDelay(attempt, baseDelay = 1000, maxDelay = 30000)]; [r] is the
    value that [Math.random()] returns. *)
Definition getRetryDelay (attempt : Z) (baseDelay maxDelay : Q) (r : Q) : Z :=
  let delay := JsNumber.MathMin maxDelay
                 (JsNumber.mul baseDelay (JsNumber.pow2 (attempt - 1))) in
  let jitter := JsNumber.mul r 1000 in
  JsNumber.MathFloor (JsNumber.add delay jitter).

Definition default_maxDelay : Q := 30000.

Section Retry.
Context {S A : Type}.

(** The loop of [retryOperation]: [for (attempt = 1; attempt <= maxRetries;
    attempt++)].  [fuel] bounds the iterations left; [maxRetries] of them are
    enough, for [attempt] starts at 1 and grows by one.  In the [catch], the
    delay is computed first (one value of [Math.random()] is consumed), then
    the template of [console.warn] reads [error.message]: when the operation
    rejected with [undefined] that read throws a [TypeError], which leaves
    the loop before the warning and the sleep. *)
Fixpoint retryOperation_loop (operation : M S A) (maxRetries : nat) (baseDelay : Q)
    (fuel attempt : nat) (lastError : JsThrow) (w : World S)
  : Completion A * World S :=
  match fuel with
  | O => (Thrown lastError, w)
  | Datatypes.S fuel' =>
      if (maxRetries <? attempt)%nat then (Thrown lastError, w)
      else
        let w1 := emit (Invoke attempt) w in
        match operation (env w1) with
        | (Returned a, s') => (Returned a, emit (Settle attempt None) (with_env s' w1))
        | (Thrown error, s') =>
            let w2 := emit (Settle attempt (Some error)) (with_env s' w1) in
            if (attempt =? maxRetries)%nat then (Thrown error, w2)
            else
              let (r, w3) := MathRandom w2 in
              let delay :=
                JsNumber.add
                  (JsNumber.mul baseDelay (JsNumber.pow2 (Z.of_nat attempt - 1)))
                  (JsNumber.mul r 1000) in
              match message_of error w3 with
              | (Thrown e, w3') => (Thrown e, w3')
              | (Returned _, w3') =>
                  let w4 := emit (Sleep delay) (emit (Warn attempt delay) w3') in
                  retryOperation_loop operation maxRetries baseDelay fuel'
                    (Datatypes.S attempt) error w4
              end
        end
  end.

Definition retryOperation (operation : M S A) (maxRetries : nat) (baseDelay : Q)
  : M (World S) A :=
  retryOperation_loop operation maxRetries baseDelay maxRetries 1 ThrowUndefined.

End Retry.
End ErrorHandler.

(* ===================================================================== *)
(** * NSFWTaggerClient *)
(* ===================================================================== *)

Module NSFWTaggerClient.
Import Js Environment World.
Local Open Scope string_scope.
Local Open Scope js_scope.

(** [this.timeout] is kept in milliseconds.  The model is for a timeout of
    a whole number of seconds; its milliseconds are a double as long as they
    do not exceed [2^53], which the statements that read the timeout
    assume. *)
Record Client := mkClient {
  host : string;
  port : N;
  timeout : N
}.

(** [new NSFWTaggerClient(host, port, timeout)] *)
Definition new (host : string) (port timeout : N) : Client :=
  {| host := host; port := port; timeout := (timeout * 1000)%N |}.

(** What [request] resolves to: [{ success: true, data, status }]. *)
Record RequestResult := mkRequestResult {
  rr_data : ProcessResult;
  rr_status : N
}.

(** [request(path, options)].  The status is checked before the body is
    read, and the body is read inside the [try].  The [catch] turns an error
    named [AbortError] into a timeout error and rethrows everything else: the
    [HTTP ...] error of a non-ok response, the rejection of [fetch], and the
    rejection of the body read of an ok response. *)
Definition request (c : Client) (req : RemoteReq) : M Env RequestResult :=
  fun s =>
    let response := remote s (List.length (remote_log s)) req in
    let s' := {| remote := remote s; remote_log := (remote_log s ++ [req])%list;
                 stash_fault := stash_fault s; stash_log := stash_log s;
                 catalog := catalog s |} in
    match response with
    | HttpResponse status statusText data =>
        if ok status then (Returned {| rr_data := data; rr_status := status |}, s')
        else (Thrown (ThrowError (Error ("HTTP " ++ toString status ++ ": " ++ statusText))), s')
    | BodyFails status statusText error =>
        if ok status then
          match e_name error with
          | Some "AbortError" =>
              (Thrown (ThrowError (Error ("Request timeout after "
                                          ++ toString (timeout c / 1000)%N ++ " seconds"))), s')
          | _ => (Thrown (ThrowError error), s')
          end
        else (Thrown (ThrowError (Error ("HTTP " ++ toString status ++ ": " ++ statusText))), s')
    | FetchFails error =>
        match e_name error with
        | Some "AbortError" =>
            (Thrown (ThrowError (Error ("Request timeout after "
                                        ++ toString (timeout c / 1000)%N ++ " seconds"))), s')
        | _ => (Thrown (ThrowError error), s')
        end
    end.

Record Health := mkHealth {
  healthy : bool;
  h_error : option string
}.

Definition healthCheck (c : Client) : M Env Health :=
  try_catch
    (_ <- request c {| path := "/health"; method := "GET"; body := None |} ;;
     ret {| healthy := true; h_error := None |})
    (fun error =>
       m <- message_of error ;;
       ret {| healthy := false; h_error := Some m |}).

(** [{ success, result, error }] *)
Record ProcessResponse := mkProcessResponse {
  pr_success : bool;
  pr_result : option ProcessResult;
  pr_error : option string
}.

(** [options.x || d] for a key that the spread [...options] then copies
    again: the key of [options] wins whenever it is there. *)
Definition optionOr {A} (o : option A) (d : A) : A :=
  match o with Some v => v | None => d end.

Definition processScene (c : Client) (sceneId : ItemId) (options : SceneOptions)
  : M Env ProcessResponse :=
  let payload :=
    ScenePayload sceneId
      (optionOr (frame_interval options) 5%N)
      (optionOr (max_frames options) 50%N)
      (optionOr (shot_detection options) true) in
  try_catch
    (result <- request c {| path := "/process/scene"; method := "POST"; body := Some payload |} ;;
     ret {| pr_success := true; pr_result := Some (rr_data result); pr_error := None |})
    (fun error =>
       m <- message_of error ;;
       ret {| pr_success := false; pr_result := None; pr_error := Some m |}).

Definition processImage (c : Client) (imageId : ItemId) (options : ImageOptions)
  : M Env ProcessResponse :=
  let payload := ImagePayload imageId (optionOr (quality options) "high") in
  try_catch
    (result <- request c {| path := "/process/image"; method := "POST"; body := Some payload |} ;;
     ret {| pr_success := true; pr_result := Some (rr_data result); pr_error := None |})
    (fun error =>
       m <- message_of error ;;
       ret {| pr_success := false; pr_result := None; pr_error := Some m |}).

(** [cancelProcessing()]: [POST /cancel]; resolves to its [success] flag. *)
Definition cancelProcessing (c : Client) : M Env bool :=
  try_catch
    (_ <- request c {| path := "/cancel"; method := "POST"; body := None |} ;;
     ret true)
    (fun error => _ <- message_of error ;; ret false).

Record Connection := mkConnection {
  connected : bool;
  c_error : option string
}.

Definition testLMStudioConnection (c : Client) : M Env Connection :=
  try_catch
    (_ <- request c {| path := "/test/lmstudio"; method := "GET"; body := None |} ;;
     ret {| connected := true; c_error := None |})
    (fun error =>
       m <- message_of error ;;
       ret {| connected := false; c_error := Some m |}).

Section Retry.
Context {S A : Type}.

(** The loop of [retryRequest]: [for (attempt = 1; attempt <= maxRetries;
    attempt++)], with [maxRetries] iterations of fuel: [attempt] starts at 1
    and grows by one, so the fuel runs out exactly when the loop condition
    fails, and the statement after the loop is [throw lastError].  As in
    [ErrorHandler.retryOperation], the read of [error.message] for the
    warning throws a [TypeError] when the rejection value is [undefined]. *)
Fixpoint retryRequest_loop (requestFn : M S A) (maxRetries : nat) (baseDelay : Q)
    (fuel attempt : nat) (lastError : JsThrow) (w : World S)
  : Completion A * World S :=
  match fuel with
  | O => (Thrown lastError, w)
  | Datatypes.S fuel' =>
      if (maxRetries <? attempt)%nat then (Thrown lastError, w)
      else
        let w1 := emit (Invoke attempt) w in
        match requestFn (env w1) with
        | (Returned a, s') => (Returned a, emit (Settle attempt None) (with_env s' w1))
        | (Thrown error, s') =>
            let w2 := emit (Settle attempt (Some error)) (with_env s' w1) in
            if (attempt =? maxRetries)%nat then (Thrown error, w2)
            else
              let (r, w3) := MathRandom w2 in
              let delay :=
                JsNumber.add
                  (JsNumber.mul baseDelay (JsNumber.pow2 (Z.of_nat attempt - 1)))
                  (JsNumber.mul r 1000) in
              match message_of error w3 with
              | (Thrown e, w3') => (Thrown e, w3')
              | (Returned _, w3') =>
                  let w4 := emit (Sleep delay) (emit (Warn attempt delay) w3') in
                  retryRequest_loop requestFn maxRetries baseDelay fuel'
                    (Datatypes.S attempt) error w4
              end
        end
  end.

(** [retryRequest(requestFn, maxRetries = 3, baseDelay = 1000)] *)
Definition retryRequest (requestFn : M S A) (maxRetries : nat) (baseDelay : Q)
  : M (World S) A :=
  retryRequest_loop requestFn maxRetries baseDelay maxRetries 1 ThrowUndefined.

End Retry.

Definition default_maxRetries : nat := 3.
Definition default_baseDelay : Q := 1000.

Definition processSceneWithRetry (c : Client) (sceneId : ItemId) (options : SceneOptions)
    (maxRetries : nat) : M (World Env) ProcessResponse :=
  retryRequest (processScene c sceneId options) maxRetries default_baseDelay.

Definition processImageWithRetry (c : Client) (imageId : ItemId) (options : ImageOptions)
    (maxRetries : nat) : M (World Env) ProcessResponse :=
  retryRequest (processImage c imageId options) maxRetries default_baseDelay.

Record Validation := mkValidation {
  valid : bool;
  v_error : option string
}.

Definition validateConnection (c : Client) : M Env Validation :=
  health <- healthCheck c ;;
  if negb (healthy health) then
    ret {| valid := false;
           v_error := Some ("Container not reachable: " ++ optionOr (h_error health) "null") |}
  else
    lmstudio <- testLMStudioConnection c ;;
    if negb (connected lmstudio) then
      ret {| valid := false;
             v_error := Some ("LMStudio not connected: " ++ optionOr (c_error lmstudio) "null") |}
    else ret {| valid := true; v_error := None |}.

End NSFWTaggerClient.

(* ===================================================================== *)
(** * StashClient *)
(* ===================================================================== *)

Module StashClient.
Import Js Environment.
Local Open Scope js_scope.

(** [graphql(query, variables)]: the request is logged, then fails with the
    error the oracle gives or is performed by the catalog. *)
Definition graphql (req : CatalogReq) : M Env CatalogData :=
  fun s =>
    let n := List.length (stash_log s) in
    match stash_fault s n with
    | Some error =>
        (Thrown (ThrowError error),
         {| remote := remote s; remote_log := remote_log s; stash_fault := stash_fault s;
            stash_log := stash_log s ++ [req]; catalog := catalog s |})
    | None =>
        let (data, c') := perform req (catalog s) in
        (Returned data,
         {| remote := remote s; remote_log := remote_log s; stash_fault := stash_fault s;
            stash_log := stash_log s ++ [req]; catalog := c' |})
    end.

(** [getTagByName(tagName)]: [null] when the tag is absent or the query
    fails. *)
Definition getTagByName (tagName : string) : M Env (option Tag) :=
  try_catch
    (result <- graphql (FindTag tagName) ;; ret (d_tag result))
    (fun _ => ret None).

(** [createTagIfNotExists(tagName)]: the id of the tag, [null] on failure. *)
Definition createTagIfNotExists (tagName : string) : M Env (option TagId) :=
  try_catch
    (existingTag <- getTagByName tagName ;;
     match existingTag with
     | Some t => ret (Some (tag_id t))
     | None =>
         result <- graphql (CreateTag tagName) ;;
         match d_tag result with
         | Some t => ret (Some (tag_id t))
         | None => throw (ThrowError (TypeError "Cannot read properties of null (reading 'id')"))
         end
     end)
    (fun _ => ret None).

Definition addTagsToScene (sceneId : ItemId) (tagIds : list TagId) : M Env unit :=
  try_catch
    (_ <- graphql (BulkSceneUpdate sceneId tagIds) ;; ret tt)
    (fun error => throw error).

Definition addTagsToImage (imageId : ItemId) (tagIds : list TagId) : M Env unit :=
  try_catch
    (_ <- graphql (BulkImageUpdate imageId tagIds) ;; ret tt)
    (fun error => throw error).

(** The loop of [createSceneMarker] that resolves the tag names: a name that
    does not resolve is skipped. *)
Fixpoint markerTagIds (tagNames : list string) (tagIds : list TagId) : M Env (list TagId) :=
  match tagNames with
  | [] => ret tagIds
  | tagName :: rest =>
      tag <- getTagByName tagName ;;
      markerTagIds rest (match tag with
                         | Some t => tagIds ++ [tag_id t]
                         | None => tagIds
                         end)
  end.

Definition createSceneMarker (sceneId : ItemId) (title : string) (seconds : Q)
    (tagNames : list string) : M Env (option MarkerRow) :=
  tagIds <- markerTagIds tagNames [] ;;
  try_catch
    (result <- graphql (CreateSceneMarker sceneId title seconds tagIds) ;;
     ret (d_marker result))
    (fun error => throw error).

End StashClient.

(* ===================================================================== *)
(** * BatchProcessor *)
(* ===================================================================== *)

Module BatchProcessor.
Import Js Environment World.
Local Open Scope js_scope.

(** [this.state.type]: ['scenes'] or ['images']. *)
Inductive ItemType := scenes | images.

(** [this.props.settings], as far as the batch reads it.  [concurrency] is
    modelled for a setting that is missing or a non-negative integer; the
    source does not validate it, and other values (a negative number,
    [null]) are outside the model. *)
Record Settings := mkSettings {
  concurrency : option nat;
  set_frame_interval : option N;
  set_max_frames : option N;
  set_shot_detection : option bool;
  set_quality : option string
}.

Record Props := mkProps {
  settings : Settings;
  nsfwClient : NSFWTaggerClient.Client
}.

Record Progress := mkProgress {
  current : nat;
  total : nat;
  completed : nat;
  failed : nat;
  status : string
}.

(** The objects collected in [results] and [errors]:
    [{ id, success: true, result }] from [processItem] and
    [{ id, success: false, error: error.message }] from the [catch] of
    [processItems]. *)
Inductive Outcome :=
| Success (id : ItemId) (result : ProcessResult)
| Failure (id : ItemId) (error : string).

Definition id (o : Outcome) : ItemId :=
  match o with Success i _ => i | Failure i _ => i end.

Definition success (o : Outcome) : bool :=
  match o with Success _ _ => true | Failure _ _ => false end.

(** Property lookup [o[key]] on such an object; [None] is [undefined]. *)
Inductive JsVal :=
| VString (s : string)
| VBool (b : bool)
| VResult (r : ProcessResult).

Definition field (o : Outcome) (key : string) : option JsVal :=
  match o with
  | Success i result =>
      if String.eqb key "id" then Some (VString i)
      else if String.eqb key "success" then Some (VBool true)
      else if String.eqb key "result" then Some (VResult result)
      else None
  | Failure i error =>
      if String.eqb key "id" then Some (VString i)
      else if String.eqb key "success" then Some (VBool false)
      else if String.eqb key "error" then Some (VString error)
      else None
  end.

(** [this.state] (the fields a run touches) and [this.processingInterval]. *)
Record Component := mkComponent {
  selectedItems : list ItemId;
  type : ItemType;
  processing : bool;
  progress : Progress;
  results : list Outcome;
  errors : list Outcome;
  processingInterval : bool
}.

(** The component in its world; [history] lists the successive states that
    [setState] produced. *)
Record App := mkApp {
  comp : Component;
  world : World Env;
  history : list Component
}.

Definition setState (f : Component -> Component) (a : App) : App :=
  let c := f (comp a) in
  {| comp := c; world := world a; history := history a ++ [c] |}.

Definition with_world (w : World Env) (a : App) : App :=
  {| comp := comp a; world := w; history := history a |}.

(** How an async method of the component ends: it resolves, it rejects, or
    it never settles. *)
Inductive Run :=
| Done (a : App)
| Rejected (e : JsThrow) (a : App)
| Diverges.

(** [x || d] on a number and on a string. *)
Definition orN (o : option N) (d : N) : N :=
  match o with
  | Some v => if N.eqb v 0 then d else v
  | None => d
  end.

Definition orString (o : option string) (d : string) : string :=
  match o with
  | Some v => if String.eqb v "" then d else v
  | None => d
  end.

(** ** applyResultsToStash *)

(** [for (const tagName of result.tags)]: the ids that resolve are pushed.
    A tag id is a GraphQL ID, a non-empty string, so [if (tagId)] fails on
    [null] only. *)
Fixpoint createTags (tagNames : list string) (tagIds : list TagId) : M Env (list TagId) :=
  match tagNames with
  | [] => ret tagIds
  | tagName :: rest =>
      tagId <- StashClient.createTagIfNotExists tagName ;;
      createTags rest (match tagId with
                       | Some t => tagIds ++ [t]
                       | None => tagIds
                       end)
  end.

(** [for (const marker of result.markers)] *)
Fixpoint createMarkers (itemId : ItemId) (ms : list Marker) : M Env unit :=
  match ms with
  | [] => ret tt
  | marker :: rest =>
      _ <- StashClient.createSceneMarker itemId (mk_title marker) (mk_seconds marker)
             (match mk_tags marker with Some l => l | None => [] end) ;;
      createMarkers itemId rest
  end.

Definition nonempty {A} (l : list A) : bool :=
  match l with [] => false | _ => true end.

(** The block under the comment "Create tags" of [applyResultsToStash]. *)
Definition applyTags (itemId : ItemId) (type : ItemType) (result : ProcessResult)
  : M Env unit :=
  if nonempty (r_tags result) then
    tagIds <- createTags (r_tags result) [] ;;
    if nonempty tagIds then
      match type with
      | scenes => StashClient.addTagsToScene itemId tagIds
      | images => StashClient.addTagsToImage itemId tagIds
      end
    else ret tt
  else ret tt.

(** The block under the comment "Create markers (for scenes only)". *)
Definition applyMarkers (itemId : ItemId) (type : ItemType) (result : ProcessResult)
  : M Env unit :=
  match type with
  | scenes =>
      if nonempty (r_markers result) then createMarkers itemId (r_markers result)
      else ret tt
  | images => ret tt
  end.

Definition applyResultsToStash (itemId : ItemId) (type : ItemType)
    (result : option ProcessResult) : M Env unit :=
  try_catch
    (match result with
     | None => throw (ThrowError (TypeError "Cannot read properties of null (reading 'tags')"))
     | Some result =>
         applyTags itemId type result ;;;
         applyMarkers itemId type result
     end)
    (fun error => throw error).

(** ** processItem *)

Definition processItem (props : Props) (itemId : ItemId) (type : ItemType)
  : M (World Env) Outcome :=
  try_catch
    (result <-
       match type with
       | scenes =>
           NSFWTaggerClient.processSceneWithRetry (nsfwClient props) itemId
             {| frame_interval := Some (orN (set_frame_interval (settings props)) 5);
                max_frames := Some (orN (set_max_frames (settings props)) 50);
                shot_detection :=
                  Some (match set_shot_detection (settings props) with
                        | Some false => false
                        | _ => true
                        end) |}
             NSFWTaggerClient.default_maxRetries
       | images =>
           NSFWTaggerClient.processImageWithRetry (nsfwClient props) itemId
             {| quality := Some (orString (set_quality (settings props)) "high") |}
             NSFWTaggerClient.default_maxRetries
       end ;;
     if negb (NSFWTaggerClient.pr_success result) then
       throw (ThrowError (Error (orString (NSFWTaggerClient.pr_error result) "Processing failed")))
     else
       liftEnv (applyResultsToStash itemId type (NSFWTaggerClient.pr_result result)) ;;;
       match NSFWTaggerClient.pr_result result with
       | Some r => ret (Success itemId r)
       | None => throw (ThrowError (TypeError "result is null"))
       end)
    (fun error => throw error).

(** ** createBatches *)

(** [items.slice(i, j)] *)
Definition slice {A} (items : list A) (i j : nat) : list A :=
  firstn (j - i) (skipn i items).

(** [for (let i = 0; i < items.length; i += batchSize)].  [None] when the
    loop has not ended with the fuel given. *)
Fixpoint createBatches_loop {A} (fuel : nat) (items : list A) (batchSize i : nat)
    (batches : list (list A)) : option (list (list A)) :=
  match fuel with
  | O => None
  | Datatypes.S fuel' =>
      if (i <? List.length items)%nat then
        createBatches_loop fuel' items batchSize (i + batchSize)
          (batches ++ [slice items i (i + batchSize)])
      else Some batches
  end.

(** [createBatches(items, batchSize)], with one more iteration of fuel than
    there are items: the loop needs more only if [batchSize] is 0, and then
    it never ends ([createBatches_diverges] below). *)
Definition createBatches {A} (items : list A) (batchSize : nat) : option (list (list A)) :=
  createBatches_loop (Datatypes.S (List.length items)) items batchSize 0 [].

(** ** The user interface while a batch is in flight

    Two events are modelled: the interval of the progress timer and the
    cancel button.  The other controls of the component (mode, type and
    filter selectors, Refresh, the check boxes, and the start button once a
    cancel has set [processing] to false) are not: the statements below are
    for a user who, during a run, does nothing but cancel. *)

Inductive UiEvent :=
| Tick          (* the interval of startProgressTracking fires *)
| CancelClick.  (* the cancel button: cancelProcessing() *)

Definition startProgressTracking (a : App) : App :=
  {| comp := {| selectedItems := selectedItems (comp a); type := type (comp a);
                processing := processing (comp a); progress := progress (comp a);
                results := results (comp a); errors := errors (comp a);
                processingInterval := true |};
     world := world a; history := history a |}.

Definition stopProgressTracking (a : App) : App :=
  {| comp := {| selectedItems := selectedItems (comp a); type := type (comp a);
                processing := processing (comp a); progress := progress (comp a);
                results := results (comp a); errors := errors (comp a);
                processingInterval := false |};
     world := world a; history := history a |}.

(** The state that the callback of the interval sets:
    [{ progress: { ...prevState.progress, current: current + 1 } }]. *)
Definition tickedState (prevState : Component) : Component :=
  {| selectedItems := selectedItems prevState; type := type prevState;
     processing := processing prevState;
     progress := {| current := current (progress prevState) + 1;
                    total := total (progress prevState);
                    completed := completed (progress prevState);
                    failed := failed (progress prevState);
                    status := status (progress prevState) |};
     results := results prevState; errors := errors prevState;
     processingInterval := processingInterval prevState |}.

(** The callback of the interval, while the interval is set. *)
Definition tick (a : App) : App :=
  if processingInterval (comp a) then setState tickedState a else a.

(** The state that [cancelProcessing] sets. *)
Definition cancelledState (prevState : Component) : Component :=
  {| selectedItems := selectedItems prevState; type := type prevState;
     processing := false;
     progress := {| current := 0; total := 0; completed := 0; failed := 0;
                    status := "cancelled" |};
     results := results prevState; errors := errors prevState;
     processingInterval := processingInterval prevState |}.

(** [cancelProcessing()] of the component, from the click to the end of the
    method.  The client's [cancelProcessing] catches its own errors, the
    [catch] here is for the rest.  The request is sent at the click; the
    state is reset when the request is answered, which is taken here to be
    at once.  In a browser the answer can come any time later, so the
    statements about a cancelled run say nothing of the moment of the
    reset. *)
Definition cancelProcessing (props : Props) (a : App) : App :=
  let a0 := with_world (emit CancelSignal (world a)) a in
  match liftEnv (NSFWTaggerClient.cancelProcessing (nsfwClient props)) (world a0) with
  | (Returned _, w) => stopProgressTracking (setState cancelledState (with_world w a0))
  | (Thrown _, w) => with_world w a0
  end.

Definition deliver (props : Props) (events : list UiEvent) (a : App) : App :=
  fold_left (fun a e => match e with
                        | Tick => tick a
                        | CancelClick => cancelProcessing props a
                        end) events a.

(** ** processItems *)

(** [this.processItem(itemId, type).catch(error => ({ id: itemId,
    success: false, error: error.message }))] *)
Definition processItemCaught (props : Props) (type : ItemType) (itemId : ItemId)
  : M (World Env) Outcome :=
  try_catch (processItem props itemId type)
    (fun error => m <- message_of error ;; ret (Failure itemId m)).

(** [batch.map(...)] awaited by [Promise.all]: one outcome per item, in the
    order of the batch.  The pipelines of a batch interleave at their awaits
    and settle in any order; they are run here one after the other, in the
    order of the batch, which is one schedule among them.  [ItemStart] is
    emitted for the whole batch before (see [processBatches]): [map] calls
    [processItem] for every item before any promise settles.  The
    statements about a batch are those that hold of every schedule: which
    items are started and finished between two barriers, not the order in
    which the items of a batch finish. *)
Fixpoint runBatch (props : Props) (type : ItemType) (batch : list ItemId)
  : M (World Env) (list Outcome) :=
  match batch with
  | [] => ret []
  | itemId :: rest =>
      r <- processItemCaught props type itemId ;;
      _ <- (fun w => (Returned tt, emit (ItemDone itemId (success r)) w)) ;;
      rs <- runBatch props type rest ;;
      ret (r :: rs)
  end.

(** The [setState] after a batch. *)
Definition commit (batchResults : list Outcome) (prevState : Component) : Component :=
  let successful := filter success batchResults in
  let failed_ := filter (fun r => negb (success r)) batchResults in
  {| selectedItems := selectedItems prevState; type := type prevState;
     processing := processing prevState;
     progress := {| current := current (progress prevState);
                    total := total (progress prevState);
                    completed := completed (progress prevState) + List.length successful;
                    failed := failed (progress prevState) + List.length failed_;
                    status := status (progress prevState) |};
     results := results prevState ++ successful;
     errors := errors prevState ++ failed_;
     processingInterval := processingInterval prevState |}.

Definition emitAll (es : list Event) (w : World Env) : World Env :=
  fold_left (fun w e => emit e w) es w.

(** [for (const batch of batches)].  [ui k] are the interface events that
    arrive while batch [k] is in flight: after its items were started, before
    their promises settle. *)
Fixpoint processBatches (props : Props) (ui : nat -> list UiEvent) (type : ItemType)
    (k : nat) (batches : list (list ItemId)) (a : App) : Run :=
  match batches with
  | [] => Done a
  | batch :: rest =>
      let a1 := with_world (emitAll (map ItemStart batch) (world a)) a in
      let a2 := deliver props (ui k) a1 in
      match runBatch props type batch (world a2) with
      | (Returned batchResults, w) =>
          processBatches props ui type (Datatypes.S k) rest
            (setState (commit batchResults) (with_world w a2))
      | (Thrown e, w) => Rejected e (with_world w a2)
      end
  end.

Definition processItems (props : Props) (ui : nat -> list UiEvent)
    (itemIds : list ItemId) (type : ItemType) (a : App) : Run :=
  let concurrency := match concurrency (settings props) with Some c => c | None => 4 end in
  match createBatches itemIds concurrency with
  | None => Diverges
  | Some batches => processBatches props ui type 0 batches a
  end.

(** ** startProcessing *)

(** The state set before the items are processed, and the one set after. *)
Definition startedState (n : nat) (prevState : Component) : Component :=
  {| selectedItems := selectedItems prevState; type := type prevState;
     processing := true;
     progress := {| current := 0; total := n; completed := 0; failed := 0;
                    status := "processing" |};
     results := []; errors := [];
     processingInterval := processingInterval prevState |}.

Definition stoppedState (prevState : Component) : Component :=
  {| selectedItems := selectedItems prevState; type := type prevState;
     processing := false; progress := progress prevState;
     results := results prevState; errors := errors prevState;
     processingInterval := processingInterval prevState |}.

Definition startProcessing (props : Props) (ui : nat -> list UiEvent) (a : App) : Run :=
  let selected := selectedItems (comp a) in
  let type_ := type (comp a) in
  if (List.length selected =? 0)%nat then Done a
  else
    match liftEnv (NSFWTaggerClient.validateConnection (nsfwClient props)) (world a) with
    | (Thrown e, w) => Rejected e (with_world w a)
    | (Returned validation, w) =>
        if negb (NSFWTaggerClient.valid validation) then Done (with_world w a)
        else
          let a1 := setState (startedState (List.length selected)) (with_world w a) in
          let a2 := startProgressTracking a1 in
          match processItems props ui selected type_ a2 with
          | Done a3 => Done (setState stoppedState (stopProgressTracking a3))
          | r => r
          end
    end.

(** ** getProgressPercentage *)

Definition getProgressPercentage (c : Component) : Z :=
  if (total (progress c) =? 0)%nat then 0%Z
  else
    JsNumber.MathRound
      (JsNumber.mul
         (JsNumber.div (JsNumber.ofNat (completed (progress c)))
                       (JsNumber.ofNat (total (progress c))))
         100).

End BatchProcessor.

(* ===================================================================== *)
(** * Observations on traces *)
(* ===================================================================== *)

Module Observe.
Import Js Environment World.

Definition is_invoke (e : Event) : bool :=
  match e with Invoke _ => true | _ => false end.

Definition is_sleep (e : Event) : bool :=
  match e with Sleep _ => true | _ => false end.

(** How often the wrapped operation was invoked, how often the loop slept. *)
Definition invocations (t : list Event) : nat := List.length (filter is_invoke t).
Definition sleeps (t : list Event) : nat := List.length (filter is_sleep t).


(** Invocations are strictly sequential: an operation is invoked only when
    no invocation is pending, and the next event after an invocation is its
    own settlement. *)
Fixpoint sequential (t : list Event) : bool :=
  match t with
  | [] => true
  | Invoke k :: t' =>
      match t' with
      | Settle j _ :: _ => (j =? k)%nat && sequential t'
      | _ => false
      end
  | _ :: t' => sequential t'
  end.

(** The item-level steps of a trace. *)
Inductive Step :=
| Started (i : ItemId)
| Finished (i : ItemId).

Fixpoint steps (t : list Event) : list Step :=
  match t with
  | [] => []
  | ItemStart i :: t' => Started i :: steps t'
  | ItemDone i _ :: t' => Finished i :: steps t'
  | _ :: t' => steps t'
  end.

(** Items started and not yet finished. *)
Fixpoint inflight (n : nat) (t : list Step) : nat :=
  match t with
  | [] => n
  | Started _ :: t' => inflight (Datatypes.S n) t'
  | Finished _ :: t' => inflight (Nat.pred n) t'
  end.

(** The schedule of a chunk: all its items are started, then all finish. *)
Definition chunkSteps (chunk : list ItemId) : list Step :=
  map Started chunk ++ map Finished chunk.

(** The schedule of chunks separated by barriers: the items of a chunk are
    started together, in the order of the chunk, and all of them finish, in
    some order, before the first item of the next chunk is started. *)
Inductive Barriers : list (list ItemId) -> list Step -> Prop :=
| barriers_nil : Barriers [] []
| barriers_chunk chunk rest finished t :
    Permutation finished chunk ->
    Barriers rest t ->
    Barriers (chunk :: rest) (map Started chunk ++ map Finished finished ++ t).

(** The discipline of a pool of workers that pull from a shared queue, in
    the words of the specification: a worker that finishes an item pulls the
    next one at once, so while unstarted items remain ([remaining] of them)
    a [Finished] is followed by a [Started]. *)
Fixpoint workerPool (remaining : nat) (t : list Step) : bool :=
  match t with
  | [] => true
  | Started _ :: t' => workerPool (Nat.pred remaining) t'
  | Finished _ :: t' =>
      match remaining, t' with
      | O, _ => workerPool remaining t'
      | Datatypes.S _, Started _ :: _ => workerPool remaining t'
      | Datatypes.S _, _ => false
      end
  end.

(** No item is started after the cancel signal. *)
Fixpoint noStartAfterCancel (cancelled : bool) (t : list Event) : bool :=
  match t with
  | [] => true
  | CancelSignal :: t' => noStartAfterCancel true t'
  | ItemStart _ :: t' => negb cancelled && noStartAfterCancel cancelled t'
  | _ :: t' => noStartAfterCancel cancelled t'
  end.

(** The GraphQL requests of a log that create a tag, a marker. *)
Definition is_createTag (r : CatalogReq) : bool :=
  match r with CreateTag _ => true | _ => false end.

Definition is_createMarker (r : CatalogReq) : bool :=
  match r with CreateSceneMarker _ _ _ _ => true | _ => false end.

(** The item a processing request is about. *)
Definition payloadItem (r : RemoteReq) : option ItemId :=
  match body r with
  | Some (ScenePayload i _ _ _) => Some i
  | Some (ImagePayload i _) => Some i
  | None => None
  end.

Definition processingCalls (i : ItemId) (log : list RemoteReq) : nat :=
  List.length (filter (fun r => match payloadItem r with
                                | Some j => String.eqb i j
                                | None => false
                                end) log).

(** Whether the cancel button is pressed among some interface events. *)
Definition hasCancel (events : list BatchProcessor.UiEvent) : bool :=
  existsb (fun e => match e with
                    | BatchProcessor.CancelClick => true
                    | BatchProcessor.Tick => false
                    end) events.

End Observe.

(* ===================================================================== *)
(** * Vocabulary of the statements *)
(* ===================================================================== *)

(** Predicates on runs, frames between environments, and the concrete
    scenarios on which the statements below are evaluated. *)

Unset Implicit Arguments.

Module Scenario0.
Import BatchProcessor.
Definition counting (done all : nat) : Component :=
  {| selectedItems := []; type := scenes; processing := true;
     progress := {| current := 0; total := all; completed := done; failed := 0;
                    status := "processing" |};
     results := []; errors := []; processingInterval := true |}.
End Scenario0.

Module RetryShape.
Import Js World.

(** [delay] of the retry loops: [baseDelay * Math.pow(2, attempt - 1) +
    Math.random() * 1000], where [r] is the value of [Math.random()]. *)
Definition backoff (baseDelay : Q) (attempt : nat) (r : Q) : Q :=
  JsNumber.add (JsNumber.mul baseDelay (JsNumber.pow2 (Z.of_nat attempt - 1)))
               (JsNumber.mul r 1000).

(** The [TypeError] of [error.message] on [undefined]. *)
Definition noMessage : JsError :=
  TypeError "Cannot read properties of undefined (reading 'message')".

(** The events of a retry loop from attempt [k] on, when the next value of
    [Math.random] is the [n]-th, and how the loop ends ([None]: it returns).
    An attempt before the last that rejects with [undefined] ends the loop
    with the [TypeError] of the warning. *)
Inductive Attempts (maxRetries : nat) (baseDelay : Q) (random : nat -> Q)
  : nat -> nat -> list Event -> option JsThrow -> Prop :=
| attempts_fulfilled k n :
    Attempts maxRetries baseDelay random k n [Invoke k; Settle k None] None
| attempts_final n e :
    Attempts maxRetries baseDelay random maxRetries n
      [Invoke maxRetries; Settle maxRetries (Some e)] (Some e)
| attempts_retry k n e t r :
    k < maxRetries ->
    Attempts maxRetries baseDelay random (S k) (S n) t r ->
    Attempts maxRetries baseDelay random k n
      (Invoke k :: Settle k (Some (ThrowError e))
       :: Warn k (backoff baseDelay k (random n))
       :: Sleep (backoff baseDelay k (random n)) :: t) r
| attempts_no_message k n :
    k < maxRetries ->
    Attempts maxRetries baseDelay random k n
      [Invoke k; Settle k (Some ThrowUndefined)] (Some (ThrowError noMessage)).

Definition thrown {A} (c : Completion A) : option JsThrow :=
  match c with Returned _ => None | Thrown e => Some e end.

(** The environment after [k] invocations of [requestFn] in a row, each one
    started on the environment that the one before has left. *)
Fixpoint applied {St A} (requestFn : M St A) (k : nat) (s : St) : St :=
  match k with
  | O => s
  | S k' => snd (requestFn (applied requestFn k' s))
  end.

(** What the [k]-th of these invocations settles with. *)
Definition settled {St A} (requestFn : M St A) (k : nat) (s : St) : Completion A :=
  fst (requestFn (applied requestFn (k - 1) s)).

End RetryShape.
Module RetryScenario.
Import Js World.
Local Open Scope string_scope.

(** An error with [status] 404, as an HTTP client library would throw it, and
    a validation error. *)
Definition notFound : JsError :=
  {| e_code := None; e_status := Some 404%N; e_name := Some "Error";
     e_message := "Not Found" |}.



(** An operation that rejects with [e] whenever it is invoked. *)
Definition alwaysFails (e : JsError) : M unit unit :=
  fun s => (Thrown (ThrowError e), s).

(** A world in which [Math.random()] is always 0.5. *)
Definition quiet : World unit :=
  {| env := tt; random := fun _ => (1 # 2)%Q; draws := 0; trace := [] |}.

End RetryScenario.

Module Hoare.
Import Js.

(** A computation that, when it throws, throws an error object. *)
Definition OnlyErrors {S A} (c : M S A) : Prop :=
  forall s e s', c s = (Thrown e, s') -> exists err, e = ThrowError err.

(** A computation that always returns. *)
Definition Total {S A} (c : M S A) : Prop :=
  forall s, exists a s', c s = (Returned a, s').

(** A computation all of whose steps are in the relation [R]. *)
Definition Keeps {S A} (R : S -> S -> Prop) (c : M S A) : Prop :=
  forall s r s', c s = (r, s') -> R s s'.

End Hoare.

Module Frames.
Import Js Environment World Observe.

(** The oracles of the environment are the same. *)
Definition sameOracles (s s' : Env) : Prop :=
  remote s' = remote s /\ stash_fault s' = stash_fault s.

(** The catalog and the GraphQL log are the same: what the container client
    leaves alone. *)
Definition sameCatalog (s s' : Env) : Prop :=
  catalog s' = catalog s /\ stash_log s' = stash_log s.

(** What a pipeline does to the world: the oracles stay, [Math.random]
    stays, and the trace grows by events that are no item steps. *)
Definition pipelineStep (w w' : World Env) : Prop :=
  sameOracles (env w) (env w') /\ random w' = random w /\
  exists t, trace w' = trace w ++ t /\ steps t = [].

End Frames.

Module Pipeline.
Import Js Environment World BatchProcessor.

(** The request that [processItem] wraps in the retry loop. *)
Definition remoteCall (props : Props) (itemId : ItemId) (type : ItemType)
  : M Env NSFWTaggerClient.ProcessResponse :=
  match type with
  | scenes =>
      NSFWTaggerClient.processScene (nsfwClient props) itemId
        {| frame_interval := Some (orN (set_frame_interval (settings props)) 5);
           max_frames := Some (orN (set_max_frames (settings props)) 50);
           shot_detection :=
             Some (match set_shot_detection (settings props) with
                   | Some false => false
                   | _ => true
                   end) |}
  | images =>
      NSFWTaggerClient.processImage (nsfwClient props) itemId
        {| quality := Some (orString (set_quality (settings props)) "high") |}
  end.

(** The world after the one invocation that the retry loop of [processItem]
    makes. *)
Definition afterCall (w : World Env) (s : Env) : World Env :=
  {| env := s; random := random w; draws := draws w;
     trace := trace w ++ [Invoke 1; Settle 1 None] |}.

End Pipeline.

Module Chunks.

(** A static partition into chunks of [b]: every chunk but the last has
    exactly [b] elements, the last between 1 and [b]. *)
Fixpoint chunked {A} (b : nat) (bs : list (list A)) : Prop :=
  match bs with
  | [] => True
  | c :: rest =>
      match rest with
      | [] => 1 <= List.length c <= b
      | _ => List.length c = b
      end /\ chunked b rest
  end.

End Chunks.

Module Dispatch.
Import Js Environment World Observe Frames BatchProcessor.

(** What an interface event does to the component in its world: the item
    lists stay, the oracles stay, the trace grows by events that are no item
    steps. *)
Definition uiStep (a a' : App) : Prop :=
  selectedItems (comp a') = selectedItems (comp a) /\
  type (comp a') = type (comp a) /\
  results (comp a') = results (comp a) /\
  errors (comp a') = errors (comp a) /\
  pipelineStep (world a) (world a').

(** The three counters of the progress. *)
Definition counts (c : Component) : nat * nat * nat :=
  (total (progress c), completed (progress c), failed (progress c)).

(** The state that [cancelProcessing] leaves. *)
Definition isCancelled (c : Component) : Prop :=
  counts c = (0, 0, 0) /\ status (progress c) = "cancelled"%string /\
  processingInterval c = false.

(** The precondition checks of [startProcessing] let the run start. *)
Definition connectionValid (props : Props) (a : App) : bool :=
  match fst (NSFWTaggerClient.validateConnection (nsfwClient props) (env (world a))) with
  | Returned v => NSFWTaggerClient.valid v
  | Thrown _ => false
  end.

(** [const { concurrency = 4 } = this.props.settings] *)
Definition batchSize (props : Props) : nat :=
  match concurrency (settings props) with Some c => c | None => 4 end.

End Dispatch.

Module Scenario.
Import Js Environment World BatchProcessor.
Local Open Scope string_scope.

(** The analysis result that the container returns in the scenarios: two
    tags and one marker, one of whose tag names does not resolve. *)
Definition analysis : ProcessResult :=
  {| r_tags := ["a"; "b"];
     r_markers := [ {| mk_title := "m"; mk_seconds := 3%Q; mk_tags := Some ["a"; "zz"] |} ] |}.

(** A container that answers HTTP 500 to every processing request for item
    "3" and 200 to everything else. *)
Definition failsOnThree (n : nat) (req : RemoteReq) : Response :=
  match body req with
  | Some (ScenePayload "3" _ _ _) => HttpResponse 500 "Internal Server Error" analysis
  | _ => HttpResponse 200 "OK" analysis
  end.

Definition emptyCatalog : Catalog :=
  {| tags := []; next_id := 1%N; scene_tags := []; image_tags := []; markers := [] |}.

Definition env0 : Env :=
  {| remote := failsOnThree; remote_log := []; stash_fault := fun _ => None;
     stash_log := []; catalog := emptyCatalog |}.

Definition world0 : World Env :=
  {| env := env0; random := fun _ => (1 # 2)%Q; draws := 0; trace := [] |}.

(** Five scenes selected, nothing processed yet. *)
Definition fiveScenes : Component :=
  {| selectedItems := ["1"; "2"; "3"; "4"; "5"]; type := scenes; processing := false;
     progress := {| current := 0; total := 5; completed := 0; failed := 0; status := "idle" |};
     results := []; errors := []; processingInterval := false |}.

Definition app0 : App := {| comp := fiveScenes; world := world0; history := [] |}.

(** Two items at a time. *)
Definition props0 : Props :=
  {| settings := {| concurrency := Some 2; set_frame_interval := None;
                    set_max_frames := None; set_shot_detection := None;
                    set_quality := None |};
     nsfwClient := NSFWTaggerClient.new "localhost" 8000 300 |}.

(** Nobody touches the interface; the cancel button is pressed while the
    first batch is in flight. *)
Definition hands_off : nat -> list UiEvent := fun _ => [].

Definition cancel_early : nat -> list UiEvent :=
  fun k => match k with 0 => [Tick; CancelClick; Tick] | _ => [] end.

(** The component at the end of a run, when the run ends. *)
Definition finalOf (r : Run) : option App :=
  match r with Done a => Some a | _ => None end.

Definition finalTrace (r : Run) : list Event :=
  match r with Done a => trace (world a) | _ => [] end.

End Scenario.

Module CatalogSpec.
Import Js Environment.

(** No GraphQL request fails. *)
Definition noFaults (s : Env) : Prop := forall n, stash_fault s n = None.

(** The environment after a GraphQL request that left the catalog as [c]. *)
Definition logged (req : CatalogReq) (s : Env) (c : Catalog) : Env :=
  {| remote := remote s; remote_log := remote_log s; stash_fault := stash_fault s;
     stash_log := stash_log s ++ [req]; catalog := c |}.

(** The tag of a name, as [findTag] finds it. *)
Definition findTag (ts : list Tag) (name : string) : option Tag :=
  find (fun t => String.eqb (tag_name t) name) ts.

(** The ids that the names of a marker resolve to; names that do not resolve
    are skipped. *)
Fixpoint markerIds (ts : list Tag) (names : list string) : list TagId :=
  match names with
  | [] => []
  | n :: rest =>
      match findTag ts n with
      | Some t => tag_id t :: markerIds ts rest
      | None => markerIds ts rest
      end
  end.

(** The marker rows that the markers of a result become for a scene. *)
Definition rowsOf (scene : ItemId) (ts : list Tag) (ms : list Marker) : list MarkerRow :=
  map (fun m => {| row_scene := scene; row_title := mk_title m;
                   row_seconds := mk_seconds m;
                   row_tag_ids := markerIds ts (match mk_tags m with
                                                | Some l => l
                                                | None => []
                                                end) |}) ms.

(** The marker rows after [row] was submitted to a catalog that holds
    [rows]: a marker of the same scene, title and offset is not stored a
    second time. *)
Definition submit (rows : list MarkerRow) (row : MarkerRow) : list MarkerRow :=
  match find (sameMarker (row_scene row) (row_title row) (row_seconds row)) rows with
  | Some _ => rows
  | None => rows ++ [row]
  end.

Definition submitAll (rows new : list MarkerRow) : list MarkerRow :=
  fold_left submit new rows.

(** The requests of the tag step for the tag names of a result: for each
    name, in order, one lookup, followed by at most one creation of that
    name. *)
Inductive TagRequests : list string -> list CatalogReq -> Prop :=
| tagRequests_nil : TagRequests [] []
| tagRequests_found n names l :
    TagRequests names l -> TagRequests (n :: names) (FindTag n :: l)
| tagRequests_created n names l :
    TagRequests names l -> TagRequests (n :: names) (FindTag n :: CreateTag n :: l).

(** The requests of the marker step for markers of a scene: for each marker,
    in order, one lookup per tag name of the marker and then one creation of
    the marker. *)
Inductive MarkerRequests (scene : ItemId) : list Marker -> list CatalogReq -> Prop :=
| markerRequests_nil : MarkerRequests scene [] []
| markerRequests_cons m ms ids l :
    MarkerRequests scene ms l ->
    MarkerRequests scene (m :: ms)
      (map FindTag (match mk_tags m with Some names => names | None => [] end)
       ++ CreateSceneMarker scene (mk_title m) (mk_seconds m) ids :: l).

(** The catalog apart from its markers. *)
Definition tagsKept (s s' : Env) : Prop :=
  tags (catalog s') = tags (catalog s) /\
  next_id (catalog s') = next_id (catalog s) /\
  scene_tags (catalog s') = scene_tags (catalog s) /\
  image_tags (catalog s') = image_tags (catalog s).

End CatalogSpec.

Module ApplierScenario.
Import Js Environment World BatchProcessor.
Local Open Scope string_scope.

(** The eighth GraphQL request fails: with the analysis of [Scenario] applied
    to an empty catalog that is the [createSceneMarker] mutation, after two
    tag creations, the bulk update and the two lookups of the marker's tag
    names. *)
Definition markerFails (n : nat) : option JsError :=
  if (n =? 7)%nat then Some (Error "GraphQL errors: marker rejected") else None.

Definition faultyEnv : Env :=
  {| remote := Scenario.failsOnThree; remote_log := []; stash_fault := markerFails;
     stash_log := []; catalog := Scenario.emptyCatalog |}.



(** One scene selected, in the faulty environment. *)
Definition oneScene : App :=
  {| comp := {| selectedItems := ["1"]; type := scenes; processing := false;
                progress := {| current := 0; total := 1; completed := 0; failed := 0;
                               status := "idle" |};
                results := []; errors := []; processingInterval := false |};
     world := {| env := faultyEnv; random := fun _ => (1 # 2)%Q; draws := 0; trace := [] |};
     history := [] |}.

End ApplierScenario.

Module Partial.
Import Js Environment World Observe BatchProcessor CatalogSpec.

(** The container answers HTTP 500, with status text [txt], to every
    processing request for [bad], and an ok response to every processing
    request for another item; the catalog answers every request. *)
Definition failsOnlyOn (bad : ItemId) (txt : string) (s : Env) : Prop :=
  (forall n req, payloadItem req = Some bad ->
                 exists d, remote s n req = HttpResponse 500 txt d) /\
  (forall n req i, payloadItem req = Some i -> i <> bad ->
                   exists st tx d, remote s n req = HttpResponse st tx d /\ ok st = true) /\
  noFaults s.

(** The outcome of an item then: the failure with the HTTP message for
    [bad], a success for the others. *)
Definition expected (bad : ItemId) (txt : string) (i : ItemId) (r : Outcome) : Prop :=
  (i = bad -> r = Failure bad ("HTTP 500: " ++ txt)%string) /\
  (i <> bad -> success r = true).

(** A container that answers HTTP 500 to every processing request for
    [bad] and 200 to everything else, and five scenes in front of it. *)
Definition failsOn (bad : ItemId) (n : nat) (req : RemoteReq) : Response :=
  match payloadItem req with
  | Some i => if String.eqb i bad
              then HttpResponse 500 "Internal Server Error"%string Scenario.analysis
              else HttpResponse 200 "OK"%string Scenario.analysis
  | None => HttpResponse 200 "OK"%string Scenario.analysis
  end.

Definition env3 : Env :=
  {| remote := failsOn "3"%string; remote_log := []; stash_fault := fun _ => None;
     stash_log := []; catalog := Scenario.emptyCatalog |}.

Definition app3 : App :=
  {| comp := Scenario.fiveScenes;
     world := {| env := env3; random := fun _ => (1 # 2)%Q; draws := 0; trace := [] |};
     history := [] |}.

End Partial.

(* ===================================================================== *)
(** * More of the sources *)
(* ===================================================================== *)

(** ** ErrorHandler: messages and responses *)

Module ErrorMessages.
Import Js.
Local Open Scope string_scope.

(** [error.code === c] and [error.status === n] *)
Definition codeIs (error : JsError) (c : string) : bool :=
  match e_code error with Some x => String.eqb x c | None => false end.

Definition statusIs (error : JsError) (n : N) : bool :=
  match e_status error with Some x => N.eqb x n | None => false end.

(** [getErrorMessage(error)]; [None] is a falsy [error]. *)
Definition getErrorMessage (error : option JsError) : string :=
  match error with
  | None => "Unknown error occurred"
  | Some error =>
      if codeIs error "NETWORK_ERROR" then
        "Network connection failed. Please check your internet connection and try again."
      else if codeIs error "TIMEOUT" then
        "Request timed out. The server may be busy or unreachable."
      else if codeIs error "CONNECTION_REFUSED" then
        "Connection refused. Please check if the service is running."
      else if match e_status error with Some n => (500 <=? n)%N | None => false end then
        "Server error. Please try again later."
      else if statusIs error 404 then
        "Resource not found. Please check the URL and try again."
      else if statusIs error 401 then
        "Authentication failed. Please check your credentials."
      else if statusIs error 403 then
        "Access forbidden. You do not have permission to access this resource."
      else if statusIs error 429 then
        "Too many requests. Please wait and try again later."
      else if String.eqb (e_message error) "" then "An unexpected error occurred"
      else e_message error
  end.

(** The [details] of an error response, as far as the handlers below build
    them. *)
Inductive Details :=
| NoDetails                                   (* null *)
| ValidationDetails (errors : list string).   (* { errors } *)

(** [{ success: false, error: { message, code, details, context,
    timestamp } }] *)
Record ErrorResponse := mkErrorResponse {
  er_message : string;
  er_code : string;
  er_details : Details;
  er_context : string;
  er_timestamp : string
}.

(** [createErrorResponse(message, code, details, context)]; [now] is
    [new Date().toISOString()]. *)
Definition createErrorResponse (now : string) (message code : string)
    (details : Details) (context : string) : ErrorResponse :=
  {| er_message := message; er_code := code; er_details := details;
     er_context := context; er_timestamp := now |}.

(** The error of the engine when the call stack is exhausted. *)
Definition RangeError : JsError :=
  {| e_code := None; e_status := None; e_name := Some "RangeError";
     e_message := "Maximum call stack size exceeded" |}.

(** [errors.map(e => e.message).join(', ')] *)
Definition join (sep : string) (l : list string) : string := String.concat sep l.

(** [handleValidationError(errors, context)].  The class body declares this
    method twice; the second declaration (the one at the end of the class)
    replaces the first, so [this.handleValidationError(errors, context)] in
    its first statement is a call of itself.  [stack] is the number of frames
    the call stack has room for: a call that finds no room throws the
    [RangeError] of the engine.  [errors] are the messages of the error
    objects. *)
Fixpoint handleValidationError (stack : nat) (now : string) (errors : list string)
    (context : string) : Completion ErrorResponse :=
  match stack with
  | O => Thrown (ThrowError RangeError)
  | Datatypes.S stack' =>
      match handleValidationError stack' now errors context with
      | Thrown e => Thrown e
      | Returned errorResponse =>
          let message := "Validation failed: " ++ join ", " errors in
          Returned (createErrorResponse now message "VALIDATION_ERROR"
                      (ValidationDetails errors) context)
      end
  end.

End ErrorMessages.

Module Text.

(** The character [c] does not occur in [s]. *)
Fixpoint avoids (c : ascii) (s : string) : Prop :=
  match s with
  | EmptyString => True
  | String x s' => x <> c /\ avoids c s'
  end.

End Text.

Module Answers.
Import Js Environment.
Local Open Scope string_scope.

(** Whether [request] resolves on what [fetch] gives: the response is ok
    ([response.ok]) and its body is read.  A rejected [fetch] has no
    response, and a body that cannot be read makes [request] reject. *)
Definition answersOk (r : Response) : bool :=
  match r with
  | HttpResponse st _ _ => ok st
  | BodyFails _ _ _ => false
  | FetchFails _ => false
  end.

(** The requests of the methods of the container client. *)
Definition healthReq : RemoteReq := {| path := "/health"; method := "GET"; body := None |}.
Definition lmstudioReq : RemoteReq :=
  {| path := "/test/lmstudio"; method := "GET"; body := None |}.
Definition cancelReq : RemoteReq := {| path := "/cancel"; method := "POST"; body := None |}.

Definition sceneReq (sceneId : ItemId) (options : SceneOptions) : RemoteReq :=
  {| path := "/process/scene"; method := "POST";
     body := Some (ScenePayload sceneId
                     (NSFWTaggerClient.optionOr (frame_interval options) 5%N)
                     (NSFWTaggerClient.optionOr (max_frames options) 50%N)
                     (NSFWTaggerClient.optionOr (shot_detection options) true)) |}.

Definition imageReq (imageId : ItemId) (options : ImageOptions) : RemoteReq :=
  {| path := "/process/image"; method := "POST";
     body := Some (ImagePayload imageId
                     (NSFWTaggerClient.optionOr (quality options) "high")) |}.

End Answers.

Module ContainerScenario.
Import Js Environment World.
Local Open Scope string_scope.

(** A gateway that times out: HTTP 504 with the usual status text. *)
Definition gatewayTimeout (n : nat) (req : RemoteReq) : Response :=
  HttpResponse 504 "Gateway Timeout" Scenario.analysis.

(** A fetch that the timeout timer aborts. *)
Definition aborted (n : nat) (req : RemoteReq) : Response :=
  FetchFails {| e_code := None; e_status := None; e_name := Some "AbortError";
                e_message := "The operation was aborted." |}.

(** A container that does not answer at all. *)
Definition refused (n : nat) (req : RemoteReq) : Response :=
  FetchFails {| e_code := None; e_status := None; e_name := Some "TypeError";
                e_message := "Failed to fetch" |}.

Definition envOf (r : nat -> RemoteReq -> Response) : Env :=
  {| remote := r; remote_log := []; stash_fault := fun _ => None;
     stash_log := []; catalog := Scenario.emptyCatalog |}.

(** An operation that fails [k] times and then returns [v]; its state counts
    the invocations. *)
Definition failsFirst (k : nat) (e : JsError) (v : nat) : Js.M nat nat :=
  fun n => if (n <? k)%nat then (Thrown (ThrowError e), Datatypes.S n)
           else (Returned v, Datatypes.S n).

Definition fresh : World nat :=
  {| env := 0; random := fun _ => (1 # 4)%Q; draws := 0; trace := [] |}.

End ContainerScenario.

(** ** BatchProcessor: the selection *)

Module Selection.
Import Environment.

(** An item of [this.state.items], as far as the plugin reads it: its id and
    the names of its tags. *)
Record Item := mkItem {
  item_id : ItemId;
  item_tags : list string
}.

(** The part of [this.state] that the selection handlers read and set. *)
Record Listing := mkListing {
  items : list Item;
  selectedItems : list ItemId;
  allSelected : bool
}.

(** [selectedItems.includes(itemId)] *)
Definition isSelected (itemId : ItemId) (selected : list ItemId) : bool :=
  existsb (String.eqb itemId) selected.

(** [handleSelectItem(itemId)] *)
Definition handleSelectItem (itemId : ItemId) (state : Listing) : Listing :=
  let newSelected :=
    if isSelected itemId (selectedItems state)
    then filter (fun id => negb (String.eqb id itemId)) (selectedItems state)
    else selectedItems state ++ [itemId] in
  {| items := items state;
     selectedItems := newSelected;
     allSelected := (List.length newSelected =? List.length (items state))%nat |}.

(** [handleSelectAll()] *)
Definition handleSelectAll (state : Listing) : Listing :=
  let newSelected := if allSelected state then [] else map item_id (items state) in
  {| items := items state;
     selectedItems := newSelected;
     allSelected := negb (allSelected state) |}.

(** What the user does with the list. *)
Inductive Click :=
| ClickItem (itemId : ItemId)   (* the checkbox of an item *)
| ClickAll.                     (* the "select all" checkbox *)

Definition click (state : Listing) (c : Click) : Listing :=
  match c with
  | ClickItem itemId => handleSelectItem itemId state
  | ClickAll => handleSelectAll state
  end.

Definition clicks (cs : list Click) (state : Listing) : Listing :=
  fold_left click cs state.

(** The listing when a list of items has just been loaded:
    [selectedItems: [], allSelected: false]. *)
Definition loaded (l : list Item) : Listing :=
  {| items := l; selectedItems := []; allSelected := false |}.

(** Every click on an item is a click on an item of the list. *)
Fixpoint onListed (ids : list ItemId) (cs : list Click) : Prop :=
  match cs with
  | [] => True
  | ClickItem i :: rest => In i ids /\ onListed ids rest
  | ClickAll :: rest => onListed ids rest
  end.

End Selection.

Module SelectionScenario.
Import Selection.
Local Open Scope string_scope.

Definition three : list Item :=
  [ {| item_id := "1"; item_tags := [] |}; {| item_id := "2"; item_tags := [] |};
    {| item_id := "3"; item_tags := [] |} ].

End SelectionScenario.

(** ** The applier and the catalog: more vocabulary *)

Module CatalogMore.
Import Js Environment BatchProcessor.

(** Every GraphQL request fails. *)
Definition allFaults (s : Env) : Prop := forall n, stash_fault s n <> None.

(** The relation in which the items of a type are tagged. *)
Definition tagsOf (ty : ItemType) (c : Catalog) : list (ItemId * TagId) :=
  match ty with
  | scenes => scene_tags c
  | images => image_tags c
  end.

(** The requests that applying a result to an image may send. *)
Definition imageRequest (r : CatalogReq) : bool :=
  match r with
  | FindTag _ | CreateTag _ | BulkImageUpdate _ _ => true
  | BulkSceneUpdate _ _ | CreateSceneMarker _ _ _ _ => false
  end.

(** A step that leaves markers and scene tags alone and sends such requests
    only. *)
Definition imageStep (s s' : Env) : Prop :=
  markers (catalog s') = markers (catalog s) /\
  scene_tags (catalog s') = scene_tags (catalog s) /\
  exists l, stash_log s' = stash_log s ++ l /\ forallb imageRequest l = true.

(** A catalog that is down. *)
Definition down : Env :=
  {| remote := Scenario.failsOnThree; remote_log := [];
     stash_fault := fun _ => Some (Error "HTTP 503: Service Unavailable");
     stash_log := []; catalog := Scenario.emptyCatalog |}.

(** A catalog that holds the tag "a" and fails the first request it gets. *)
Definition hiccup : Env :=
  {| remote := Scenario.failsOnThree; remote_log := [];
     stash_fault := fun n => if (n =? 0)%nat then Some (Error "HTTP 502: Bad Gateway")
                             else None;
     stash_log := [];
     catalog := {| tags := [ {| tag_id := 1%N; tag_name := "a" |} ]; next_id := 2%N;
                   scene_tags := []; image_tags := []; markers := [] |} |}.

End CatalogMore.

(** ** What a run sends to the container *)

Module Sent.
Import Environment Observe.

(** The items that the processing requests of a log are about, in the order
    of the log; requests that are about no item (health checks, cancels) do
    not count. *)
Definition itemsOf (log : list RemoteReq) : list ItemId :=
  flat_map (fun r => match payloadItem r with Some i => [i] | None => [] end) log.

(** The request log is left as it is. *)
Definition remoteKept (s s' : Env) : Prop := remote_log s' = remote_log s.

End Sent.

(** ** StashClient: the endpoint and the listing queries *)

Module StashQueries.
Import Js Selection.
Local Open Scope string_scope.
Local Open Scope js_scope.

(** [endpoint.replace(/\/$/, '')]: the pattern matches one slash at the end
    of the input. *)
Fixpoint removeTrailingSlash (endpoint : string) : string :=
  match endpoint with
  | EmptyString => EmptyString
  | String c EmptyString => if Ascii.eqb c "/" then EmptyString else endpoint
  | String c rest => String c (removeTrailingSlash rest)
  end.

(** [endpoint.endsWith('/')] *)
Fixpoint endsWithSlash (endpoint : string) : bool :=
  match endpoint with
  | EmptyString => false
  | String c EmptyString => Ascii.eqb c "/"
  | String _ rest => endsWithSlash rest
  end.

(** The URL that [graphql] posts to, for a client made by
    [new StashClient(endpoint)]: [`${this.endpoint}/graphql`]. *)
Definition graphqlUrl (endpoint : string) : string :=
  removeTrailingSlash endpoint ++ "/graphql".

(** [name.toLowerCase()], for a name in ASCII: the letters A to Z become a
    to z.  (Outside ASCII the lower-case form of a character is not one of
    the ASCII characters of the prefixes tested below, so the test gives the
    same there.) *)
Definition lowerChar (c : ascii) : ascii :=
  let n := N_of_ascii c in
  if ((65 <=? n) && (n <=? 90))%N then ascii_of_N (n + 32) else c.

Fixpoint toLowerCase (s : string) : string :=
  match s with
  | EmptyString => EmptyString
  | String c s' => String (lowerChar c) (toLowerCase s')
  end.

(** [s.startsWith(p)] *)
Definition startsWith (s p : string) : bool := String.prefix p s.

(** The test of [getUntaggedScenes] and [getUntaggedImages] on a tag. *)
Definition isAiTag (name : string) : bool :=
  startsWith (toLowerCase name) "ai_"
  || startsWith (toLowerCase name) "generated_"
  || startsWith (toLowerCase name) "nsfw_".

(** The [filter] variable of a listing query. *)
Record QuerySpec := mkQuerySpec {
  per_page : N;
  page : N;
  q : string
}.

(** [{ count, scenes }] or [{ count, images }] *)
Record Found := mkFound {
  count : nat;
  found : list Item
}.

Section Listing.
Context {S : Type}.

(** [this.graphql(query, variables)] for the query [queryScenes] (or
    [queryImages]): what the catalog finds for a filter. *)
Variable queryItems : QuerySpec -> M S Found.

(** [getAllScenes(limit, page)] and [getAllImages(limit, page)], which
    differ in the name of the query only. *)
Definition getAll (limit page : N) : M S Found :=
  result <- queryItems {| per_page := limit; page := page; q := "" |} ;;
  ret {| count := count result; found := found result |}.

(** [getUntaggedScenes(limit, page)] and [getUntaggedImages(limit, page)] *)
Definition getUntagged (limit page : N) : M S Found :=
  all <- getAll limit page ;;
  let untagged := filter (fun item => negb (existsb isAiTag (item_tags item))) (found all) in
  ret {| count := List.length untagged; found := untagged |}.

End Listing.

(** A page of three scenes out of a library of 250, two of which carry a
    tag of the plugin. *)
Definition somePage (f : QuerySpec) : M unit Found :=
  ret {| count := 250;
         found := [ {| item_id := "1"; item_tags := ["outdoor"; "AI_beach"] |};
                    {| item_id := "2"; item_tags := ["airport"] |};
                    {| item_id := "3"; item_tags := ["Nsfw_x"] |} ] |}.

End StashQueries.

(* ===================================================================== *)
(** * Properties of the number model *)
(* ===================================================================== *)

Module JsNumberFacts.
Import JsNumber.
Local Open Scope Q_scope.

Lemma two_neq0 : ~ 2 == 0.
Proof. discriminate. Qed.

Lemma pow2_pos (e : Z) : 0 < 2 ^ e.
Proof. apply Qpower_0_lt. reflexivity. Qed.

Lemma pow2_succ (e : Z) : 2 ^ (e + 1) == 2 * 2 ^ e.
Proof. rewrite Qpower_plus by apply two_neq0. simpl (2 ^ 1). ring. Qed.

Lemma pow2_le (a b : Z) : (a <= b)%Z -> 2 ^ a <= 2 ^ b.
Proof. intros H. apply Qpower_le_compat_l; [exact H | discriminate]. Qed.

Lemma pow2_Z (a : Z) : (0 <= a)%Z -> inject_Z (2 ^ a) == 2 ^ a.
Proof. intros H. apply (Zpower_Qpower 2 a H). Qed.

Lemma ilog2_spec (q : Q) : 0 < q -> 2 ^ ilog2 q <= q /\ q < 2 ^ (ilog2 q + 1).
Proof.
  intros Hq. destruct q as [n d].
  assert (Hn : (0 < n)%Z) by (unfold Qlt in Hq; simpl in Hq; lia).
  unfold ilog2. cbn [Qnum Qden].
  set (a := Z.log2 n). set (b := Z.log2 (Zpos d)).
  destruct (Z.log2_spec n Hn) as [Ha1 Ha2]. fold a in Ha1, Ha2.
  destruct (Z.log2_spec (Zpos d) (Pos2Z.is_pos d)) as [Hb1 Hb2]. fold b in Hb1, Hb2.
  assert (Ha0 : (0 <= a)%Z) by apply Z.log2_nonneg.
  assert (Hb0 : (0 <= b)%Z) by apply Z.log2_nonneg.
  assert (HA1 : 2 ^ a <= inject_Z n).
  { rewrite <- pow2_Z by exact Ha0. rewrite <- Zle_Qle. exact Ha1. }
  assert (HA2 : inject_Z n < 2 * 2 ^ a).
  { rewrite <- pow2_succ, <- pow2_Z by lia. rewrite <- Zlt_Qlt. exact Ha2. }
  assert (HB1 : 2 ^ b <= inject_Z (Zpos d)).
  { rewrite <- pow2_Z by exact Hb0. rewrite <- Zle_Qle. exact Hb1. }
  assert (HB2 : inject_Z (Zpos d) < 2 * 2 ^ b).
  { rewrite <- pow2_succ, <- pow2_Z by lia. rewrite <- Zlt_Qlt. exact Hb2. }
  assert (HD : 0 < inject_Z (Zpos d)) by reflexivity.
  assert (Hq' : n # d == inject_Z n / inject_Z (Zpos d)) by apply Qmake_Qdiv.
  assert (HPa := pow2_pos a). assert (HPb := pow2_pos b).
  assert (Hk : 2 ^ (a - b) == 2 ^ a / 2 ^ b) by (apply Qpower_minus, two_neq0).
  assert (Hup : n # d < 2 * 2 ^ (a - b)).
  { rewrite Hq', Hk. apply Qlt_shift_div_r; [exact HD|].
    apply Qlt_le_trans with (2 * 2 ^ a); [exact HA2|].
    setoid_replace (2 * (2 ^ a / 2 ^ b) * inject_Z (Z.pos d))
      with (2 * 2 ^ a * (inject_Z (Z.pos d) / 2 ^ b))
      by (field; intro E; rewrite E in HPb; discriminate).
    rewrite <- (Qmult_1_r (2 * 2 ^ a)) at 1.
    apply Qmult_le_compat_nonneg.
    - split; [|apply Qle_refl]. apply Qlt_le_weak.
      apply Qlt_le_trans with (inject_Z n); [|apply Qlt_le_weak, HA2].
      unfold Qlt; simpl; lia.
    - split; [discriminate|]. apply Qle_shift_div_l; [exact HPb|].
      rewrite Qmult_1_l. exact HB1. }
  assert (Hlo : 2 ^ (a - b) <= 2 * (n # d)).
  { rewrite Hq', Hk. apply Qle_shift_div_r; [exact HPb|].
    setoid_replace (2 * (inject_Z n / inject_Z (Z.pos d)) * 2 ^ b)
      with (inject_Z n * ((2 * 2 ^ b) / inject_Z (Z.pos d)))
      by (field; intro E; rewrite E in HD; discriminate).
    rewrite <- (Qmult_1_r (2 ^ a)).
    apply Qmult_le_compat_nonneg.
    - split; [apply Qlt_le_weak, HPa | exact HA1].
    - split; [discriminate|]. apply Qle_shift_div_l; [exact HD|].
      rewrite Qmult_1_l. apply Qlt_le_weak, HB2. }
  destruct (Qle_bool (2 ^ (a - b)) (n # d)) eqn:E.
  - apply Qle_bool_iff in E. split; [exact E|]. rewrite pow2_succ. exact Hup.
  - assert (E' : n # d < 2 ^ (a - b)).
    { apply Qnot_le_lt. intro H. apply Qle_bool_iff in H. congruence. }
    replace (a - b - 1 + 1)%Z with (a - b)%Z by lia. split; [|exact E'].
    apply (Qmult_le_l _ _ 2); [reflexivity|].
    rewrite <- pow2_succ. replace (a - b - 1 + 1)%Z with (a - b)%Z by lia.
    exact Hlo.
Qed.

Lemma ilog2_le (x y : Q) : 0 < x -> x <= y -> (ilog2 x <= ilog2 y)%Z.
Proof.
  intros Hx Hxy.
  destruct (ilog2_spec x Hx) as [H1 _].
  destruct (ilog2_spec y (Qlt_le_trans _ _ _ Hx Hxy)) as [_ H2].
  assert (H : 2 ^ ilog2 x < 2 ^ (ilog2 y + 1)).
  { eapply Qle_lt_trans; [exact H1|]. eapply Qle_lt_trans; [exact Hxy|exact H2]. }
  apply Qpower_lt_compat_l_inv in H; [lia | reflexivity].
Qed.

Lemma roundTiesToEven_bounds (x : Q) :
  (Qfloor x <= roundTiesToEven x <= Qfloor x + 1)%Z.
Proof.
  unfold roundTiesToEven.
  destruct (Qcompare (x - inject_Z (Qfloor x)) (1 # 2)); [destruct (Z.even (Qfloor x))| |]; lia.
Qed.

Lemma roundTiesToEven_Z (z : Z) : roundTiesToEven (inject_Z z) = z.
Proof.
  unfold roundTiesToEven. rewrite Qfloor_Z.
  assert (H : inject_Z z - inject_Z z < 1 # 2).
  { setoid_replace (inject_Z z - inject_Z z) with 0 by ring. reflexivity. }
  rewrite (proj1 (Qlt_alt _ _) H). reflexivity.
Qed.

Lemma roundTiesToEven_le (x y : Q) :
  x <= y -> (roundTiesToEven x <= roundTiesToEven y)%Z.
Proof.
  intros Hxy.
  assert (Hf := Qfloor_resp_le x y Hxy).
  destruct (Z.eq_dec (Qfloor x) (Qfloor y)) as [E | NE].
  - assert (Hr : x - inject_Z (Qfloor x) <= y - inject_Z (Qfloor y)).
    { rewrite E. apply Qplus_le_l. exact Hxy. }
    unfold roundTiesToEven. rewrite <- E in *.
    destruct (Qcompare (x - inject_Z (Qfloor x)) (1 # 2)) eqn:Cx;
      destruct (Qcompare (y - inject_Z (Qfloor x)) (1 # 2)) eqn:Cy;
      try (destruct (Z.even (Qfloor x)); lia); try lia; exfalso.
    + apply Qeq_alt in Cx. apply Qlt_alt in Cy. rewrite Cx in Hr.
      apply (Qlt_irrefl (1 # 2)). eapply Qle_lt_trans; eassumption.
    + apply Qgt_alt in Cx. apply Qeq_alt in Cy. rewrite Cy in Hr.
      apply (Qlt_irrefl (1 # 2)). eapply Qlt_le_trans; eassumption.
    + apply Qgt_alt in Cx. apply Qlt_alt in Cy.
      apply (Qlt_irrefl (1 # 2)). eapply Qlt_trans; [exact Cx|].
      eapply Qle_lt_trans; eassumption.
  - assert (H1 := roundTiesToEven_bounds x). assert (H2 := roundTiesToEven_bounds y). lia.
Qed.

Lemma exponent_le (x y : Q) : 0 < x -> x <= y -> (exponent x <= exponent y)%Z.
Proof. intros Hx Hxy. unfold exponent. assert (H := ilog2_le x y Hx Hxy). lia. Qed.

Lemma round_pos_nonneg (x : Q) : 0 <= x -> 0 <= round_pos x.
Proof.
  intros Hx. unfold round_pos.
  apply Qmult_le_0_compat; [|apply Qlt_le_weak, pow2_pos].
  change 0 with (inject_Z 0). rewrite <- Zle_Qle.
  rewrite <- (roundTiesToEven_Z 0). apply roundTiesToEven_le.
  apply Qle_shift_div_l; [apply pow2_pos|]. rewrite Qmult_0_l. exact Hx.
Qed.

Lemma round_pos_le (x y : Q) : 0 < x -> x <= y -> round_pos x <= round_pos y.
Proof.
  intros Hx Hxy.
  assert (Hy : 0 < y) by (eapply Qlt_le_trans; eassumption).
  assert (He := exponent_le x y Hx Hxy).
  unfold round_pos.
  destruct (Z.eq_dec (exponent x) (exponent y)) as [E | NE].
  - rewrite E. apply Qmult_le_compat_r; [|apply Qlt_le_weak, pow2_pos].
    rewrite <- Zle_Qle. apply roundTiesToEven_le.
    apply Qmult_le_compat_r; [exact Hxy|]. apply Qinv_le_0_compat, Qlt_le_weak, pow2_pos.
  - assert (Hlt : (exponent x < exponent y)%Z) by lia. clear NE He.
    destruct (ilog2_spec x Hx) as [_ Hx2]. destruct (ilog2_spec y Hy) as [Hy1 _].
    apply Qle_trans with (2 ^ (53 + exponent x)).
    + rewrite Qpower_plus by apply two_neq0.
      apply Qmult_le_compat_r; [|apply Qlt_le_weak, pow2_pos].
      rewrite <- (pow2_Z 53) by lia. rewrite <- Zle_Qle.
      rewrite <- (roundTiesToEven_Z (2 ^ 53)). apply roundTiesToEven_le.
      apply Qle_shift_div_r; [apply pow2_pos|].
      rewrite (pow2_Z 53) by lia. rewrite <- Qpower_plus by apply two_neq0.
      apply Qlt_le_weak. eapply Qlt_le_trans; [exact Hx2|].
      apply pow2_le. unfold exponent. lia.
    + apply Qle_trans with (2 ^ (52 + exponent y)); [apply pow2_le; lia|].
      rewrite Qpower_plus by apply two_neq0.
      apply Qmult_le_compat_r; [|apply Qlt_le_weak, pow2_pos].
      rewrite <- (pow2_Z 52) by lia. rewrite <- Zle_Qle.
      rewrite <- (roundTiesToEven_Z (2 ^ 52)) at 1. apply roundTiesToEven_le.
      apply Qle_shift_div_l; [apply pow2_pos|].
      rewrite (pow2_Z 52) by lia. rewrite <- Qpower_plus by apply two_neq0.
      eapply Qle_trans; [|exact Hy1].
      apply pow2_le. unfold exponent in *. lia.
Qed.

Lemma rnd_le (x y : Q) : x <= y -> rnd x <= rnd y.
Proof.
  intros Hxy. unfold rnd.
  destruct x as [nx dx], y as [ny dy]. cbn [Qnum].
  assert (Hz : (nx * Zpos dy <= ny * Zpos dx)%Z) by exact Hxy.
  destruct nx as [|px|px], ny as [|py|py]; try (exfalso; lia).
  - apply Qle_refl.
  - apply round_pos_nonneg. discriminate.
  - apply round_pos_le; [reflexivity | exact Hxy].
  - apply (Qopp_le_compat 0). apply round_pos_nonneg. discriminate.
  - apply Qle_trans with 0.
    + apply (Qopp_le_compat 0). apply round_pos_nonneg. discriminate.
    + apply round_pos_nonneg. discriminate.
  - apply Qopp_le_compat. apply round_pos_le; [reflexivity|].
    apply Qopp_le_compat in Hxy. exact Hxy.
Qed.

#[global] Instance rnd_Proper : Proper (Qeq ==> Qeq) rnd.
Proof.
  intros x y E. apply Qle_antisym; apply rnd_le; rewrite E; apply Qle_refl.
Qed.


Lemma roundTiesToEven_Proper (x y : Q) : x == y -> roundTiesToEven x = roundTiesToEven y.
Proof.
  intros E. apply Z.le_antisymm; apply roundTiesToEven_le; rewrite E; apply Qle_refl.
Qed.

Lemma rnd_pos (x : Q) : 0 < x -> rnd x = round_pos x.
Proof.
  intros H. unfold rnd. destruct x as [n d]. cbn [Qnum].
  destruct n; [discriminate H | reflexivity | discriminate H].
Qed.

Lemma rnd_neg (x : Q) : x < 0 -> rnd x = - round_pos (- x).
Proof.
  intros H. unfold rnd. destruct x as [n d]. cbn [Qnum].
  destruct n; [discriminate H | discriminate H | reflexivity].
Qed.

(** The significand of a rounded positive number has at most 53 bits, up to
    the carry into the next binade. *)
Lemma significand_bound (x : Q) :
  0 < x -> (0 <= roundTiesToEven (x / 2 ^ exponent x) <= 2 ^ 53)%Z.
Proof.
  intros Hx. destruct (ilog2_spec x Hx) as [_ Hx2]. split.
  - rewrite <- (roundTiesToEven_Z 0). apply roundTiesToEven_le.
    apply Qle_shift_div_l; [apply pow2_pos|]. rewrite Qmult_0_l. apply Qlt_le_weak, Hx.
  - rewrite <- (roundTiesToEven_Z (2 ^ 53)). apply roundTiesToEven_le.
    apply Qle_shift_div_r; [apply pow2_pos|].
    rewrite (pow2_Z 53) by lia. rewrite <- Qpower_plus by apply two_neq0.
    apply Qlt_le_weak. eapply Qlt_le_trans; [exact Hx2|].
    apply pow2_le. unfold exponent. lia.
Qed.

Lemma exponent_min (x : Q) : (-1074 <= exponent x)%Z.
Proof. unfold exponent. lia. Qed.

(** A number [m * 2^e] with at most 53 significant bits is a double: rounding
    leaves it as it is. *)
Lemma round_pos_representable (m e : Z) :
  (0 < m <= 2 ^ 53)%Z -> (-1074 <= e)%Z ->
  round_pos (inject_Z m * 2 ^ e) == inject_Z m * 2 ^ e.
Proof.
  intros Hm He. set (y := inject_Z m * 2 ^ e).
  assert (Hy : 0 < y).
  { unfold y. apply Qmult_lt_0_compat; [|apply pow2_pos].
    change 0 with (inject_Z 0). rewrite <- Zlt_Qlt. lia. }
  destruct (ilog2_spec y Hy) as [Hy1 Hy2].
  assert (Hint : exists z : Z, y / 2 ^ exponent y == inject_Z z).
  { destruct (Z.eq_dec m (2 ^ 53)) as [E | NE].
    - assert (Ey : y == 2 ^ (53 + e)).
      { unfold y. rewrite E, (pow2_Z 53) by lia. rewrite Qpower_plus by apply two_neq0.
        reflexivity. }
      assert (Hk : ilog2 y = (53 + e)%Z).
      { assert (H1 : 2 ^ ilog2 y <= 2 ^ (53 + e)) by (rewrite <- Ey; exact Hy1).
        assert (H2 : 2 ^ (53 + e) < 2 ^ (ilog2 y + 1)) by (rewrite <- Ey; exact Hy2).
        apply Qpower_le_compat_l_inv in H1; [|reflexivity].
        apply Qpower_lt_compat_l_inv in H2; [|reflexivity]. lia. }
      exists (2 ^ 52)%Z. unfold exponent. rewrite Hk.
      replace (Z.max (53 + e - 52) (-1074)) with (e + 1)%Z by lia.
      rewrite Ey, (pow2_Z 52) by lia.
      replace (53 + e)%Z with (52 + (e + 1))%Z by lia.
      rewrite Qpower_plus by apply two_neq0.
      field. apply Qpower_not_0, two_neq0.
    - assert (Hlt : y < 2 ^ (53 + e)).
      { unfold y. rewrite Qpower_plus by apply two_neq0.
        apply Qmult_lt_compat_r; [apply pow2_pos|].
        rewrite <- (pow2_Z 53) by lia. rewrite <- Zlt_Qlt. lia. }
      assert (Hk : (ilog2 y < 53 + e)%Z).
      { assert (H : 2 ^ ilog2 y < 2 ^ (53 + e)) by (eapply Qle_lt_trans; eassumption).
        apply Qpower_lt_compat_l_inv in H; [exact H | reflexivity]. }
      assert (Hle : (exponent y <= e)%Z) by (unfold exponent; lia).
      set (e' := exponent y) in *.
      exists (m * 2 ^ (e - e'))%Z.
      rewrite inject_Z_mult, (pow2_Z (e - e')) by lia.
      unfold y. rewrite (Qpower_minus 2 e e') by apply two_neq0.
      field. apply Qpower_not_0, two_neq0. }
  destruct Hint as [z Hz].
  unfold round_pos. fold y.
  rewrite (roundTiesToEven_Proper _ _ Hz), roundTiesToEven_Z, <- Hz.
  field. apply Qpower_not_0, two_neq0.
Qed.

Lemma round_pos_idem (x : Q) : 0 < x -> rnd (round_pos x) == round_pos x.
Proof.
  intros Hx. destruct (significand_bound x Hx) as [H0 H53].
  unfold round_pos at 2. unfold round_pos at 1.
  set (m := roundTiesToEven (x / 2 ^ exponent x)) in *.
  destruct (Z.eq_dec m 0) as [E | NE].
  - rewrite E. setoid_replace (inject_Z 0 * 2 ^ exponent x) with 0 by ring. reflexivity.
  - assert (Hy : 0 < inject_Z m * 2 ^ exponent x).
    { apply Qmult_lt_0_compat; [|apply pow2_pos].
      change 0 with (inject_Z 0). rewrite <- Zlt_Qlt. lia. }
    rewrite (rnd_pos _ Hy). apply round_pos_representable; [lia | apply exponent_min].
Qed.

(** Rounding is idempotent: a rounded number is a double. *)
Lemma rnd_idem (x : Q) : rnd (rnd x) == rnd x.
Proof.
  destruct (Qlt_le_dec 0 x) as [Hpos | Hle].
  - rewrite (rnd_pos _ Hpos). apply round_pos_idem, Hpos.
  - destruct (Qeq_dec x 0) as [E | NE].
    + rewrite E. reflexivity.
    + assert (Hneg : x < 0) by (apply Qle_lteq in Hle; destruct Hle; [assumption | contradiction]).
      assert (Hpos : 0 < - x) by (apply (Qopp_lt_compat x 0), Hneg).
      rewrite (rnd_neg _ Hneg).
      assert (Hr := round_pos_idem (- x) Hpos).
      destruct (Qeq_dec (round_pos (- x)) 0) as [E0 | N0].
      * rewrite E0. reflexivity.
      * assert (Hrp : 0 < round_pos (- x)).
        { assert (H := round_pos_nonneg (- x) (Qlt_le_weak _ _ Hpos)).
          apply Qle_lteq in H. destruct H as [H | H]; [exact H | symmetry in H; contradiction]. }
        assert (Hrn : - round_pos (- x) < 0) by (apply (Qopp_lt_compat 0), Hrp).
        rewrite (rnd_neg _ Hrn).
        apply Qopp_comp.
        assert (Hpp : 0 < - - round_pos (- x)).
        { setoid_replace (- - round_pos (- x)) with (round_pos (- x)) by ring. exact Hrp. }
        rewrite <- (rnd_pos _ Hpp).
        setoid_replace (- - round_pos (- x)) with (round_pos (- x)) by ring.
        exact Hr.
Qed.

Lemma rnd_0 : rnd 0 == 0.
Proof. reflexivity. Qed.

Lemma rnd_1 : rnd 1 == 1.
Proof. vm_compute. reflexivity. Qed.

Lemma rnd_100 : rnd 100 == 100.
Proof. vm_compute. reflexivity. Qed.

(** [Math.round] is monotone and fixes the integers. *)
Lemma MathRound_le (x y : Q) : x <= y -> (MathRound x <= MathRound y)%Z.
Proof.
  intros H. unfold MathRound. apply Qfloor_resp_le. apply Qplus_le_l. exact H.
Qed.

Lemma MathRound_Z (z : Z) : MathRound (inject_Z z) = z.
Proof.
  unfold MathRound.
  assert (H1 : (z <= Qfloor (inject_Z z + (1 # 2)))%Z).
  { rewrite <- (Qfloor_Z z) at 1. apply Qfloor_resp_le.
    rewrite <- (Qplus_0_r (inject_Z z)) at 1. apply Qplus_le_r. discriminate. }
  assert (H2 : (Qfloor (inject_Z z + (1 # 2)) < z + 1)%Z).
  { rewrite Zlt_Qlt. eapply Qle_lt_trans; [apply Qfloor_le|].
    rewrite inject_Z_plus. apply Qplus_lt_r. reflexivity. }
  lia.
Qed.

(** The model agrees with the binary64 operations of the standard library
    on the quotient and product below. *)
Example rnd_agrees_with_binary64 :
  let f23 := S754_finite false 23 0 in
  let f40 := S754_finite false 5 3 in
  let f100 := S754_finite false 25 2 in
  match SF2Q (SFmul 53 1024 (SFdiv 53 1024 f23 f40) f100) with
  | Some q => Qeq_bool q (mul (div 23 40) 100) = true
  | None => False
  end.
Proof. vm_compute. reflexivity. Qed.

End JsNumberFacts.

(* ===================================================================== *)
(** * The progress percentage *)
(* ===================================================================== *)

Module ProgressFacts.
Import JsNumber JsNumberFacts BatchProcessor.
Local Open Scope Q_scope.

Lemma percent_le (x y : Q) :
  x <= y -> (MathRound (mul (rnd x) 100) <= MathRound (mul (rnd y) 100))%Z.
Proof.
  intros H. apply MathRound_le. unfold mul. apply rnd_le.
  apply Qmult_le_compat_r; [apply rnd_le, H | discriminate].
Qed.

(** On the grid of whole percentages the computation is exact. *)
Lemma percent_grid (n : nat) :
  (n <= 100)%nat -> MathRound (mul (rnd (Z.of_nat n # 100)) 100) = Z.of_nat n.
Proof.
  intros H.
  assert (G : forallb (fun n => Z.eqb (MathRound (mul (rnd (Z.of_nat n # 100)) 100)) (Z.of_nat n))
                (seq 0 101) = true) by (vm_compute; reflexivity).
  rewrite forallb_forall in G. apply Z.eqb_eq, G, in_seq. lia.
Qed.

Lemma percent_grid_Z (k : Z) :
  (0 <= k <= 100)%Z -> MathRound (mul (rnd (k # 100)) 100) = k.
Proof.
  intros H. rewrite <- (Z2Nat.id k) by lia. apply percent_grid. lia.
Qed.

Lemma ofNat_nonneg (n : nat) : 0 <= ofNat n.
Proof. unfold ofNat. change 0 with (inject_Z 0). rewrite <- Zle_Qle. lia. Qed.

Lemma ofNat_pos (n : nat) : (n <> 0)%nat -> 0 < ofNat n.
Proof. intros H. unfold ofNat. change 0 with (inject_Z 0). rewrite <- Zlt_Qlt. lia. Qed.

Lemma ratio_bounds (done all : nat) :
  (all <> 0)%nat -> (done <= all)%nat ->
  0 <= 100 * (ofNat done / ofNat all) /\ 100 * (ofNat done / ofNat all) <= 100.
Proof.
  intros Hall Hle. assert (Hp := ofNat_pos all Hall). split.
  - apply Qmult_le_0_compat; [discriminate|].
    apply Qle_shift_div_l; [exact Hp|]. rewrite Qmult_0_l. apply ofNat_nonneg.
  - rewrite <- (Qmult_1_r 100) at 2. apply Qmult_le_l; [reflexivity|].
    apply Qle_shift_div_r; [exact Hp|]. rewrite Qmult_1_l.
    unfold ofNat. rewrite <- Zle_Qle. lia.
Qed.

(** C10 (as amended).  [getProgressPercentage] is total: it is 0 when
    [progress.total] is 0, so the division is never reached with a zero
    divisor; otherwise it is [Math.round] of the double-precision product
    [(completed / total) * 100], which for [0 <= completed <= total] is the
    floor or the ceiling of the exact percentage and lies in [0, 100]. *)
Theorem getProgressPercentage_spec (c : Component) :
  (total (progress c) = 0%nat -> getProgressPercentage c = 0%Z) /\
  (total (progress c) <> 0%nat ->
   getProgressPercentage c
   = MathRound (mul (div (ofNat (completed (progress c))) (ofNat (total (progress c)))) 100) /\
   ((completed (progress c) <= total (progress c))%nat ->
    (Qfloor (100 * (ofNat (completed (progress c)) / ofNat (total (progress c))))
     <= getProgressPercentage c
     <= Qceiling (100 * (ofNat (completed (progress c)) / ofNat (total (progress c)))))%Z /\
    (0 <= getProgressPercentage c <= 100)%Z)).
Proof.
  unfold getProgressPercentage.
  destruct (Nat.eqb_spec (total (progress c)) 0) as [E | NE].
  - split; [reflexivity | intros H; contradiction].
  - split; [intros H; contradiction | intros _].
    split; [reflexivity | intros Hle].
    set (done := completed (progress c)) in *. set (all := total (progress c)) in *.
    destruct (ratio_bounds done all NE Hle) as [H0 H100].
    set (x := ofNat done / ofNat all) in *.
    assert (F0 : (0 <= Qfloor (100 * x))%Z).
    { rewrite <- (Qfloor_Z 0). apply Qfloor_resp_le. exact H0. }
    assert (F100 : (Qfloor (100 * x) <= 100)%Z).
    { rewrite <- (Qfloor_Z 100). apply Qfloor_resp_le. exact H100. }
    assert (C0 : (0 <= Qceiling (100 * x))%Z).
    { rewrite <- (Qceiling_Z 0). apply Qceiling_resp_le. exact H0. }
    assert (C100 : (Qceiling (100 * x) <= 100)%Z).
    { rewrite <- (Qceiling_Z 100). apply Qceiling_resp_le. exact H100. }
    assert (Lo : Qfloor (100 * x) # 100 <= x).
    { rewrite Qmake_Qdiv. apply Qle_shift_div_r; [reflexivity|].
      rewrite Qmult_comm. apply Qfloor_le. }
    assert (Hi : x <= Qceiling (100 * x) # 100).
    { rewrite Qmake_Qdiv. apply Qle_shift_div_l; [reflexivity|].
      rewrite Qmult_comm. apply Qle_ceiling. }
    assert (L := percent_le _ _ Lo). assert (U := percent_le _ _ Hi).
    rewrite percent_grid_Z in L by lia. rewrite percent_grid_Z in U by lia.
    unfold div. fold x. lia.
Qed.

(** The theorem at 23 items done of 40. *)
Lemma getProgressPercentage_spec_witness :
  (0 <= getProgressPercentage (Scenario0.counting 23 40) <= 100)%Z.
Proof.
  destruct (getProgressPercentage_spec (Scenario0.counting 23 40)) as [_ H].
  destruct H as [_ H]; [simpl; lia|].
  destruct H as [_ H]; [simpl; lia|].
  exact H.
Defined.

(** C10, the counterexample: with 23 items done of 40 the exact percentage
    is 57.5, which rounds to 58 (ties up, as [Math.round] does, or ties to
    even), and so does the double-precision [100 * completed / total]; the
    code returns 57, for the double nearest to 23/40 times 100 is
    57.49999999999999. *)
Lemma getProgressPercentage_not_exact :
  getProgressPercentage (Scenario0.counting 23 40) = 57%Z /\
  MathRound (100 * (ofNat 23 / ofNat 40)) = 58%Z /\
  roundTiesToEven (100 * (ofNat 23 / ofNat 40)) = 58%Z /\
  MathRound (div (mul 100 (ofNat 23)) (ofNat 40)) = 58%Z /\
  getProgressPercentage (Scenario0.counting 23 40) <> MathRound (100 * (ofNat 23 / ofNat 40)).
Proof. repeat split; try (vm_compute; reflexivity). vm_compute. discriminate. Qed.

End ProgressFacts.

(* ===================================================================== *)
(** * The retry policy *)
(* ===================================================================== *)

Module RetryFacts.
Import Js World Observe RetryShape.

Section Loop.
Context {S A : Type}.
Variable requestFn : M S A.
Variable maxRetries : nat.
Variable baseDelay : Q.

(** [retryOperation] of [ErrorHandler] is the loop of [retryRequest]. *)
Lemma retryOperation_loop_eq (fuel attempt : nat) (lastError : JsThrow) (w : World S) :
  ErrorHandler.retryOperation_loop requestFn maxRetries baseDelay fuel attempt lastError w
  = NSFWTaggerClient.retryRequest_loop requestFn maxRetries baseDelay fuel attempt lastError w.
Proof.
  revert attempt lastError w. induction fuel as [|fuel IH]; intros attempt lastError w.
  - reflexivity.
  - cbn [ErrorHandler.retryOperation_loop NSFWTaggerClient.retryRequest_loop].
    destruct (maxRetries <? attempt); [reflexivity|].
    destruct (requestFn (env (emit (Invoke attempt) w))) as [[a | error] s']; [reflexivity|].
    destruct (attempt =? maxRetries); [reflexivity|].
    cbn [MathRandom]. destruct error as [err|]; cbn [message_of ret throw];
      [apply IH | reflexivity].
Qed.

Lemma retryOperation_eq (w : World S) :
  ErrorHandler.retryOperation requestFn maxRetries baseDelay w
  = NSFWTaggerClient.retryRequest requestFn maxRetries baseDelay w.
Proof. apply retryOperation_loop_eq. Qed.

(** Both loops, as one: whatever holds of [retryRequest] holds of
    [retryOperation]. *)
Lemma either_loop (loop : M (World S) A) :
  loop = NSFWTaggerClient.retryRequest requestFn maxRetries baseDelay \/
  loop = ErrorHandler.retryOperation requestFn maxRetries baseDelay ->
  forall w, loop w = NSFWTaggerClient.retryRequest requestFn maxRetries baseDelay w.
Proof.
  intros [-> | ->] w; [reflexivity | apply retryOperation_eq].
Qed.

(** The loop produces the events of [Attempts]. *)
Lemma retryRequest_loop_shape (fuel attempt : nat) (lastError : JsThrow) (w : World S) :
  1 <= fuel -> attempt + fuel = maxRetries + 1 ->
  exists t,
    trace (snd (NSFWTaggerClient.retryRequest_loop requestFn maxRetries baseDelay
                  fuel attempt lastError w)) = trace w ++ t /\
    random (snd (NSFWTaggerClient.retryRequest_loop requestFn maxRetries baseDelay
                   fuel attempt lastError w)) = random w /\
    Attempts maxRetries baseDelay (random w) attempt (draws w) t
      (thrown (fst (NSFWTaggerClient.retryRequest_loop requestFn maxRetries baseDelay
                      fuel attempt lastError w))).
Proof.
  revert attempt lastError w. induction fuel as [|fuel IH]; intros attempt lastError w Hf Hsum.
  - lia.
  - cbn [NSFWTaggerClient.retryRequest_loop].
    destruct (Nat.ltb_spec maxRetries attempt) as [Hlt | Hge]; [lia|].
    destruct (requestFn (env (emit (Invoke attempt) w))) as [[a | error] s'] eqn:Ereq.
    + exists [Invoke attempt; Settle attempt None]. cbn.
      rewrite <- app_assoc. repeat split. constructor.
    + destruct (Nat.eqb_spec attempt maxRetries) as [Heq | Hne].
      * exists [Invoke attempt; Settle attempt (Some error)]. cbn.
        rewrite <- app_assoc. repeat split. subst attempt. constructor.
      * cbn [MathRandom]. destruct error as [err|]; cbn [message_of ret throw].
        -- match goal with
           | |- context [NSFWTaggerClient.retryRequest_loop _ _ _ fuel (Datatypes.S attempt) ?e ?w4] =>
               destruct (IH (Datatypes.S attempt) e w4) as (t & Ht & Hr & Hs); [lia | lia |];
               set (w' := w4) in *
           end.
           exists (Invoke attempt :: Settle attempt (Some (ThrowError err))
                   :: Warn attempt (backoff baseDelay attempt (random w (draws w)))
                   :: Sleep (backoff baseDelay attempt (random w (draws w))) :: t).
           split; [|split].
           ++ rewrite Ht. unfold w'. cbn. repeat rewrite <- app_assoc. reflexivity.
           ++ rewrite Hr. reflexivity.
           ++ constructor; [lia|]. exact Hs.
        -- exists [Invoke attempt; Settle attempt (Some ThrowUndefined)]. cbn.
           rewrite <- app_assoc. repeat split. apply attempts_no_message. lia.
Qed.

(** The whole call: nothing happens when [maxRetries] is 0, and the thrown
    value is then the initial [lastError], [undefined]. *)
Lemma retryRequest_shape (w : World S) :
  exists t,
    trace (snd (NSFWTaggerClient.retryRequest requestFn maxRetries baseDelay w)) = trace w ++ t /\
    random (snd (NSFWTaggerClient.retryRequest requestFn maxRetries baseDelay w)) = random w /\
    ((maxRetries = 0 /\ t = [] /\
      fst (NSFWTaggerClient.retryRequest requestFn maxRetries baseDelay w) = Thrown ThrowUndefined) \/
     (1 <= maxRetries /\
      Attempts maxRetries baseDelay (random w) 1 (draws w) t
        (thrown (fst (NSFWTaggerClient.retryRequest requestFn maxRetries baseDelay w))))).
Proof.
  unfold NSFWTaggerClient.retryRequest.
  destruct maxRetries as [|m] eqn:Em.
  - exists []. cbn. rewrite app_nil_r. repeat split. left. repeat split.
  - rewrite <- Em.
    destruct (retryRequest_loop_shape maxRetries 1 ThrowUndefined w) as (t & Ht & Hr & Hs);
      [lia | lia |].
    exists t. repeat split; try assumption. right. split; [lia | exact Hs].
Qed.

Lemma applied_shift (k : nat) (s : S) :
  applied requestFn (Datatypes.S k) s = applied requestFn k (snd (requestFn s)).
Proof.
  induction k as [|k IH]; [reflexivity|].
  change (applied requestFn (Datatypes.S (Datatypes.S k)) s)
    with (snd (requestFn (applied requestFn (Datatypes.S k) s))).
  rewrite IH. reflexivity.
Qed.

(** The invocations of the loop are applications of the operation, one after
    the other on the environment: after [k] invocations the environment is
    the one that [k] applications in a row leave, all but the last of them
    threw an error object, and the loop ends as the last one settles (or
    with the [TypeError] of the warning). *)
Lemma retryRequest_loop_applies (fuel attempt : nat) (lastError : JsThrow) (w : World S) :
  1 <= fuel -> attempt + fuel = maxRetries + 1 ->
  exists t k,
    trace (snd (NSFWTaggerClient.retryRequest_loop requestFn maxRetries baseDelay
                  fuel attempt lastError w)) = trace w ++ t /\
    invocations t = k /\ 1 <= k <= fuel /\
    env (snd (NSFWTaggerClient.retryRequest_loop requestFn maxRetries baseDelay
                fuel attempt lastError w)) = applied requestFn k (env w) /\
    (forall j, 1 <= j < k ->
       exists e, settled requestFn j (env w) = Thrown (ThrowError e)) /\
    match fst (NSFWTaggerClient.retryRequest_loop requestFn maxRetries baseDelay
                 fuel attempt lastError w) with
    | Returned a => settled requestFn k (env w) = Returned a
    | Thrown e =>
        (k = fuel /\ settled requestFn k (env w) = Thrown e) \/
        (k < fuel /\ settled requestFn k (env w) = Thrown ThrowUndefined /\
         e = ThrowError noMessage)
    end.
Proof.
  revert attempt lastError w. induction fuel as [|fuel IH]; intros attempt lastError w Hf Hsum.
  - lia.
  - cbn [NSFWTaggerClient.retryRequest_loop].
    destruct (Nat.ltb_spec maxRetries attempt) as [Hlt | Hge]; [lia|].
    cbn [emit env].
    destruct (requestFn (env w)) as [[a | error] s'] eqn:Ereq.
    + exists [Invoke attempt; Settle attempt None], 1. cbn [fst snd trace emit with_env env].
      rewrite <- app_assoc. split; [reflexivity|]. split; [reflexivity|].
      split; [lia|]. split; [cbn; rewrite Ereq; reflexivity|].
      split; [intros j Hj; lia|]. unfold settled. cbn. rewrite Ereq. reflexivity.
    + destruct (Nat.eqb_spec attempt maxRetries) as [Heq | Hne].
      * exists [Invoke attempt; Settle attempt (Some error)], 1.
        cbn [fst snd trace emit with_env env].
        rewrite <- app_assoc. split; [reflexivity|]. split; [reflexivity|].
        split; [lia|]. split; [cbn; rewrite Ereq; reflexivity|].
        split; [intros j Hj; lia|]. left. split; [lia|].
        unfold settled. cbn. rewrite Ereq. reflexivity.
      * cbn [MathRandom]. destruct error as [err|]; cbn [message_of ret throw].
        -- match goal with
           | |- context [NSFWTaggerClient.retryRequest_loop _ _ _ fuel (Datatypes.S attempt) ?e ?w4] =>
               destruct (IH (Datatypes.S attempt) e w4)
                 as (t & k & Ht & Hi & Hk & He & Hall & Hout); [lia | lia |];
               set (w' := w4) in *
           end.
           assert (Es : s' = snd (requestFn (env w))) by (rewrite Ereq; reflexivity).
           assert (Ew : env w' = s') by reflexivity.
           exists (Invoke attempt :: Settle attempt (Some (ThrowError err))
                   :: Warn attempt (backoff baseDelay attempt (random w (draws w)))
                   :: Sleep (backoff baseDelay attempt (random w (draws w))) :: t),
                  (Datatypes.S k).
           split; [rewrite Ht; unfold w'; cbn; repeat rewrite <- app_assoc; reflexivity|].
           split; [unfold invocations in *; cbn; rewrite Hi; reflexivity|].
           split; [lia|].
           split; [rewrite He, Ew, Es; symmetry; apply applied_shift|].
           assert (Shift : forall j, 1 <= j ->
                     settled requestFn (Datatypes.S j) (env w) = settled requestFn j s').
           { intros j Hj. unfold settled.
             replace (Datatypes.S j - 1) with (Datatypes.S (j - 1)) by lia.
             rewrite applied_shift, <- Es. reflexivity. }
           split.
           ++ intros j Hj. destruct j as [|[|j]]; [lia | |].
              ** exists err. unfold settled. cbn. rewrite Ereq. reflexivity.
              ** rewrite Shift by lia. rewrite <- Ew. apply Hall. lia.
           ++ rewrite Shift by lia. rewrite <- Ew.
              destruct (fst (NSFWTaggerClient.retryRequest_loop requestFn maxRetries
                               baseDelay fuel (Datatypes.S attempt) (ThrowError err) w'))
                as [a | e]; [exact Hout|].
              destruct Hout as [(K & Hs) | (K & Hs & Ee)]; [left | right].
              --- split; [lia | exact Hs].
              --- split; [lia|]. split; assumption.
        -- exists [Invoke attempt; Settle attempt (Some ThrowUndefined)], 1.
           cbn [fst snd trace emit with_env env].
           rewrite <- app_assoc. split; [reflexivity|]. split; [reflexivity|].
           split; [lia|]. split; [cbn; rewrite Ereq; reflexivity|].
           split; [intros j Hj; lia|]. right. split; [lia|].
           unfold settled. cbn. rewrite Ereq. split; reflexivity.
Qed.

End Loop.

Section Shape.
Variable maxRetries : nat.
Variable baseDelay : Q.
Variable random : nat -> Q.


Lemma Attempts_invocations k n t r :
  Attempts maxRetries baseDelay random k n t r ->
  k <= maxRetries -> 1 <= invocations t <= maxRetries + 1 - k.
Proof.
  intros H. induction H as [k n | n e | k n e t r Hk H IH | k n Hk]; intros Hle.
  - cbn. lia.
  - cbn. lia.
  - unfold invocations in *. cbn. cbn in IH. lia.
  - cbn. lia.
Qed.

Lemma Attempts_sequential k n t r :
  Attempts maxRetries baseDelay random k n t r -> sequential t = true.
Proof.
  intros H. induction H as [k n | n e | k n e t r Hk H IH | k n Hk].
  - cbn. rewrite Nat.eqb_refl. reflexivity.
  - cbn. rewrite Nat.eqb_refl. reflexivity.
  - cbn. rewrite Nat.eqb_refl. exact IH.
  - cbn. rewrite Nat.eqb_refl. reflexivity.
Qed.


End Shape.

Section Backoff.
Import JsNumber JsNumberFacts.
Local Open Scope Q_scope.


End Backoff.

(** C5.  For every operation, every [maxRetries >= 1] and every base delay,
    a retry loop ([retryRequest] or [retryOperation]) invokes the operation
    [k] times with [1 <= k <= maxRetries], strictly sequentially: in the
    trace every invocation is followed at once by its own settlement, and on
    the environment the invocations are [k] applications of the operation in
    a row, each started where the one before ended.  All applications but
    the last threw an error object, and the loop settles as the last one
    does: it returns its value, or throws its error at attempt [maxRetries];
    the one other end is the [TypeError] of the warning when an application
    before the last rejected with [undefined]. *)
Theorem retry_invocations_bounded {S A : Type} (requestFn : M S A)
    (maxRetries : nat) (baseDelay : Q) (loop : M (World S) A) (w : World S) :
  loop = NSFWTaggerClient.retryRequest requestFn maxRetries baseDelay \/
  loop = ErrorHandler.retryOperation requestFn maxRetries baseDelay ->
  1 <= maxRetries ->
  exists t k,
    trace (snd (loop w)) = trace w ++ t /\
    invocations t = k /\ 1 <= k <= maxRetries /\
    sequential t = true /\
    env (snd (loop w)) = applied requestFn k (env w) /\
    (forall j, 1 <= j < k ->
       exists e, settled requestFn j (env w) = Thrown (ThrowError e)) /\
    match fst (loop w) with
    | Returned a => settled requestFn k (env w) = Returned a
    | Thrown e =>
        (k = maxRetries /\ settled requestFn k (env w) = Thrown e) \/
        (k < maxRetries /\ settled requestFn k (env w) = Thrown ThrowUndefined /\
         e = ThrowError noMessage)
    end.
Proof.
  intros Hl Hm. rewrite (either_loop requestFn maxRetries baseDelay loop Hl w).
  clear Hl loop.
  destruct (retryRequest_loop_applies requestFn maxRetries baseDelay maxRetries 1
              ThrowUndefined w) as (t & k & Ht & Hi & Hk & He & Hall & Hout); [lia | lia |].
  fold (NSFWTaggerClient.retryRequest requestFn maxRetries baseDelay) in Ht, He, Hout.
  exists t, k. split; [exact Ht|]. split; [exact Hi|]. split; [exact Hk|].
  split; [|split; [exact He|split; [exact Hall | exact Hout]]].
  destruct (retryRequest_shape requestFn maxRetries baseDelay w)
    as (t' & Ht' & _ & [(H0 & _) | (_ & Hs)]); [lia|].
  rewrite Ht in Ht'. apply app_inv_head in Ht'. subst t'.
  exact (Attempts_sequential _ _ _ _ _ _ _ Hs).
Qed.

(** The theorem at three attempts of [retryOperation] on an operation that
    counts its invocations and fails twice before it returns 7: three
    invocations, and the counter ends at 3. *)
Lemma retry_invocations_bounded_witness :
  exists t,
    trace (snd (ErrorHandler.retryOperation
                  (ContainerScenario.failsFirst 2 RetryScenario.notFound 7) 3 1000
                  ContainerScenario.fresh)) = t /\
    invocations t = 3 /\ sequential t = true /\
    env (snd (ErrorHandler.retryOperation
                (ContainerScenario.failsFirst 2 RetryScenario.notFound 7) 3 1000
                ContainerScenario.fresh)) = 3.
Proof.
  destruct (retry_invocations_bounded
              (ContainerScenario.failsFirst 2 RetryScenario.notFound 7) 3 1000
              (ErrorHandler.retryOperation
                 (ContainerScenario.failsFirst 2 RetryScenario.notFound 7) 3 1000)
              ContainerScenario.fresh)
    as (t & k & Ht & Hi & Hk & Hq & He & Hall & Hout).
  - right. reflexivity.
  - lia.
  - exists t. cbn [ContainerScenario.fresh trace app] in Ht.
    split; [exact Ht|].
    assert (K : k = 3).
    { destruct (Nat.eq_dec k 3) as [E | N]; [exact E | exfalso].
      assert (K12 : k = 1 \/ k = 2) by lia.
      destruct (fst (ErrorHandler.retryOperation
                 (ContainerScenario.failsFirst 2 RetryScenario.notFound 7) 3 1000
                 ContainerScenario.fresh)) as [a | e].
      - destruct K12 as [-> | ->]; vm_compute in Hout; discriminate.
      - destruct Hout as [(K & _) | (_ & Hu & _)]; [lia|].
        destruct K12 as [-> | ->]; vm_compute in Hu; discriminate. }
    rewrite K in *. split; [exact Hi|]. split; [exact Hq|]. rewrite He. reflexivity.
Defined.







End RetryFacts.

(* ===================================================================== *)
(** * Reasoning about async computations *)
(* ===================================================================== *)

Module HoareFacts.
Import Js Hoare.

Section Monad.
Context {S : Type}.

Lemma OnlyErrors_ret {A} (a : A) : OnlyErrors (@ret S A a).
Proof. intros s e s' H. discriminate. Qed.

Lemma OnlyErrors_throw {A} (err : JsError) : OnlyErrors (@throw S A (ThrowError err)).
Proof. intros s e s' H. inversion H. eauto. Qed.

Lemma OnlyErrors_bind {A B} (c : M S A) (k : A -> M S B) :
  OnlyErrors c -> (forall a, OnlyErrors (k a)) -> OnlyErrors (bind c k).
Proof.
  intros Hc Hk s e s' H. unfold bind in H.
  destruct (c s) as [[a | e0] s0] eqn:E.
  - exact (Hk a _ _ _ H).
  - inversion H; subst. exact (Hc _ _ _ E).
Qed.

Lemma OnlyErrors_try_catch {A} (c : M S A) (h : JsThrow -> M S A) :
  OnlyErrors c -> (forall err, OnlyErrors (h (ThrowError err))) ->
  OnlyErrors (try_catch c h).
Proof.
  intros Hc Hh s e s' H. unfold try_catch in H.
  destruct (c s) as [[a | e0] s0] eqn:E; [discriminate|].
  destruct (Hc _ _ _ E) as [err ->]. exact (Hh err _ _ _ H).
Qed.

Lemma OnlyErrors_Total {A} (c : M S A) : Total c -> OnlyErrors c.
Proof. intros Hc s e s' H. destruct (Hc s) as (a & s0 & E). congruence. Qed.

Lemma Total_ret {A} (a : A) : Total (@ret S A a).
Proof. intros s. exists a, s. reflexivity. Qed.

Lemma Total_bind {A B} (c : M S A) (k : A -> M S B) :
  Total c -> (forall a, Total (k a)) -> Total (bind c k).
Proof.
  intros Hc Hk s. unfold bind. destruct (Hc s) as (a & s0 & E). rewrite E. apply Hk.
Qed.

Lemma Total_try_catch {A} (c : M S A) (h : JsThrow -> M S A) :
  OnlyErrors c -> (forall err, Total (h (ThrowError err))) -> Total (try_catch c h).
Proof.
  intros Hc Hh s. unfold try_catch.
  destruct (c s) as [[a | e0] s0] eqn:E; [eauto|].
  destruct (Hc _ _ _ E) as [err ->]. apply Hh.
Qed.

Lemma Total_message_of (err : JsError) : Total (@message_of S (ThrowError err)).
Proof. apply Total_ret. Qed.

Section Keeps.
Variable R : S -> S -> Prop.
Hypothesis R_refl : forall s, R s s.
Hypothesis R_trans : forall s1 s2 s3, R s1 s2 -> R s2 s3 -> R s1 s3.

Lemma Keeps_ret {A} (a : A) : Keeps R (@ret S A a).
Proof. intros s r s' H. inversion H. apply R_refl. Qed.

Lemma Keeps_throw {A} (e : JsThrow) : Keeps R (@throw S A e).
Proof. intros s r s' H. inversion H. apply R_refl. Qed.

Lemma Keeps_bind {A B} (c : M S A) (k : A -> M S B) :
  Keeps R c -> (forall a, Keeps R (k a)) -> Keeps R (bind c k).
Proof.
  intros Hc Hk s r s' H. unfold bind in H.
  destruct (c s) as [[a | e0] s0] eqn:E.
  - eapply R_trans; [exact (Hc _ _ _ E) | exact (Hk a _ _ _ H)].
  - inversion H; subst. exact (Hc _ _ _ E).
Qed.

Lemma Keeps_try_catch {A} (c : M S A) (h : JsThrow -> M S A) :
  Keeps R c -> (forall e, Keeps R (h e)) -> Keeps R (try_catch c h).
Proof.
  intros Hc Hh s r s' H. unfold try_catch in H.
  destruct (c s) as [[a | e0] s0] eqn:E.
  - inversion H; subst. exact (Hc _ _ _ E).
  - eapply R_trans; [exact (Hc _ _ _ E) | exact (Hh e0 _ _ _ H)].
Qed.

Lemma Keeps_message_of (e : JsThrow) : Keeps R (@message_of S e).
Proof. destruct e; [apply Keeps_ret | apply Keeps_throw]. Qed.

End Keeps.
End Monad.
End HoareFacts.

(* ===================================================================== *)
(** * The clients *)
(* ===================================================================== *)

Module ClientFacts.
Import Js Environment World Observe Hoare HoareFacts Frames.

Lemma sameOracles_refl s : sameOracles s s.
Proof. split; reflexivity. Qed.

Lemma sameOracles_trans s1 s2 s3 :
  sameOracles s1 s2 -> sameOracles s2 s3 -> sameOracles s1 s3.
Proof. intros [A1 A2] [B1 B2]. split; congruence. Qed.

Lemma sameCatalog_refl s : sameCatalog s s.
Proof. split; reflexivity. Qed.

Lemma sameCatalog_trans s1 s2 s3 :
  sameCatalog s1 s2 -> sameCatalog s2 s3 -> sameCatalog s1 s3.
Proof. intros [A1 A2] [B1 B2]. split; congruence. Qed.


(** ** NSFWTaggerClient *)

Lemma request_OnlyErrors c req : OnlyErrors (NSFWTaggerClient.request c req).
Proof.
  intros s e s' H. unfold NSFWTaggerClient.request in H.
  assert (exists x, (Thrown (A:=NSFWTaggerClient.RequestResult) e, s')
                    = (Thrown (ThrowError x), s')) as [x Hx].
  { revert H. destruct (remote s (List.length (remote_log s)) req) as [st txt d | st txt err | err].
    - destruct (ok st); intros H; inversion H; eauto.
    - destruct (ok st); [|intros H; inversion H; eauto].
      repeat match goal with
             | |- context [match ?n with _ => _ end] => destruct n
             end; intros H; inversion H; eauto.
    - repeat match goal with
             | |- context [match ?n with _ => _ end] => destruct n
             end; intros H; inversion H; eauto. }
  inversion Hx. eauto.
Qed.

Lemma request_sameOracles c req : Keeps sameOracles (NSFWTaggerClient.request c req).
Proof.
  intros s r s' H. unfold NSFWTaggerClient.request in H.
  assert (E : s' = {| remote := remote s; remote_log := remote_log s ++ [req];
                      stash_fault := stash_fault s; stash_log := stash_log s;
                      catalog := catalog s |}).
  { revert H. repeat match goal with
                     | |- context [match ?n with _ => _ end] => destruct n
                     end; intros H; inversion H; reflexivity. }
  subst s'. split; reflexivity.
Qed.

Lemma request_sameCatalog c req : Keeps sameCatalog (NSFWTaggerClient.request c req).
Proof.
  intros s r s' H. unfold NSFWTaggerClient.request in H.
  assert (E : s' = {| remote := remote s; remote_log := remote_log s ++ [req];
                      stash_fault := stash_fault s; stash_log := stash_log s;
                      catalog := catalog s |}).
  { revert H. repeat match goal with
                     | |- context [match ?n with _ => _ end] => destruct n
                     end; intros H; inversion H; reflexivity. }
  subst s'. split; reflexivity.
Qed.

Lemma processScene_Total c i o : Total (NSFWTaggerClient.processScene c i o).
Proof.
  unfold NSFWTaggerClient.processScene. apply Total_try_catch.
  - apply OnlyErrors_bind; [apply request_OnlyErrors | intros; apply OnlyErrors_ret].
  - intros err. apply Total_bind; [apply Total_message_of | intros; apply Total_ret].
Qed.

Lemma processImage_Total c i o : Total (NSFWTaggerClient.processImage c i o).
Proof.
  unfold NSFWTaggerClient.processImage. apply Total_try_catch.
  - apply OnlyErrors_bind; [apply request_OnlyErrors | intros; apply OnlyErrors_ret].
  - intros err. apply Total_bind; [apply Total_message_of | intros; apply Total_ret].
Qed.

Lemma cancelProcessing_Total c : Total (NSFWTaggerClient.cancelProcessing c).
Proof.
  unfold NSFWTaggerClient.cancelProcessing. apply Total_try_catch.
  - apply OnlyErrors_bind; [apply request_OnlyErrors | intros; apply OnlyErrors_ret].
  - intros err. apply Total_bind; [apply Total_message_of | intros; apply Total_ret].
Qed.

Lemma healthCheck_Total c : Total (NSFWTaggerClient.healthCheck c).
Proof.
  unfold NSFWTaggerClient.healthCheck. apply Total_try_catch.
  - apply OnlyErrors_bind; [apply request_OnlyErrors | intros; apply OnlyErrors_ret].
  - intros err. apply Total_bind; [apply Total_message_of | intros; apply Total_ret].
Qed.

Lemma testLMStudioConnection_Total c : Total (NSFWTaggerClient.testLMStudioConnection c).
Proof.
  unfold NSFWTaggerClient.testLMStudioConnection. apply Total_try_catch.
  - apply OnlyErrors_bind; [apply request_OnlyErrors | intros; apply OnlyErrors_ret].
  - intros err. apply Total_bind; [apply Total_message_of | intros; apply Total_ret].
Qed.

Lemma validateConnection_Total c : Total (NSFWTaggerClient.validateConnection c).
Proof.
  unfold NSFWTaggerClient.validateConnection.
  apply Total_bind; [apply healthCheck_Total|]. intros h.
  destruct (negb (NSFWTaggerClient.healthy h)); [apply Total_ret|].
  apply Total_bind; [apply testLMStudioConnection_Total|]. intros l.
  destruct (negb (NSFWTaggerClient.connected l)); apply Total_ret.
Qed.

Ltac keeps R_refl R_trans :=
  repeat first
    [ apply Keeps_ret; exact R_refl
    | apply Keeps_throw; exact R_refl
    | apply Keeps_message_of; exact R_refl
    | apply Keeps_bind; [exact R_trans | | intros]
    | apply Keeps_try_catch; [exact R_trans | | intros] ].

Lemma processScene_sameOracles c i o : Keeps sameOracles (NSFWTaggerClient.processScene c i o).
Proof.
  unfold NSFWTaggerClient.processScene.
  keeps sameOracles_refl sameOracles_trans; apply request_sameOracles.
Qed.

Lemma processImage_sameOracles c i o : Keeps sameOracles (NSFWTaggerClient.processImage c i o).
Proof.
  unfold NSFWTaggerClient.processImage.
  keeps sameOracles_refl sameOracles_trans; apply request_sameOracles.
Qed.

Lemma cancelProcessing_sameOracles c : Keeps sameOracles (NSFWTaggerClient.cancelProcessing c).
Proof.
  unfold NSFWTaggerClient.cancelProcessing.
  keeps sameOracles_refl sameOracles_trans; apply request_sameOracles.
Qed.

Lemma validateConnection_sameOracles c :
  Keeps sameOracles (NSFWTaggerClient.validateConnection c).
Proof.
  unfold NSFWTaggerClient.validateConnection, NSFWTaggerClient.healthCheck,
    NSFWTaggerClient.testLMStudioConnection.
  apply Keeps_bind; [exact sameOracles_trans | |].
  - keeps sameOracles_refl sameOracles_trans; apply request_sameOracles.
  - intros h. destruct (negb (NSFWTaggerClient.healthy h)).
    + apply Keeps_ret; exact sameOracles_refl.
    + apply Keeps_bind; [exact sameOracles_trans | |].
      * keeps sameOracles_refl sameOracles_trans; apply request_sameOracles.
      * intros l. destruct (negb (NSFWTaggerClient.connected l));
          apply Keeps_ret; exact sameOracles_refl.
Qed.

(** A retry loop around an operation that returns: one invocation. *)
Lemma retryRequest_of_returning {S A} (requestFn : M S A) (m : nat) (b : Q)
    (w : World S) (a : A) (s' : S) :
  requestFn (env w) = (Returned a, s') ->
  NSFWTaggerClient.retryRequest requestFn (Datatypes.S m) b w
  = (Returned a, {| env := s'; random := random w; draws := draws w;
                    trace := trace w ++ [Invoke 1; Settle 1 None] |}).
Proof.
  intros H. unfold NSFWTaggerClient.retryRequest. cbn. rewrite H.
  unfold emit, with_env. cbn. rewrite <- app_assoc. reflexivity.
Qed.

(** ** StashClient *)

Lemma graphql_OnlyErrors req : OnlyErrors (StashClient.graphql req).
Proof.
  intros s e s' H. unfold StashClient.graphql in H.
  destruct (stash_fault s (List.length (stash_log s))) as [err|].
  - inversion H; eauto.
  - destruct (perform req (catalog s)). discriminate.
Qed.

Lemma graphql_sameOracles req : Keeps sameOracles (StashClient.graphql req).
Proof.
  intros s r s' H. unfold StashClient.graphql in H.
  destruct (stash_fault s (List.length (stash_log s))) as [err|].
  - inversion H; subst. split; reflexivity.
  - destruct (perform req (catalog s)). inversion H; subst. split; reflexivity.
Qed.

Lemma getTagByName_Total n : Total (StashClient.getTagByName n).
Proof.
  unfold StashClient.getTagByName. apply Total_try_catch.
  - apply OnlyErrors_bind; [apply graphql_OnlyErrors | intros; apply OnlyErrors_ret].
  - intros err. apply Total_ret.
Qed.

Lemma createTagIfNotExists_Total n : Total (StashClient.createTagIfNotExists n).
Proof.
  unfold StashClient.createTagIfNotExists. apply Total_try_catch.
  - apply OnlyErrors_bind; [apply OnlyErrors_Total, getTagByName_Total|].
    intros [t|]; [apply OnlyErrors_ret|].
    apply OnlyErrors_bind; [apply graphql_OnlyErrors|].
    intros d. destruct (d_tag d); [apply OnlyErrors_ret | apply OnlyErrors_throw].
  - intros err. apply Total_ret.
Qed.

Lemma markerTagIds_Total names ids : Total (StashClient.markerTagIds names ids).
Proof.
  revert ids. induction names as [|n names IH]; intros ids; cbn.
  - apply Total_ret.
  - apply Total_bind; [apply getTagByName_Total|]. intros t. apply IH.
Qed.

Lemma createSceneMarker_OnlyErrors i t sec names :
  OnlyErrors (StashClient.createSceneMarker i t sec names).
Proof.
  unfold StashClient.createSceneMarker.
  apply OnlyErrors_bind; [apply OnlyErrors_Total, markerTagIds_Total|]. intros ids.
  apply OnlyErrors_try_catch; [|intros; apply OnlyErrors_throw].
  apply OnlyErrors_bind; [apply graphql_OnlyErrors | intros; apply OnlyErrors_ret].
Qed.

Lemma addTagsToScene_OnlyErrors i ids : OnlyErrors (StashClient.addTagsToScene i ids).
Proof.
  unfold StashClient.addTagsToScene.
  apply OnlyErrors_try_catch; [|intros; apply OnlyErrors_throw].
  apply OnlyErrors_bind; [apply graphql_OnlyErrors | intros; apply OnlyErrors_ret].
Qed.

Lemma addTagsToImage_OnlyErrors i ids : OnlyErrors (StashClient.addTagsToImage i ids).
Proof.
  unfold StashClient.addTagsToImage.
  apply OnlyErrors_try_catch; [|intros; apply OnlyErrors_throw].
  apply OnlyErrors_bind; [apply graphql_OnlyErrors | intros; apply OnlyErrors_ret].
Qed.

Lemma getTagByName_sameOracles n : Keeps sameOracles (StashClient.getTagByName n).
Proof.
  unfold StashClient.getTagByName.
  keeps sameOracles_refl sameOracles_trans; apply graphql_sameOracles.
Qed.

Lemma createTagIfNotExists_sameOracles n :
  Keeps sameOracles (StashClient.createTagIfNotExists n).
Proof.
  unfold StashClient.createTagIfNotExists.
  apply Keeps_try_catch; [exact sameOracles_trans | |].
  - apply Keeps_bind; [exact sameOracles_trans | apply getTagByName_sameOracles|].
    intros [t|]; [apply Keeps_ret; exact sameOracles_refl|].
    apply Keeps_bind; [exact sameOracles_trans | apply graphql_sameOracles|].
    intros d. destruct (d_tag d);
      [apply Keeps_ret | apply Keeps_throw]; exact sameOracles_refl.
  - intros e. apply Keeps_ret; exact sameOracles_refl.
Qed.

Lemma markerTagIds_sameOracles names ids :
  Keeps sameOracles (StashClient.markerTagIds names ids).
Proof.
  revert ids. induction names as [|n names IH]; intros ids; cbn.
  - apply Keeps_ret; exact sameOracles_refl.
  - apply Keeps_bind; [exact sameOracles_trans | apply getTagByName_sameOracles|].
    intros t. apply IH.
Qed.

Lemma createSceneMarker_sameOracles i t sec names :
  Keeps sameOracles (StashClient.createSceneMarker i t sec names).
Proof.
  unfold StashClient.createSceneMarker.
  apply Keeps_bind; [exact sameOracles_trans | apply markerTagIds_sameOracles|].
  intros ids. keeps sameOracles_refl sameOracles_trans; apply graphql_sameOracles.
Qed.

Lemma addTagsToScene_sameOracles i ids : Keeps sameOracles (StashClient.addTagsToScene i ids).
Proof.
  unfold StashClient.addTagsToScene.
  keeps sameOracles_refl sameOracles_trans; apply graphql_sameOracles.
Qed.

Lemma addTagsToImage_sameOracles i ids : Keeps sameOracles (StashClient.addTagsToImage i ids).
Proof.
  unfold StashClient.addTagsToImage.
  keeps sameOracles_refl sameOracles_trans; apply graphql_sameOracles.
Qed.

End ClientFacts.

(* ===================================================================== *)
(** * One item: processItem and applyResultsToStash *)
(* ===================================================================== *)

Module ItemFacts.
Import Js Environment World Observe Hoare HoareFacts Frames ClientFacts BatchProcessor Pipeline.

Lemma createTags_Total names ids : Total (createTags names ids).
Proof.
  revert ids. induction names as [|n names IH]; intros ids; cbn.
  - apply Total_ret.
  - apply Total_bind; [apply createTagIfNotExists_Total|]. intros t. apply IH.
Qed.

Lemma createTags_sameOracles names ids : Keeps sameOracles (createTags names ids).
Proof.
  revert ids. induction names as [|n names IH]; intros ids; cbn.
  - apply Keeps_ret; exact sameOracles_refl.
  - apply Keeps_bind; [exact sameOracles_trans | apply createTagIfNotExists_sameOracles|].
    intros t. apply IH.
Qed.

Lemma createMarkers_OnlyErrors i ms : OnlyErrors (createMarkers i ms).
Proof.
  induction ms as [|m ms IH]; cbn.
  - apply OnlyErrors_ret.
  - apply OnlyErrors_bind; [apply createSceneMarker_OnlyErrors | intros; exact IH].
Qed.

Lemma createMarkers_sameOracles i ms : Keeps sameOracles (createMarkers i ms).
Proof.
  induction ms as [|m ms IH]; cbn.
  - apply Keeps_ret; exact sameOracles_refl.
  - apply Keeps_bind; [exact sameOracles_trans | apply createSceneMarker_sameOracles|].
    intros; exact IH.
Qed.

Lemma applyTags_OnlyErrors i ty r : OnlyErrors (applyTags i ty r).
Proof.
  unfold applyTags. destruct (nonempty (r_tags r)); [|apply OnlyErrors_ret].
  apply OnlyErrors_bind; [apply OnlyErrors_Total, createTags_Total|]. intros ids.
  destruct (nonempty ids); [|apply OnlyErrors_ret].
  destruct ty; [apply addTagsToScene_OnlyErrors | apply addTagsToImage_OnlyErrors].
Qed.

Lemma applyTags_sameOracles i ty r : Keeps sameOracles (applyTags i ty r).
Proof.
  unfold applyTags.
  destruct (nonempty (r_tags r)); [|apply Keeps_ret; exact sameOracles_refl].
  apply Keeps_bind; [exact sameOracles_trans | apply createTags_sameOracles|]. intros ids.
  destruct (nonempty ids); [|apply Keeps_ret; exact sameOracles_refl].
  destruct ty; [apply addTagsToScene_sameOracles | apply addTagsToImage_sameOracles].
Qed.

Lemma applyMarkers_OnlyErrors i ty r : OnlyErrors (applyMarkers i ty r).
Proof.
  unfold applyMarkers. destruct ty; [|apply OnlyErrors_ret].
  destruct (nonempty (r_markers r)); [apply createMarkers_OnlyErrors | apply OnlyErrors_ret].
Qed.

Lemma applyMarkers_sameOracles i ty r : Keeps sameOracles (applyMarkers i ty r).
Proof.
  unfold applyMarkers. destruct ty; [|apply Keeps_ret; exact sameOracles_refl].
  destruct (nonempty (r_markers r));
    [apply createMarkers_sameOracles | apply Keeps_ret; exact sameOracles_refl].
Qed.

Lemma applyResultsToStash_OnlyErrors i ty r : OnlyErrors (applyResultsToStash i ty r).
Proof.
  unfold applyResultsToStash.
  apply OnlyErrors_try_catch; [|intros; apply OnlyErrors_throw].
  destruct r as [r|]; [|apply OnlyErrors_throw].
  apply OnlyErrors_bind; [apply applyTags_OnlyErrors | intros; apply applyMarkers_OnlyErrors].
Qed.

Lemma applyResultsToStash_sameOracles i ty r : Keeps sameOracles (applyResultsToStash i ty r).
Proof.
  unfold applyResultsToStash.
  apply Keeps_try_catch; [exact sameOracles_trans | | intros; apply Keeps_throw; exact sameOracles_refl].
  destruct r as [r|]; [|apply Keeps_throw; exact sameOracles_refl].
  apply Keeps_bind; [exact sameOracles_trans | apply applyTags_sameOracles|].
  intros; apply applyMarkers_sameOracles.
Qed.

Lemma remoteCall_Total props i ty : Total (remoteCall props i ty).
Proof. destruct ty; [apply processScene_Total | apply processImage_Total]. Qed.

Lemma remoteCall_sameOracles props i ty : Keeps sameOracles (remoteCall props i ty).
Proof. destruct ty; [apply processScene_sameOracles | apply processImage_sameOracles]. Qed.

(** [processItem], step by step: one invocation of the remote call, then the
    check of [result.success], then the catalog writes. *)
Lemma processItem_unfold props i ty w resp s1 :
  remoteCall props i ty (env w) = (Returned resp, s1) ->
  processItem props i ty w
  = if negb (NSFWTaggerClient.pr_success resp) then
      (Thrown (ThrowError (Error (orString (NSFWTaggerClient.pr_error resp) "Processing failed"))),
       afterCall w s1)
    else
      match applyResultsToStash i ty (NSFWTaggerClient.pr_result resp) s1 with
      | (Returned _, s2) =>
          match NSFWTaggerClient.pr_result resp with
          | Some r => (Returned (Success i r), with_env s2 (afterCall w s1))
          | None => (Thrown (ThrowError (TypeError "result is null")), with_env s2 (afterCall w s1))
          end
      | (Thrown e, s2) => (Thrown e, with_env s2 (afterCall w s1))
      end.
Proof.
  intros H. unfold processItem, try_catch, bind.
  assert (R : (match ty with
               | scenes =>
                   NSFWTaggerClient.processSceneWithRetry (nsfwClient props) i
                     {| frame_interval := Some (orN (set_frame_interval (settings props)) 5);
                        max_frames := Some (orN (set_max_frames (settings props)) 50);
                        shot_detection :=
                          Some (match set_shot_detection (settings props) with
                                | Some false => false
                                | _ => true
                                end) |}
                     NSFWTaggerClient.default_maxRetries
               | images =>
                   NSFWTaggerClient.processImageWithRetry (nsfwClient props) i
                     {| quality := Some (orString (set_quality (settings props)) "high") |}
                     NSFWTaggerClient.default_maxRetries
               end) w = (Returned resp, afterCall w s1)).
  { destruct ty; cbn [remoteCall] in H;
      [unfold NSFWTaggerClient.processSceneWithRetry
      | unfold NSFWTaggerClient.processImageWithRetry];
      unfold NSFWTaggerClient.default_maxRetries;
      rewrite (retryRequest_of_returning _ _ _ _ _ _ H); reflexivity. }
  rewrite R.
  destruct (negb (NSFWTaggerClient.pr_success resp)); [reflexivity|].
  unfold liftEnv. cbn [env afterCall].
  destruct (applyResultsToStash i ty (NSFWTaggerClient.pr_result resp) s1) as [[u | e] s2];
    [|reflexivity].
  destruct (NSFWTaggerClient.pr_result resp); reflexivity.
Qed.

Lemma pipelineStep_afterCall w s1 s2 :
  sameOracles (env w) s2 -> pipelineStep w (with_env s2 (afterCall w s1)).
Proof.
  intros H. split; [exact H|]. split; [reflexivity|].
  exists [Invoke 1; Settle 1 None]. split; reflexivity.
Qed.

(** The caught pipeline of an item always yields an outcome for that item. *)
Lemma processItemCaught_spec props ty i w :
  exists r w',
    processItemCaught props ty i w = (Returned r, w') /\ id r = i /\ pipelineStep w w'.
Proof.
  destruct (remoteCall_Total props i ty (env w)) as (resp & s1 & Hcall).
  assert (O1 := remoteCall_sameOracles props i ty _ _ _ Hcall).
  unfold processItemCaught, try_catch. rewrite (processItem_unfold _ _ _ _ _ _ Hcall).
  destruct (negb (NSFWTaggerClient.pr_success resp)).
  - eexists. eexists. split; [reflexivity|]. split; [reflexivity|].
    apply (pipelineStep_afterCall w s1 s1 O1).
  - destruct (applyResultsToStash i ty (NSFWTaggerClient.pr_result resp) s1)
      as [[u | e] s2] eqn:Happ.
    + assert (O2 := applyResultsToStash_sameOracles _ _ _ _ _ _ Happ).
      destruct (NSFWTaggerClient.pr_result resp) as [r|].
      * eexists. eexists. split; [reflexivity|]. split; [reflexivity|].
        apply pipelineStep_afterCall. eapply sameOracles_trans; eassumption.
      * eexists. eexists. split; [reflexivity|]. split; [reflexivity|].
        apply pipelineStep_afterCall. eapply sameOracles_trans; eassumption.
    + assert (O2 := applyResultsToStash_sameOracles _ _ _ _ _ _ Happ).
      destruct (applyResultsToStash_OnlyErrors _ _ _ _ _ _ Happ) as [err ->].
      eexists. eexists. split; [reflexivity|]. split; [reflexivity|].
      apply pipelineStep_afterCall. eapply sameOracles_trans; eassumption.
Qed.

End ItemFacts.

(* ===================================================================== *)
(** * createBatches *)
(* ===================================================================== *)

Module BatchFacts.
Import BatchProcessor Chunks.
Local Open Scope list_scope.

Section Batches.
Context {A : Type}.

Lemma createBatches_loop_spec (b : nat) (items : list A) :
  1 <= b ->
  forall fuel i acc,
    List.length items - i < fuel ->
    exists bs,
      createBatches_loop fuel items b i acc = Some (acc ++ bs) /\
      List.concat bs = skipn i items /\
      chunked b bs /\
      (i < List.length items -> bs <> []).
Proof.
  intros Hb. induction fuel as [|fuel IH]; intros i acc Hfuel; [lia|].
  cbn [createBatches_loop].
  destruct (Nat.ltb_spec i (List.length items)) as [Hlt | Hge].
  - destruct (IH (i + b) (acc ++ [slice items i (i + b)])) as (bs & E & Hc & Hk & Hne); [lia|].
    exists (slice items i (i + b) :: bs).
    assert (Hs : slice items i (i + b) = firstn b (skipn i items)).
    { unfold slice. f_equal. lia. }
    split; [|split; [|split]].
    + rewrite E, <- app_assoc. reflexivity.
    + cbn [List.concat]. rewrite Hc, Hs.
      replace (i + b) with (b + i) by lia. rewrite <- skipn_skipn.
      apply firstn_skipn.
    + cbn [chunked]. split; [|exact Hk].
      assert (Hl : List.length (slice items i (i + b)) = Nat.min b (List.length items - i)).
      { rewrite Hs, length_firstn, length_skipn. reflexivity. }
      destruct bs as [|c bs'].
      * lia.
      * destruct (Nat.ltb_spec (i + b) (List.length items)) as [H1 | H2]; [lia|].
        exfalso. assert (Hnil : skipn (i + b) items = []) by (apply skipn_all2; lia).
        rewrite Hnil in Hc. cbn in Hc. apply app_eq_nil in Hc. destruct Hc as [Hc0 _].
        cbn [chunked] in Hk. destruct Hk as [Hk _]. subst c.
        destruct bs'; cbn in Hk; lia.
    + intros _. discriminate.
  - exists []. split; [rewrite app_nil_r; reflexivity|].
    split; [symmetry; apply skipn_all2; lia|]. split; [exact I | lia].
Qed.

(** With a batch size of at least 1 the loop ends, and yields the static
    partition of the items into chunks of that size. *)
Lemma createBatches_spec (items : list A) (b : nat) :
  1 <= b ->
  exists bs, createBatches items b = Some bs /\ List.concat bs = items /\ chunked b bs.
Proof.
  intros Hb. unfold createBatches.
  destruct (createBatches_loop_spec b items Hb (Datatypes.S (List.length items)) 0 [])
    as (bs & E & Hc & Hk & _); [lia|].
  exists bs. split; [exact E|]. split; [exact Hc | exact Hk].
Qed.

(** With a batch size of 0 and an item to process the loop never ends:
    no amount of fuel is enough. *)
Lemma createBatches_diverges (items : list A) :
  items <> [] ->
  forall fuel i acc, i < List.length items -> createBatches_loop fuel items 0 i acc = None.
Proof.
  intros Hne. induction fuel as [|fuel IH]; intros i acc Hi; [reflexivity|].
  cbn [createBatches_loop]. destruct (Nat.ltb_spec i (List.length items)); [|lia].
  rewrite Nat.add_0_r. apply IH. exact Hi.
Qed.

Lemma chunked_size (b : nat) (bs : list (list A)) :
  chunked b bs -> bs <> [] -> 1 <= b.
Proof.
  induction bs as [|c rest IH]; intros H Hne; [contradiction|].
  cbn [chunked] in H. destruct H as [Hc Hr].
  destruct rest as [|c' rest']; [lia|]. apply IH; [exact Hr | discriminate].
Qed.

Lemma chunked_lengths (b : nat) (bs : list (list A)) :
  chunked b bs -> Forall (fun c => 1 <= List.length c <= b) bs.
Proof.
  induction bs as [|c rest IH]; intros H; [constructor|].
  cbn [chunked] in H. destruct H as [Hc Hr]. constructor; [|exact (IH Hr)].
  destruct rest as [|c' rest']; [exact Hc|].
  assert (Hb := chunked_size b (c' :: rest') Hr ltac:(discriminate)). lia.
Qed.

End Batches.
End BatchFacts.

(* ===================================================================== *)
(** * The dispatcher: processItems *)
(* ===================================================================== *)

Module DispatchFacts.
Import Js Environment World Observe Hoare HoareFacts Frames ClientFacts.
Import BatchProcessor Pipeline ItemFacts Chunks BatchFacts Dispatch.
Local Open Scope list_scope.

(** ** Traces *)

Lemma steps_app t u : steps (t ++ u) = steps t ++ steps u.
Proof.
  induction t as [|e t IH]; [reflexivity|].
  destruct e; cbn; rewrite ?IH; reflexivity.
Qed.

Lemma steps_ItemStart l : steps (map ItemStart l) = map Started l.
Proof. induction l as [|i l IH]; [reflexivity|]. cbn. rewrite IH. reflexivity. Qed.

Lemma In_steps_Started i t : In (Started i) (steps t) -> In (ItemStart i) t.
Proof.
  induction t as [|e t IH]; [intros []|].
  destruct e; cbn; intros H; try (right; apply IH; exact H).
  - destruct H as [H | H]; [inversion H; left; reflexivity | right; apply IH, H].
  - destruct H as [H | H]; [discriminate | right; apply IH, H].
Qed.

Lemma emitAll_trace es (w : World Env) :
  emitAll es w = {| env := env w; random := random w; draws := draws w;
                    trace := trace w ++ es |}.
Proof.
  revert w. induction es as [|e es IH]; intros w.
  - cbn. rewrite app_nil_r. destruct w; reflexivity.
  - cbn [emitAll fold_left]. fold (emitAll es (emit e w)). rewrite IH.
    unfold emit. cbn. rewrite <- app_assoc. reflexivity.
Qed.

Lemma pipelineStep_refl w : pipelineStep w w.
Proof.
  split; [apply sameOracles_refl|]. split; [reflexivity|].
  exists []. rewrite app_nil_r. split; reflexivity.
Qed.

Lemma pipelineStep_trans w1 w2 w3 :
  pipelineStep w1 w2 -> pipelineStep w2 w3 -> pipelineStep w1 w3.
Proof.
  intros (O1 & R1 & t1 & T1 & S1) (O2 & R2 & t2 & T2 & S2).
  split; [eapply sameOracles_trans; eassumption|]. split; [congruence|].
  exists (t1 ++ t2). split.
  - rewrite T2, T1, app_assoc. reflexivity.
  - rewrite steps_app, S1, S2. reflexivity.
Qed.

(** ** Interface events *)

Lemma uiStep_refl a : uiStep a a.
Proof.
  split; [|split; [|split; [|split]]]; try reflexivity. apply pipelineStep_refl.
Qed.

Lemma uiStep_trans a1 a2 a3 : uiStep a1 a2 -> uiStep a2 a3 -> uiStep a1 a3.
Proof.
  intros (A1 & A2 & A3 & A4 & A5) (B1 & B2 & B3 & B4 & B5).
  split; [|split; [|split; [|split]]]; try congruence.
  eapply pipelineStep_trans; eassumption.
Qed.

Lemma tick_uiStep a : uiStep a (tick a).
Proof.
  unfold tick. destruct (processingInterval (comp a)); [|apply uiStep_refl].
  split; [|split; [|split; [|split]]]; try reflexivity. apply pipelineStep_refl.
Qed.

(** The cancel action: the world after it, and the state it sets. *)
Lemma cancelProcessing_spec props a :
  uiStep a (cancelProcessing props a) /\
  isCancelled (comp (cancelProcessing props a)) /\
  (exists t, trace (world (cancelProcessing props a)) = trace (world a) ++ CancelSignal :: t) /\
  (exists c, history (cancelProcessing props a) = history a ++ [c] /\ counts c = (0, 0, 0)).
Proof.
  unfold cancelProcessing, liftEnv. cbn [world with_world env emit].
  destruct (cancelProcessing_Total (nsfwClient props) (env (world a))) as (b & s' & E).
  assert (O := cancelProcessing_sameOracles _ _ _ _ E).
  rewrite E. cbn. split; [|split; [|split]].
  - split; [|split; [|split; [|split]]]; try reflexivity.
    split; [exact O|]. split; [reflexivity|].
    exists [CancelSignal]. split; reflexivity.
  - repeat split.
  - exists []. reflexivity.
  - eexists. split; reflexivity.
Qed.

Lemma deliver_cons props e evs a :
  deliver props (e :: evs) a
  = deliver props evs (match e with
                       | Tick => tick a
                       | CancelClick => cancelProcessing props a
                       end).
Proof. reflexivity. Qed.

Lemma deliver_uiStep props evs a : uiStep a (deliver props evs a).
Proof.
  revert a. induction evs as [|e evs IH]; intros a; [apply uiStep_refl|].
  rewrite deliver_cons. eapply uiStep_trans; [|apply IH].
  destruct e; [apply tick_uiStep | apply cancelProcessing_spec].
Qed.

(** Without a cancel the counters and the status stay, and so they do in
    every state that the ticks produce. *)
Lemma deliver_quiet props evs a :
  hasCancel evs = false ->
  counts (comp (deliver props evs a)) = counts (comp a) /\
  status (progress (comp (deliver props evs a))) = status (progress (comp a)) /\
  exists H, history (deliver props evs a) = history a ++ H /\
            Forall (fun c => counts c = counts (comp a)) H.
Proof.
  revert a. induction evs as [|e evs IH]; intros a Hc.
  - cbn. repeat split. exists []. rewrite app_nil_r. split; [reflexivity | constructor].
  - rewrite deliver_cons. destruct e; [|discriminate Hc]. cbn in Hc.
    destruct (IH (tick a) Hc) as (C & St & H & Hh & Hf).
    assert (T : counts (comp (tick a)) = counts (comp a) /\
                status (progress (comp (tick a))) = status (progress (comp a)) /\
                exists H0, history (tick a) = history a ++ H0 /\
                           Forall (fun c => counts c = counts (comp a)) H0).
    { unfold tick. destruct (processingInterval (comp a)).
      - repeat split. eexists. split; [reflexivity|]. constructor; [reflexivity | constructor].
      - repeat split. exists []. rewrite app_nil_r. split; [reflexivity | constructor]. }
    destruct T as (C0 & St0 & H0 & Hh0 & Hf0).
    split; [congruence|]. split; [congruence|].
    exists (H0 ++ H). split; [rewrite Hh, Hh0, app_assoc; reflexivity|].
    apply Forall_app. split; [exact Hf0|].
    eapply Forall_impl; [|exact Hf]. intros c Hcc. congruence.
Qed.

Lemma tick_cancelled a : isCancelled (comp a) -> tick a = a.
Proof. intros (_ & _ & H). unfold tick. rewrite H. reflexivity. Qed.

Lemma deliver_keeps_cancelled props evs a :
  isCancelled (comp a) -> isCancelled (comp (deliver props evs a)).
Proof.
  revert a. induction evs as [|e evs IH]; intros a H; [exact H|].
  rewrite deliver_cons. apply IH. destruct e.
  - rewrite (tick_cancelled a H). exact H.
  - apply cancelProcessing_spec.
Qed.

Lemma trace_grows_deliver props evs a :
  exists t, trace (world (deliver props evs a)) = trace (world a) ++ t.
Proof.
  destruct (deliver_uiStep props evs a) as (_ & _ & _ & _ & _ & _ & t & Ht & _).
  exists t. exact Ht.
Qed.

(** With a cancel among the events the component ends up cancelled, and the
    signal is in the trace. *)
Lemma deliver_cancel props evs a :
  hasCancel evs = true ->
  isCancelled (comp (deliver props evs a)) /\
  exists t1 t2, trace (world (deliver props evs a)) = trace (world a) ++ t1 ++ CancelSignal :: t2.
Proof.
  revert a. induction evs as [|e evs IH]; intros a Hc; [discriminate|].
  rewrite deliver_cons. destruct e.
  - cbn in Hc. destruct (IH (tick a) Hc) as (C & t1 & t2 & Ht). split; [exact C|].
    destruct (tick_uiStep a) as (_ & _ & _ & _ & _ & _ & t0 & Ht0 & _).
    exists (t0 ++ t1), t2. rewrite Ht, Ht0, <- !app_assoc. reflexivity.
  - destruct (cancelProcessing_spec props a) as (_ & C & (t & Ht) & _).
    split; [apply deliver_keeps_cancelled, C|].
    destruct (trace_grows_deliver props evs (cancelProcessing props a)) as (t' & Ht').
    exists [], (t ++ t'). rewrite Ht', Ht. cbn. rewrite <- app_assoc. reflexivity.
Qed.

(** ** One batch, and all of them *)

Section Run.
Variable props : Props.
Variable ty : ItemType.

(** A condition on the oracles, and what it ensures of the outcome of every
    item. *)
Variable O : Env -> Prop.
Variable Q : ItemId -> Outcome -> Prop.
Hypothesis O_stable : forall s s', sameOracles s s' -> O s -> O s'.
Hypothesis item_spec :
  forall i w r w',
    O (env w) -> processItemCaught props ty i w = (Returned r, w') -> Q i r.

Lemma runBatch_spec batch w :
  O (env w) ->
  exists rs w',
    runBatch props ty batch w = (Returned rs, w') /\
    map id rs = batch /\ Forall (fun r => Q (id r) r) rs /\
    sameOracles (env w) (env w') /\ random w' = random w /\
    exists t, trace w' = trace w ++ t /\ steps t = map Finished batch.
Proof.
  revert w. induction batch as [|i batch IH]; intros w HO.
  - exists [], w. cbn. repeat split; try constructor.
    exists []. rewrite app_nil_r. split; reflexivity.
  - destruct (processItemCaught_spec props ty i w) as (r & w1 & E1 & Hid & O1 & R1 & t1 & T1 & S1).
    assert (Hq := item_spec i w r w1 HO E1).
    set (w2 := emit (ItemDone i (success r)) w1).
    assert (HO2 : O (env w2)) by (apply (O_stable (env w)); assumption).
    destruct (IH w2 HO2) as (rs & w3 & E3 & Hids & Hqs & O3 & R3 & t3 & T3 & S3).
    exists (r :: rs), w3.
    split.
    { cbn [runBatch]. unfold bind at 1. rewrite E1.
      unfold bind at 1. fold w2. unfold bind at 1. rewrite E3. reflexivity. }
    split; [cbn; congruence|].
    split; [constructor; [rewrite Hid; exact Hq | exact Hqs]|].
    split; [eapply sameOracles_trans; [exact O1 | exact O3]|].
    split; [rewrite R3; exact R1|].
    exists (t1 ++ ItemDone i (success r) :: t3). split.
    + rewrite T3. unfold w2, emit. cbn [trace]. rewrite T1, <- !app_assoc. reflexivity.
    + rewrite steps_app, S1. cbn. rewrite S3. reflexivity.
Qed.

Lemma processBatches_spec ui batches :
  forall k a,
    O (env (world a)) ->
    exists a' rs,
      processBatches props ui ty k batches a = Done a' /\
      map id rs = List.concat batches /\
      Forall (fun r => Q (id r) r) rs /\
      results (comp a') = results (comp a) ++ filter success rs /\
      errors (comp a') = errors (comp a) ++ filter (fun r => negb (success r)) rs /\
      selectedItems (comp a') = selectedItems (comp a) /\
      type (comp a') = type (comp a) /\
      sameOracles (env (world a)) (env (world a')) /\
      exists t, trace (world a') = trace (world a) ++ t /\
                steps t = flat_map chunkSteps batches.
Proof.
  induction batches as [|batch rest IH]; intros k a HO.
  - exists a, []. cbn. rewrite !app_nil_r. repeat split; try constructor.
    exists []. rewrite app_nil_r. split; reflexivity.
  - cbn [processBatches].
    set (a1 := with_world (emitAll (map ItemStart batch) (world a)) a).
    destruct (deliver_uiStep props (ui k) a1) as (U1 & U2 & U3 & U4 & UO & UR & tu & UT & US).
    set (a2 := deliver props (ui k) a1) in *.
    assert (HO2 : O (env (world a2))).
    { apply (O_stable (env (world a1))); [exact UO|].
      unfold a1. cbn. rewrite emitAll_trace. exact HO. }
    destruct (runBatch_spec batch (world a2) HO2)
      as (rs & w3 & E3 & Hids & Hqs & O3 & R3 & t3 & T3 & S3).
    rewrite E3.
    set (a3 := setState (commit rs) (with_world w3 a2)).
    assert (HO3 : O (env (world a3))) by (apply (O_stable (env (world a2))); assumption).
    destruct (IH (Datatypes.S k) a3 HO3)
      as (a' & rs' & E' & Hids' & Hqs' & Hres & Herr & Hsel & Hty & O' & t' & T' & S').
    exists a', (rs ++ rs').
    split; [exact E'|].
    split; [rewrite map_app, Hids, Hids'; reflexivity|].
    split; [apply Forall_app; split; assumption|].
    split; [rewrite Hres; unfold a3; cbn; rewrite U3, filter_app, <- app_assoc; reflexivity|].
    split; [rewrite Herr; unfold a3; cbn; rewrite U4, filter_app, <- app_assoc; reflexivity|].
    split; [rewrite Hsel; unfold a3; cbn; rewrite U1; reflexivity|].
    split; [rewrite Hty; unfold a3; cbn; rewrite U2; reflexivity|].
    split.
    { eapply sameOracles_trans; [|exact O']. unfold a3. cbn.
      eapply sameOracles_trans; [|exact O3].
      eapply sameOracles_trans; [|exact UO].
      unfold a1. cbn. rewrite emitAll_trace. apply sameOracles_refl. }
    exists (map ItemStart batch ++ tu ++ t3 ++ t'). split.
    + rewrite T'. unfold a3. cbn. rewrite T3, UT. unfold a1. cbn.
      rewrite emitAll_trace. cbn. rewrite <- !app_assoc. reflexivity.
    + rewrite !steps_app, steps_ItemStart, US, S3, S'. cbn [flat_map].
      unfold chunkSteps at 2. rewrite <- app_assoc. reflexivity.
Qed.

End Run.
End DispatchFacts.

(* ===================================================================== *)
(** * A whole run: startProcessing *)
(* ===================================================================== *)

Module RunFacts.
Import Js Environment World Observe Hoare HoareFacts Frames ClientFacts.
Import BatchProcessor Pipeline ItemFacts Chunks BatchFacts Dispatch DispatchFacts.
Local Open Scope list_scope.

Lemma filter_split_length {A} (f : A -> bool) (l : list A) :
  List.length (filter f l) + List.length (filter (fun x => negb (f x)) l) = List.length l.
Proof.
  induction l as [|x l IH]; [reflexivity|]. cbn. destruct (f x); cbn; lia.
Qed.

Lemma filter_split_perm {A} (f : A -> bool) (l : list A) :
  Permutation (filter f l ++ filter (fun x => negb (f x)) l) l.
Proof.
  induction l as [|x l IH]; [constructor|]. cbn. destruct (f x); cbn.
  - constructor. exact IH.
  - apply Permutation_sym, Permutation_cons_app, Permutation_sym, IH.
Qed.

Section Run.
Variable props : Props.
Variable ui : nat -> list UiEvent.
Variable ty : ItemType.

(** The general lemma with no condition on the oracles. *)
Lemma processBatches_runs batches k a :
  exists a' rs,
    processBatches props ui ty k batches a = Done a' /\
    map id rs = List.concat batches /\
    results (comp a') = results (comp a) ++ filter success rs /\
    errors (comp a') = errors (comp a) ++ filter (fun r => negb (success r)) rs /\
    selectedItems (comp a') = selectedItems (comp a) /\
    type (comp a') = type (comp a) /\
    sameOracles (env (world a)) (env (world a')) /\
    exists t, trace (world a') = trace (world a) ++ t /\
              steps t = flat_map chunkSteps batches.
Proof.
  destruct (processBatches_spec props ty (fun _ => True) (fun _ _ => True)
              (fun _ _ _ _ => I) (fun _ _ _ _ _ _ => I) ui batches k a I)
    as (a' & rs & E & H1 & _ & H2 & H3 & H4 & H5 & H6 & H7).
  exists a', rs.
  exact (conj E (conj H1 (conj H2 (conj H3 (conj H4 (conj H5 (conj H6 H7))))))).
Qed.

Lemma processBatches_app b1 b2 : forall k a,
  processBatches props ui ty k (b1 ++ b2) a
  = match processBatches props ui ty k b1 a with
    | Done a1 => processBatches props ui ty (k + List.length b1) b2 a1
    | r => r
    end.
Proof.
  induction b1 as [|batch b1 IH]; intros k a.
  - cbn. rewrite Nat.add_0_r. reflexivity.
  - cbn [app processBatches List.length].
    destruct (runBatch props ty batch _) as [[rs | e] w]; [|reflexivity].
    rewrite IH. replace (Datatypes.S k + List.length b1) with (k + Datatypes.S (List.length b1))
      by lia. reflexivity.
Qed.

(** While no cancel arrives, the total and the status stay, the counters
    grow with the lists, and every state on the way respects the bound. *)
Lemma processBatches_counts batches : forall k a a',
  (forall j, k <= j < k + List.length batches -> hasCancel (ui j) = false) ->
  processBatches props ui ty k batches a = Done a' ->
  total (progress (comp a')) = total (progress (comp a)) /\
  status (progress (comp a')) = status (progress (comp a)) /\
  completed (progress (comp a')) + List.length (results (comp a))
  = completed (progress (comp a)) + List.length (results (comp a')) /\
  failed (progress (comp a')) + List.length (errors (comp a))
  = failed (progress (comp a)) + List.length (errors (comp a')) /\
  exists H,
    history a' = history a ++ H /\
    Forall (fun c =>
              total (progress c) = total (progress (comp a)) /\
              completed (progress c) + failed (progress c)
              <= completed (progress (comp a)) + failed (progress (comp a))
                 + List.length (List.concat batches)) H.
Proof.
  induction batches as [|batch rest IH]; intros k a a' Hq E.
  - cbn in E. inversion E; subst. repeat split.
    exists []. rewrite app_nil_r. split; [reflexivity | constructor].
  - cbn [processBatches] in E.
    set (a1 := with_world (emitAll (map ItemStart batch) (world a)) a) in *.
    assert (Hk : hasCancel (ui k) = false) by (apply Hq; cbn; lia).
    destruct (deliver_quiet props (ui k) a1 Hk) as (C & St & Hd & Hh & Hf).
    destruct (deliver_uiStep props (ui k) a1) as (_ & _ & U3 & U4 & _).
    set (a2 := deliver props (ui k) a1) in *.
    destruct (runBatch_spec props ty (fun _ => True) (fun _ _ => True)
                (fun _ _ _ _ => I) (fun _ _ _ _ _ _ => I) batch (world a2) I)
      as (rs & w3 & E3 & Hids & _).
    rewrite E3 in E.
    set (a3 := setState (commit rs) (with_world w3 a2)) in *.
    destruct (IH (Datatypes.S k) a3 a') as (T & S' & Cc & Fc & H' & Hh' & Hf');
      [intros j Hj; apply Hq; cbn; lia | exact E |].
    assert (Hlen : List.length rs = List.length batch)
      by (rewrite <- Hids, length_map; reflexivity).
    assert (Hsplit := filter_split_length success rs).
    unfold counts in C. cbn in C. inversion C as [[C1 C2 C3]]. clear C.
    cbn in St, U3, U4.
    unfold a3 in T, S', Cc, Fc, Hh', Hf'. cbn in T, S', Cc, Fc, Hh', Hf'.
    rewrite !length_app in Cc, Fc. rewrite U3 in Cc. rewrite U4 in Fc.
    split; [congruence|]. split; [congruence|].
    split; [lia|]. split; [lia|].
    exists (Hd ++ commit rs (comp a2) :: H'). split.
    + rewrite Hh'. fold a2. rewrite Hh. cbn. rewrite <- !app_assoc. reflexivity.
    + cbn [List.concat]. rewrite length_app.
      apply Forall_app. split; [|constructor].
      * eapply Forall_impl; [|exact Hf]. intros c Hc. unfold counts in Hc. cbn in Hc.
        inversion Hc. split; [congruence | lia].
      * cbn. split; [congruence | lia].
      * eapply Forall_impl; [|exact Hf']. cbn. intros c [Hc1 Hc2].
        split; [congruence | lia].
Qed.

(** After a cancel during the first of these batches, the items of the
    later batches are started after the signal. *)
Lemma processBatches_signalled batch rest k a a' :
  hasCancel (ui k) = true ->
  processBatches props ui ty k (batch :: rest) a = Done a' ->
  exists pre post,
    trace (world a') = pre ++ CancelSignal :: post /\
    forall i, In i (List.concat rest) -> In (ItemStart i) post.
Proof.
  intros Hc E. cbn [processBatches] in E.
  set (a1 := with_world (emitAll (map ItemStart batch) (world a)) a) in *.
  destruct (deliver_cancel props (ui k) a1 Hc) as (_ & t1 & t2 & Ht).
  set (a2 := deliver props (ui k) a1) in *.
  destruct (runBatch_spec props ty (fun _ => True) (fun _ _ => True)
              (fun _ _ _ _ => I) (fun _ _ _ _ _ _ => I) batch (world a2) I)
    as (rs & w3 & E3 & Hids & _ & _ & _ & t3 & T3 & _).
  rewrite E3 in E.
  set (a3 := setState (commit rs) (with_world w3 a2)) in *.
  destruct (processBatches_runs rest (Datatypes.S k) a3)
    as (a'' & rs' & E' & Hids' & Hres & Herr & _ & _ & _ & t' & T' & S').
  rewrite E in E'. inversion E'; subst a''. clear E'.
  exists (trace (world a1) ++ t1), (t2 ++ t3 ++ t'). split.
  - rewrite T'. unfold a3. cbn. rewrite T3, Ht, <- !app_assoc. reflexivity.
  - intros i Hi. apply in_or_app. right. apply in_or_app. right.
    apply In_steps_Started. rewrite S'.
    apply in_concat in Hi. destruct Hi as (c & Hc1 & Hc2).
    apply in_flat_map. exists c. split; [exact Hc1|].
    unfold chunkSteps. apply in_or_app. left. apply in_map. exact Hc2.
Qed.

(** ** The schedule: how many items are in flight *)

Lemma inflight_app n t u : inflight n (t ++ u) = inflight (inflight n t) u.
Proof.
  revert n. induction t as [|e t IH]; intros n; [reflexivity|].
  destruct e; cbn; apply IH.
Qed.

Lemma inflight_started n l : inflight n (map Started l) = n + List.length l.
Proof.
  revert n. induction l as [|i l IH]; intros n; cbn; [lia|]. rewrite IH. lia.
Qed.

Lemma inflight_finished n l : inflight n (map Finished l) = n - List.length l.
Proof.
  revert n. induction l as [|i l IH]; intros n; cbn; [lia|]. rewrite IH. lia.
Qed.

Lemma inflight_le n t : inflight n t <= n + List.length t.
Proof.
  revert n. induction t as [|e t IH]; intros n; cbn; [lia|].
  destruct e; [specialize (IH (Datatypes.S n)) | specialize (IH (Nat.pred n))]; lia.
Qed.

(** The schedule of the chunks, each finished in its own order, is one with
    barriers. *)
Lemma Barriers_chunks bs : Barriers bs (flat_map chunkSteps bs).
Proof.
  induction bs as [|c bs IH]; [constructor|].
  cbn [flat_map]. unfold chunkSteps at 1. rewrite <- app_assoc.
  constructor; [apply Permutation_refl | exact IH].
Qed.

(** Between two barriers no more items are in flight than the chunk has. *)
Lemma inflight_chunk_prefix c f p q :
  List.length f = List.length c ->
  map Started c ++ map Finished f = p ++ q -> inflight 0 p <= List.length c.
Proof.
  intros Hl E. symmetry in E. apply app_eq_app in E.
  destruct E as [l [[E1 E2] | [E1 E2]]].
  - subst p. rewrite inflight_app, inflight_started.
    apply map_eq_app in E2. destruct E2 as (c1 & c2 & _ & Hl' & _).
    subst l. rewrite inflight_finished. lia.
  - assert (H := inflight_le 0 p).
    assert (L : List.length (map Started c) = List.length p + List.length l)
      by (rewrite E1, length_app; reflexivity).
    rewrite length_map in L. lia.
Qed.

Lemma Barriers_inflight b bs s :
  Barriers bs s ->
  Forall (fun c : list ItemId => 1 <= List.length c <= b) bs ->
  forall p q, s = p ++ q -> inflight 0 p <= b.
Proof.
  intros HB. induction HB as [|c rest f t Hp HB IH]; intros Hf p q E.
  - symmetry in E. apply app_eq_nil in E. destruct E as [-> _]. cbn. lia.
  - inversion Hf as [|c' bs' Hc Hbs]; subst.
    assert (Hl : List.length f = List.length c) by (apply Permutation_length, Hp).
    rewrite app_assoc in E. symmetry in E. apply app_eq_app in E.
    destruct E as [l [[E1 E2] | [E1 E2]]].
    + subst p. rewrite inflight_app.
      replace (inflight 0 (map Started c ++ map Finished f)) with 0
        by (rewrite inflight_app, inflight_started, inflight_finished; lia).
      apply (IH Hbs l q). exact E2.
    + assert (H := inflight_chunk_prefix c f p l Hl E1). lia.
Qed.

End Run.

(** ** startProcessing *)

Section Start.
Variable props : Props.
Variable ui : nat -> list UiEvent.
Variable O : Env -> Prop.
Variable Q : ItemId -> Outcome -> Prop.
Hypothesis O_stable : forall s s', sameOracles s s' -> O s -> O s'.

(** A run that passes the connection check: the batches, the state in which the first
    batch starts, the state in which the last one ends, and the outcomes. *)
Lemma startProcessing_runs a :
  (forall i w r w',
     O (env w) -> processItemCaught props (type (comp a)) i w = (Returned r, w') -> Q i r) ->
  O (env (world a)) ->
  selectedItems (comp a) <> [] ->
  1 <= batchSize props ->
  connectionValid props a = true ->
  exists batches a2 a3 rs,
    createBatches (selectedItems (comp a)) (batchSize props) = Some batches /\
    List.concat batches = selectedItems (comp a) /\
    chunked (batchSize props) batches /\
    comp a2 = {| selectedItems := selectedItems (comp a); type := type (comp a);
                 processing := true;
                 progress := {| current := 0;
                                total := List.length (selectedItems (comp a));
                                completed := 0; failed := 0; status := "processing" |};
                 results := []; errors := []; processingInterval := true |} /\
    history a2 = history a ++ [startedState (List.length (selectedItems (comp a))) (comp a)] /\
    trace (world a2) = trace (world a) /\
    processBatches props ui (type (comp a)) 0 batches a2 = Done a3 /\
    startProcessing props ui a = Done (setState stoppedState (stopProgressTracking a3)) /\
    map id rs = selectedItems (comp a) /\
    Forall (fun r => Q (id r) r) rs /\
    results (comp a3) = filter success rs /\
    errors (comp a3) = filter (fun r => negb (success r)) rs /\
    exists t, trace (world a3) = trace (world a) ++ t /\
              steps t = flat_map chunkSteps batches.
Proof.
  intros Hitem HO Hsel Hb Hv.
  destruct (createBatches_spec (selectedItems (comp a)) (batchSize props) Hb)
    as (batches & Eb & Hcat & Hch).
  unfold connectionValid in Hv.
  destruct (NSFWTaggerClient.validateConnection (nsfwClient props) (env (world a)))
    as [[v | e] s] eqn:Ev; cbn in Hv; [|discriminate].
  assert (Os := validateConnection_sameOracles _ _ _ _ Ev).
  set (a2 := startProgressTracking
               (setState (startedState (List.length (selectedItems (comp a))))
                  (with_world (with_env s (world a)) a))).
  assert (HO2 : O (env (world a2))) by (apply (O_stable (env (world a))); assumption).
  destruct (processBatches_spec props (type (comp a)) O Q O_stable Hitem ui batches 0 a2 HO2)
    as (a3 & rs & E3 & Hids & Hq & Hres & Herr & _ & _ & _ & t & Ht & Hs).
  exists batches, a2, a3, rs.
  split; [exact Eb|]. split; [exact Hcat|]. split; [exact Hch|].
  split; [reflexivity|]. split; [reflexivity|]. split; [reflexivity|].
  split; [exact E3|]. split.
  { unfold startProcessing.
    destruct (Nat.eqb_spec (List.length (selectedItems (comp a))) 0) as [E0 | _].
    - destruct (selectedItems (comp a)); [contradiction | discriminate].
    - unfold liftEnv. rewrite Ev, Hv. cbn [negb].
      unfold processItems. fold (batchSize props). rewrite Eb.
      fold a2. rewrite E3. reflexivity. }
  split; [rewrite Hids; exact Hcat|]. split; [exact Hq|].
  split; [exact Hres|]. split; [exact Herr|].
  exists t. split; [exact Ht | exact Hs].
Qed.

End Start.
End RunFacts.

(* ===================================================================== *)
(** * The batch dispatcher: accounting, scheduling, cancellation *)
(* ===================================================================== *)

Module BatchTheorems.
Import Js Environment World Observe Hoare HoareFacts Frames ClientFacts.
Import BatchProcessor Pipeline ItemFacts Chunks BatchFacts Dispatch DispatchFacts RunFacts.
Local Open Scope list_scope.

Lemma NoDup_app_exclusive {A} (l1 l2 : list A) (x : A) :
  NoDup (l1 ++ l2) -> In x l1 -> ~ In x l2.
Proof.
  induction l1 as [|y l1 IH]; intros Hnd Hin; [contradiction|].
  cbn in Hnd. inversion Hnd as [|y' l' Hy Hr]; subst.
  destruct Hin as [-> | Hin].
  - intros H2. apply Hy. apply in_or_app. right. exact H2.
  - apply IH; assumption.
Qed.

(** C1, the counterexample: five scenes, two at a time, and the cancel
    button is pressed while the first batch is in flight.  The cancel action
    resets the progress, the total included, and the batches go on: the run
    ends with a total of 0 and [completed + failed = 5], and already the
    state set after the first batch has [completed + failed = 2] above a
    total of 0. *)
Lemma cancelled_run_exceeds_the_total :
  match Scenario.finalOf
          (startProcessing Scenario.props0 Scenario.cancel_early Scenario.app0) with
  | Some a' =>
      total (progress (comp a')) = 0 /\
      completed (progress (comp a')) + failed (progress (comp a')) = 5 /\
      ~ (completed (progress (comp a')) + failed (progress (comp a'))
         <= total (progress (comp a'))) /\
      Exists (fun c => total (progress c) = 0 /\
                       completed (progress c) + failed (progress c) = 2) (history a')
  | None => False
  end.
Proof.
  vm_compute. split; [reflexivity|]. split; [reflexivity|]. split.
  - intros H. inversion H.
  - do 3 apply Exists_cons_tl. apply Exists_cons_hd. split; reflexivity.
Qed.

(** C1 (as amended).  For every non-empty selection and every concurrency of
    at least 1, a run that passes the connection check and during which the
    cancel action is not invoked (of the interface only the progress timer
    fires) terminates; in its final state [completed + failed = total], the
    ids in [results] and [errors] together are a rearrangement of the
    selected ids, so every selected item has exactly one outcome and (the
    selection having no duplicates) its id is in exactly one of the two
    lists; and in every state on the way [completed + failed <= total]. *)
Theorem batch_run_accounts_for_every_item (props : Props) (ui : nat -> list UiEvent)
    (a : App) :
  selectedItems (comp a) <> [] ->
  1 <= batchSize props ->
  connectionValid props a = true ->
  (forall k, hasCancel (ui k) = false) ->
  exists a',
    startProcessing props ui a = Done a' /\
    completed (progress (comp a')) + failed (progress (comp a')) = total (progress (comp a')) /\
    total (progress (comp a')) = List.length (selectedItems (comp a)) /\
    completed (progress (comp a')) = List.length (results (comp a')) /\
    failed (progress (comp a')) = List.length (errors (comp a')) /\
    Permutation (map id (results (comp a') ++ errors (comp a'))) (selectedItems (comp a)) /\
    (NoDup (selectedItems (comp a)) ->
     NoDup (map id (results (comp a') ++ errors (comp a'))) /\
     forall i, In i (selectedItems (comp a)) ->
       (In i (map id (results (comp a'))) /\ ~ In i (map id (errors (comp a')))) \/
       (~ In i (map id (results (comp a'))) /\ In i (map id (errors (comp a'))))) /\
    exists H,
      history a' = history a ++ H /\
      Forall (fun c => completed (progress c) + failed (progress c) <= total (progress c)) H.
Proof.
  intros Hsel Hb Hv Hq.
  destruct (startProcessing_runs props ui (fun _ => True) (fun _ _ => True)
              (fun _ _ _ _ => I) a (fun _ _ _ _ _ _ => I) I Hsel Hb Hv)
    as (batches & a2 & a3 & rs & Eb & Hcat & Hch & Hc2 & Hh2 & _ & E3 & Es & Hids & _
        & Hres & Herr & _).
  destruct (processBatches_counts props ui (type (comp a)) batches 0 a2 a3)
    as (T & _ & Cc & Fc & H & Hh & Hf); [intros j _; apply Hq | exact E3 |].
  rewrite Hc2 in T, Cc, Fc, Hf. cbn in T, Cc, Fc, Hf.
  assert (Hl := filter_split_length success rs).
  assert (Hn : List.length rs = List.length (selectedItems (comp a)))
    by (rewrite <- Hids, length_map; reflexivity).
  assert (Hp : Permutation (map id (results (comp a3) ++ errors (comp a3)))
                 (selectedItems (comp a))).
  { rewrite Hres, Herr, <- Hids. apply Permutation_map, filter_split_perm. }
  exists (setState stoppedState (stopProgressTracking a3)).
  split; [exact Es|]. cbn.
  rewrite Hres in Cc. rewrite Herr in Fc.
  split; [rewrite T; lia|]. split; [exact T|].
  split; [rewrite Hres; lia|]. split; [rewrite Herr; lia|].
  split; [exact Hp|]. split.
  - intros Hnd.
    assert (Hnd' : NoDup (map id (results (comp a3) ++ errors (comp a3))))
      by (apply (Permutation_NoDup (Permutation_sym Hp)), Hnd).
    split; [exact Hnd'|]. intros i Hi.
    apply (Permutation_in i (Permutation_sym Hp)) in Hi.
    rewrite map_app in Hi, Hnd'. apply in_app_or in Hi. destruct Hi as [Hi | Hi].
    + left. split; [exact Hi|]. apply (NoDup_app_exclusive _ _ _ Hnd' Hi).
    + right. split; [|exact Hi]. intros Hr.
      exact (NoDup_app_exclusive _ _ _ Hnd' Hr Hi).
  - exists ([startedState (List.length (selectedItems (comp a))) (comp a)] ++ H
            ++ [stoppedState (comp (stopProgressTracking a3))]).
    split.
    + rewrite Hh, Hh2, <- !app_assoc. reflexivity.
    + apply Forall_app. split; [constructor; [cbn; lia | constructor]|].
      apply Forall_app. split.
      * rewrite Hcat in Hf. eapply Forall_impl; [|exact Hf]. cbn. intros c [H1 H2]. lia.
      * constructor; [|constructor]. cbn. rewrite T. rewrite Hres in *. rewrite Herr in *. lia.
Qed.

(** The theorem on the five scenes, two at a time. *)
Lemma batch_run_accounts_for_every_item_witness :
  exists a',
    startProcessing Scenario.props0 Scenario.hands_off Scenario.app0 = Done a' /\
    completed (progress (comp a')) + failed (progress (comp a')) = 5 /\
    Permutation (map id (results (comp a') ++ errors (comp a'))) ["1"; "2"; "3"; "4"; "5"]%string.
Proof.
  destruct (batch_run_accounts_for_every_item Scenario.props0 Scenario.hands_off Scenario.app0)
    as (a' & E & H1 & H2 & _ & _ & Hp & _).
  - discriminate.
  - cbn. lia.
  - vm_compute. reflexivity.
  - intros k. reflexivity.
  - exists a'. split; [exact E|]. split; [rewrite H1, H2; reflexivity | exact Hp].
Defined.

(** C9, the counterexample: five items, two at a time.  The input is cut
    into the fixed chunks [1,2], [3,4], [5], and item 3 is started only after
    both items of the first chunk have finished, whichever finished first:
    the schedule is not that of a pool of workers that pull from a shared
    queue, where the worker that finishes first pulls item 3 at once. *)
Lemma dispatcher_is_not_a_worker_pool :
  createBatches ["1"; "2"; "3"; "4"; "5"]%string 2
  = Some [["1"; "2"]; ["3"; "4"]; ["5"]]%string /\
  (exists p q,
     steps (Scenario.finalTrace
              (startProcessing Scenario.props0 Scenario.hands_off Scenario.app0))
     = p ++ Started "3"%string :: q /\
     In (Finished "1"%string) p /\ In (Finished "2"%string) p) /\
  workerPool 5 (steps (Scenario.finalTrace
                         (startProcessing Scenario.props0 Scenario.hands_off Scenario.app0)))
  = false.
Proof.
  split; [vm_compute; reflexivity|]. split; [|vm_compute; reflexivity].
  exists [Started "1"; Started "2"; Finished "1"; Finished "2"]%string.
  eexists. split; [vm_compute; reflexivity|]. split; cbn; auto 10.
Qed.

(** C9 (as amended).  For every item list and concurrency of at least 1 the
    dispatcher cuts the input into consecutive chunks of [concurrency] items
    (the last one may be shorter), starts all items of a chunk together and
    waits for all of them, in whatever order they finish, before it starts
    the next chunk; so never more than [concurrency] items are in flight. *)
Theorem dispatcher_runs_static_chunks (props : Props) (ui : nat -> list UiEvent)
    (itemIds : list ItemId) (ty : ItemType) (a : App) :
  1 <= batchSize props ->
  exists batches a',
    createBatches itemIds (batchSize props) = Some batches /\
    List.concat batches = itemIds /\
    chunked (batchSize props) batches /\
    processItems props ui itemIds ty a = Done a' /\
    exists t,
      trace (world a') = trace (world a) ++ t /\
      Barriers batches (steps t) /\
      forall p q, steps t = p ++ q -> inflight 0 p <= batchSize props.
Proof.
  intros Hb.
  destruct (createBatches_spec itemIds (batchSize props) Hb) as (batches & Eb & Hcat & Hch).
  destruct (processBatches_runs props ui ty batches 0 a)
    as (a' & rs & E & _ & _ & _ & _ & _ & _ & t & Ht & Hs).
  exists batches, a'.
  split; [exact Eb|]. split; [exact Hcat|]. split; [exact Hch|].
  split; [unfold processItems; fold (batchSize props); rewrite Eb; exact E|].
  assert (HB : Barriers batches (steps t)) by (rewrite Hs; apply Barriers_chunks).
  exists t. split; [exact Ht|]. split; [exact HB|].
  exact (Barriers_inflight (batchSize props) batches (steps t) HB (chunked_lengths _ _ Hch)).
Qed.

(** The theorem on the five scenes. *)
Lemma dispatcher_runs_static_chunks_witness :
  exists batches a',
    createBatches ["1"; "2"; "3"; "4"; "5"]%string 2 = Some batches /\
    chunked 2 batches /\
    processItems Scenario.props0 Scenario.hands_off ["1"; "2"; "3"; "4"; "5"]%string
      scenes Scenario.app0 = Done a' /\
    exists t,
      trace (world a') = t /\ Barriers batches (steps t) /\
      forall p q, steps t = p ++ q -> inflight 0 p <= 2.
Proof.
  destruct (dispatcher_runs_static_chunks Scenario.props0 Scenario.hands_off
              ["1"; "2"; "3"; "4"; "5"]%string scenes Scenario.app0)
    as (batches & a' & Eb & _ & Hch & E & t & Ht & Hs & Hin).
  - cbn. lia.
  - exists batches, a'. split; [exact Eb|]. split; [exact Hch|]. split; [exact E|].
    exists t. split; [rewrite Ht; reflexivity|]. split; [exact Hs | exact Hin].
Defined.

(** C6, the counterexample: the cancel button is pressed while the first
    batch of two is in flight; items 3, 4 and 5 are started all the same,
    after the signal. *)
Lemma cancel_does_not_stop_new_items :
  noStartAfterCancel false
    (Scenario.finalTrace (startProcessing Scenario.props0 Scenario.cancel_early Scenario.app0))
  = false /\
  exists pre post,
    Scenario.finalTrace (startProcessing Scenario.props0 Scenario.cancel_early Scenario.app0)
    = pre ++ CancelSignal :: post /\
    In (ItemStart "3"%string) post /\ In (ItemStart "4"%string) post /\
    In (ItemStart "5"%string) post.
Proof.
  split; [vm_compute; reflexivity|].
  exists [ItemStart "1"; ItemStart "2"]%string. eexists.
  split; [vm_compute; reflexivity|]. repeat split; cbn; auto 20.
Qed.

(** C6 (as amended).  The dispatcher has no cancellation check.  When the
    cancel action runs while batch [k0] is in flight, the run still
    terminates after having processed every item: the items of all later
    batches are started after the signal, and every selected item, in flight
    at the signal or started after it, ends in [results] or [errors].
    Nothing is stated of the counters and the status: the cancel action
    resets them when its request is answered, and what they show at the end
    depends on that moment. *)
Theorem cancel_lets_the_batch_run_on (props : Props) (ui : nat -> list UiEvent)
    (a : App) (k0 : nat) (batches : list (list ItemId)) :
  selectedItems (comp a) <> [] ->
  1 <= batchSize props ->
  connectionValid props a = true ->
  createBatches (selectedItems (comp a)) (batchSize props) = Some batches ->
  k0 < List.length batches ->
  hasCancel (ui k0) = true ->
  exists a',
    startProcessing props ui a = Done a' /\
    Permutation (map id (results (comp a') ++ errors (comp a'))) (selectedItems (comp a)) /\
    exists pre post,
      trace (world a') = pre ++ CancelSignal :: post /\
      forall i, In i (List.concat (skipn (Datatypes.S k0) batches)) -> In (ItemStart i) post.
Proof.
  intros Hsel Hb Hv Eb0 Hk Hc.
  destruct (startProcessing_runs props ui (fun _ => True) (fun _ _ => True)
              (fun _ _ _ _ => I) a (fun _ _ _ _ _ _ => I) I Hsel Hb Hv)
    as (batches' & a2 & a3 & rs & Eb & Hcat & Hch & Hc2 & Hh2 & _ & E3 & Es & Hids & _
        & Hres & Herr & _).
  rewrite Eb0 in Eb. inversion Eb; subst batches'. clear Eb.
  destruct (nth_split batches [] Hk) as (b1 & b2 & Hsplit & Hlen).
  set (bk := nth k0 batches []) in *.
  assert (Sk1 : skipn (Datatypes.S k0) batches = b2).
  { rewrite Hsplit, <- Hlen.
    replace (b1 ++ bk :: b2) with ((b1 ++ [bk]) ++ b2) by (rewrite <- app_assoc; reflexivity).
    replace (Datatypes.S (List.length b1)) with (List.length (b1 ++ [bk]))
      by (rewrite length_app; cbn; lia).
    rewrite skipn_app, skipn_all, Nat.sub_diag. reflexivity. }
  rewrite Hsplit, processBatches_app in E3.
  destruct (processBatches_runs props ui (type (comp a)) b1 0 a2) as (a1 & rs1 & E1 & _).
  rewrite E1 in E3. cbn [Nat.add] in E3. rewrite Hlen in E3.
  destruct (processBatches_signalled props ui (type (comp a)) bk b2 k0 a1 a3 Hc E3)
    as (pre & post & Ht & Hin).
  exists (setState stoppedState (stopProgressTracking a3)).
  rewrite Sk1.
  split; [exact Es|]. cbn.
  split.
  - rewrite Hres, Herr, <- Hids. apply Permutation_map, filter_split_perm.
  - exists pre, post. split; [exact Ht | exact Hin].
Qed.

(** The theorem on the five scenes, cancelled while the first batch is in
    flight: all five end in the lists, three of them started after the
    signal. *)
Lemma cancel_lets_the_batch_run_on_witness :
  exists a',
    startProcessing Scenario.props0 Scenario.cancel_early Scenario.app0 = Done a' /\
    Permutation (map id (results (comp a') ++ errors (comp a')))
      ["1"; "2"; "3"; "4"; "5"]%string /\
    exists pre post,
      trace (world a') = pre ++ CancelSignal :: post /\
      In (ItemStart "3"%string) post /\ In (ItemStart "5"%string) post.
Proof.
  destruct (cancel_lets_the_batch_run_on Scenario.props0 Scenario.cancel_early Scenario.app0 0
              [["1"; "2"]; ["3"; "4"]; ["5"]]%string)
    as (a' & E & Hp & pre & post & Ht & Hin).
  - discriminate.
  - cbn. lia.
  - vm_compute. reflexivity.
  - vm_compute. reflexivity.
  - cbn. lia.
  - reflexivity.
  - exists a'. split; [exact E|]. split; [exact Hp|].
    exists pre, post. split; [exact Ht|].
    split; apply Hin; cbn; auto 10.
Defined.

End BatchTheorems.

(* ===================================================================== *)
(** * The catalog writes of the result applier *)
(* ===================================================================== *)

Module CatalogFacts.
Import Js Environment World Observe Hoare HoareFacts Frames ClientFacts.
Import BatchProcessor Pipeline ItemFacts CatalogSpec.
Local Open Scope list_scope.

Lemma graphql_ok req s :
  noFaults s ->
  StashClient.graphql req s
  = (Returned (fst (perform req (catalog s))), logged req s (snd (perform req (catalog s)))).
Proof.
  intros H. unfold StashClient.graphql. rewrite H.
  destruct (perform req (catalog s)). reflexivity.
Qed.

Lemma graphql_throws req s e s' :
  StashClient.graphql req s = (Thrown e, s') ->
  exists err, e = ThrowError err /\
              stash_fault s (List.length (stash_log s)) = Some err /\
              s' = logged req s (catalog s).
Proof.
  unfold StashClient.graphql. intros H.
  destruct (stash_fault s (List.length (stash_log s))) as [err|] eqn:E.
  - inversion H; subst. exists err. repeat split.
  - destruct (perform req (catalog s)). discriminate.
Qed.

Lemma noFaults_logged req s c : noFaults s -> noFaults (logged req s c).
Proof. intros H n. apply H. Qed.

Lemma getTagByName_ok n s :
  noFaults s ->
  StashClient.getTagByName n s
  = (Returned (findTag (tags (catalog s)) n), logged (FindTag n) s (catalog s)).
Proof.
  intros H. unfold StashClient.getTagByName, try_catch, bind.
  rewrite (graphql_ok _ _ H). reflexivity.
Qed.

(** Resolve-or-create without faults: the tag found, or a fresh one. *)
Lemma createTagIfNotExists_ok n s :
  noFaults s ->
  StashClient.createTagIfNotExists n s
  = match findTag (tags (catalog s)) n with
    | Some t => (Returned (Some (tag_id t)), logged (FindTag n) s (catalog s))
    | None =>
        (Returned (Some (next_id (catalog s))),
         logged (CreateTag n) (logged (FindTag n) s (catalog s))
           (snd (perform (CreateTag n) (catalog s))))
    end.
Proof.
  intros H. unfold StashClient.createTagIfNotExists, try_catch, bind.
  rewrite (getTagByName_ok _ _ H).
  destruct (findTag (tags (catalog s)) n) as [t|]; [reflexivity|].
  rewrite (graphql_ok _ _ (noFaults_logged _ _ _ H)). reflexivity.
Qed.

Lemma findTag_app_Some ts new n t :
  findTag ts n = Some t -> findTag (ts ++ new) n = Some t.
Proof.
  unfold findTag. induction ts as [|x ts IH]; cbn; [discriminate|].
  destruct (String.eqb (tag_name x) n); [auto | exact IH].
Qed.

Lemma findTag_fresh ts n i :
  findTag ts n = None ->
  findTag (ts ++ [{| tag_id := i; tag_name := n |}]) n = Some {| tag_id := i; tag_name := n |}.
Proof.
  unfold findTag. induction ts as [|x ts IH]; cbn.
  - intros _. rewrite String.eqb_refl. reflexivity.
  - destruct (String.eqb (tag_name x) n); [discriminate | exact IH].
Qed.

Lemma findTag_None_names ts n : findTag ts n = None -> ~ In n (map tag_name ts).
Proof.
  unfold findTag. induction ts as [|x ts IH]; cbn; [tauto|].
  destruct (String.eqb_spec (tag_name x) n) as [E | NE]; [discriminate|].
  intros H [H1 | H2]; [contradiction | exact (IH H H2)].
Qed.

(** The ids that [createTags] returns are those that the names resolve to
    in the catalog it leaves; it only adds tags, one for each name that did
    not resolve, and touches nothing else. *)
Lemma createTags_ok names : forall ids s,
  noFaults s ->
  exists ids' s' l,
    createTags names ids s = (Returned ids', s') /\
    noFaults s' /\
    stash_log s' = stash_log s ++ l /\
    (exists new, tags (catalog s') = tags (catalog s) ++ new) /\
    scene_tags (catalog s') = scene_tags (catalog s) /\
    image_tags (catalog s') = image_tags (catalog s) /\
    markers (catalog s') = markers (catalog s) /\
    (forall n, In n names -> findTag (tags (catalog s')) n <> None) /\
    ids' = ids ++ markerIds (tags (catalog s')) names /\
    (NoDup (map tag_name (tags (catalog s))) -> NoDup (map tag_name (tags (catalog s')))) /\
    ((forall n, In n names -> findTag (tags (catalog s)) n <> None) ->
     catalog s' = catalog s /\ filter is_createTag l = [] /\ filter is_createMarker l = []).
Proof.
  induction names as [|n names IH]; intros ids s H.
  - exists ids, s, []. cbn. rewrite !app_nil_r.
    repeat split; try tauto. exists []. rewrite app_nil_r. reflexivity.
  - cbn [createTags]. unfold bind at 1. rewrite (createTagIfNotExists_ok _ _ H).
    destruct (findTag (tags (catalog s)) n) as [t|] eqn:Ef.
    + destruct (IH (ids ++ [tag_id t]) (logged (FindTag n) s (catalog s))
                  (noFaults_logged _ _ _ H))
        as (ids' & s' & l & E & NF & L & (new & T) & ST & IT & MK & R & I' & ND & U).
      cbn [catalog logged stash_log] in *.
      assert (Ef' : findTag (tags (catalog s')) n = Some t)
        by (rewrite T; apply findTag_app_Some, Ef).
      exists ids', s', (FindTag n :: l).
      split; [exact E|]. split; [exact NF|].
      split; [rewrite L, <- app_assoc; reflexivity|].
      split; [exists new; exact T|].
      split; [exact ST|]. split; [exact IT|]. split; [exact MK|].
      split; [intros m [-> | Hm]; [rewrite Ef'; discriminate | exact (R m Hm)]|].
      split; [rewrite I'; cbn [markerIds]; rewrite Ef', <- app_assoc; reflexivity|].
      split; [exact ND|].
      intros Hall. destruct U as (U1 & U2 & U3); [intros m Hm; apply Hall; right; exact Hm|].
      split; [exact U1|]. cbn. split; assumption.
    + set (t := {| tag_id := next_id (catalog s); tag_name := n |}).
      destruct (IH (ids ++ [next_id (catalog s)])
                  (logged (CreateTag n) (logged (FindTag n) s (catalog s))
                     (snd (perform (CreateTag n) (catalog s)))))
        as (ids' & s' & l & E & NF & L & (new & T) & ST & IT & MK & R & I' & ND & U).
      { apply noFaults_logged, noFaults_logged, H. }
      cbn [catalog logged stash_log perform snd tags scene_tags image_tags markers] in *.
      fold t in T, ND, U.
      assert (Ef' : findTag (tags (catalog s')) n = Some t).
      { rewrite T. apply findTag_app_Some, findTag_fresh, Ef. }
      exists ids', s', (FindTag n :: CreateTag n :: l).
      split; [exact E|]. split; [exact NF|].
      split; [rewrite L, <- !app_assoc; reflexivity|].
      split; [exists (t :: new); rewrite T, <- app_assoc; reflexivity|].
      split; [exact ST|]. split; [exact IT|]. split; [exact MK|].
      split; [intros m [-> | Hm]; [rewrite Ef'; discriminate | exact (R m Hm)]|].
      split; [rewrite I'; cbn [markerIds]; rewrite Ef', <- app_assoc; reflexivity|].
      split.
      * intros Hnd. apply ND. rewrite map_app. cbn.
        apply NoDup_app; [exact Hnd | constructor; [intros [] | constructor] |].
        intros x Hx [<- | []]. exact (findTag_None_names _ _ Ef Hx).
      * intros Hall. exfalso. apply (Hall n); [left; reflexivity | exact Ef].
Qed.

(** ** Attaching tags *)

Lemma existsb_pair_app p rel x :
  existsb (pair_eqb p) rel = true -> existsb (pair_eqb p) (rel ++ x) = true.
Proof. intros H. rewrite existsb_app, H. reflexivity. Qed.

Lemma pair_eqb_refl p : pair_eqb p p = true.
Proof. unfold pair_eqb. rewrite String.eqb_refl, N.eqb_refl. reflexivity. Qed.

Lemma attach_keeps item ids : forall rel p,
  existsb (pair_eqb p) rel = true -> existsb (pair_eqb p) (attach item ids rel) = true.
Proof.
  induction ids as [|t ids IH]; intros rel p H; [exact H|].
  cbn [attach]. apply IH.
  destruct (existsb (pair_eqb (item, t)) rel); [exact H | apply existsb_pair_app, H].
Qed.


Lemma attach_attaches item ids : forall rel t,
  In t ids -> existsb (pair_eqb (item, t)) (attach item ids rel) = true.
Proof.
  induction ids as [|u ids IH]; intros rel t Hin; [contradiction|].
  cbn [attach]. destruct Hin as [-> | Hin]; [|apply IH, Hin].
  apply attach_keeps.
  destruct (existsb (pair_eqb (item, t)) rel) eqn:E; [exact E|].
  rewrite existsb_app. cbn. rewrite pair_eqb_refl, orb_true_r. reflexivity.
Qed.


End CatalogFacts.

(* ===================================================================== *)
(** * The result applier *)
(* ===================================================================== *)

Module ApplierFacts.
Import Js Environment World Observe Hoare HoareFacts Frames ClientFacts.
Import BatchProcessor Pipeline ItemFacts CatalogSpec CatalogFacts.
Local Open Scope list_scope.

(** ** Without faults *)

Lemma markerTagIds_ok names : forall ids s,
  noFaults s ->
  exists s',
    StashClient.markerTagIds names ids s
    = (Returned (ids ++ markerIds (tags (catalog s)) names), s') /\
    noFaults s' /\ catalog s' = catalog s /\
    stash_log s' = stash_log s ++ map FindTag names.
Proof.
  induction names as [|n names IH]; intros ids s H.
  - exists s. cbn. rewrite !app_nil_r. repeat split. exact H.
  - cbn [StashClient.markerTagIds markerIds]. unfold bind at 1.
    rewrite (getTagByName_ok _ _ H).
    destruct (findTag (tags (catalog s)) n) as [t|].
    + destruct (IH (ids ++ [tag_id t]) (logged (FindTag n) s (catalog s))
                  (noFaults_logged _ _ _ H)) as (s' & E & NF & C & L).
      exists s'. cbn [catalog logged stash_log] in *.
      rewrite E, <- app_assoc. repeat split; try assumption.
      rewrite L, <- app_assoc. reflexivity.
    + destruct (IH ids (logged (FindTag n) s (catalog s))
                  (noFaults_logged _ _ _ H)) as (s' & E & NF & C & L).
      exists s'. cbn [catalog logged stash_log] in *.
      rewrite E. repeat split; try assumption.
      rewrite L, <- app_assoc. reflexivity.
Qed.

Lemma tagsKept_refl s : tagsKept s s.
Proof. repeat split. Qed.

Lemma tagsKept_trans s1 s2 s3 : tagsKept s1 s2 -> tagsKept s2 s3 -> tagsKept s1 s3.
Proof. intros (A1 & A2 & A3 & A4) (B1 & B2 & B3 & B4). repeat split; congruence. Qed.

(** What the catalog does with a marker creation. *)
Lemma perform_marker scene title seconds ids c :
  let row := {| row_scene := scene; row_title := title;
                row_seconds := seconds; row_tag_ids := ids |} in
  tags (snd (perform (CreateSceneMarker scene title seconds ids) c)) = tags c /\
  next_id (snd (perform (CreateSceneMarker scene title seconds ids) c)) = next_id c /\
  scene_tags (snd (perform (CreateSceneMarker scene title seconds ids) c)) = scene_tags c /\
  image_tags (snd (perform (CreateSceneMarker scene title seconds ids) c)) = image_tags c /\
  markers (snd (perform (CreateSceneMarker scene title seconds ids) c))
  = submit (markers c) row.
Proof.
  cbv zeta. unfold submit. cbn [perform row_scene row_title row_seconds].
  destruct (find (sameMarker scene title seconds) (markers c)); repeat split.
Qed.









(** The markers of a result, without faults: one creation request for each,
    which the catalog stores unless it holds the marker, and nothing else of
    the catalog changes. *)
Lemma createMarkers_ok item ms : forall s,
  noFaults s ->
  exists s' l,
    createMarkers item ms s = (Returned tt, s') /\
    noFaults s' /\ tagsKept s s' /\
    markers (catalog s')
    = submitAll (markers (catalog s)) (rowsOf item (tags (catalog s)) ms) /\
    stash_log s' = stash_log s ++ l /\
    filter is_createTag l = [] /\
    List.length (filter is_createMarker l) = List.length ms.
Proof.
  induction ms as [|m ms IH]; intros s H.
  - exists s, []. cbn. rewrite !app_nil_r. repeat split. exact H.
  - cbn [createMarkers]. unfold bind at 1. unfold StashClient.createSceneMarker, bind at 1.
    set (names := match mk_tags m with Some l => l | None => [] end).
    destruct (markerTagIds_ok names [] s H) as (s0 & E0 & NF0 & C0 & L0).
    rewrite E0. unfold try_catch, bind. rewrite (graphql_ok _ _ NF0).
    cbn [fst snd app].
    destruct (perform_marker item (mk_title m) (mk_seconds m)
                (markerIds (tags (catalog s)) names) (catalog s0))
      as (P1 & P2 & P3 & P4 & P5).
    cbn [app] in P1, P2, P3, P4, P5 |- *.
    set (s1 := logged _ s0 _).
    assert (NF1 : noFaults s1) by (apply noFaults_logged, NF0).
    destruct (IH s1 NF1) as (s' & l & E & NF & (K1 & K2 & K3 & K4) & MK & L & F1 & F2).
    exists s', (map FindTag names ++ CreateSceneMarker item (mk_title m) (mk_seconds m)
                  (markerIds (tags (catalog s)) names) :: l).
    unfold s1 in K1, K2, K3, K4, MK, L. cbn [catalog logged stash_log] in K1, K2, K3, K4, MK, L.
    rewrite P1 in K1, MK. rewrite P2 in K2. rewrite P3 in K3. rewrite P4 in K4.
    rewrite P5 in MK. rewrite C0 in *.
    split; [exact E|]. split; [exact NF|].
    split; [repeat split; assumption|].
    split; [rewrite MK; cbn [rowsOf map submitAll fold_left]; fold names; reflexivity|].
    split; [rewrite L, L0, <- !app_assoc; reflexivity|].
    assert (Hf1 : filter is_createTag (map FindTag names) = [])
      by (clear; induction names; [reflexivity | exact IHnames]).
    assert (Hf2 : filter is_createMarker (map FindTag names) = [])
      by (clear; induction names; [reflexivity | exact IHnames]).
    rewrite !filter_app. cbn. rewrite Hf1, Hf2, F1. cbn. split; [reflexivity | lia].
Qed.

Lemma markerIds_nil ts names : markerIds ts names = [] \/ nonempty (markerIds ts names) = true.
Proof. destruct (markerIds ts names); [left | right]; reflexivity. Qed.

(** The tags of a result, without faults. *)
Lemma applyTags_ok item ty result s :
  noFaults s ->
  exists s1 l,
    applyTags item ty result s = (Returned tt, s1) /\
    noFaults s1 /\
    stash_log s1 = stash_log s ++ l /\
    (exists new, tags (catalog s1) = tags (catalog s) ++ new) /\
    markers (catalog s1) = markers (catalog s) /\
    scene_tags (catalog s1)
    = match ty with
      | scenes => attach item (markerIds (tags (catalog s1)) (r_tags result))
                    (scene_tags (catalog s))
      | images => scene_tags (catalog s)
      end /\
    image_tags (catalog s1)
    = match ty with
      | scenes => image_tags (catalog s)
      | images => attach item (markerIds (tags (catalog s1)) (r_tags result))
                    (image_tags (catalog s))
      end /\
    (forall n, In n (r_tags result) -> findTag (tags (catalog s1)) n <> None) /\
    (NoDup (map tag_name (tags (catalog s))) -> NoDup (map tag_name (tags (catalog s1)))) /\
    ((forall n, In n (r_tags result) -> findTag (tags (catalog s)) n <> None) ->
     tags (catalog s1) = tags (catalog s) /\
     filter is_createTag l = [] /\ filter is_createMarker l = []).
Proof.
  intros H. unfold applyTags.
  destruct (r_tags result) as [|n0 names0] eqn:Er.
  - exists s, []. cbn. rewrite !app_nil_r.
    split; [reflexivity|]. split; [exact H|]. split; [reflexivity|].
    split; [exists []; rewrite app_nil_r; reflexivity|]. split; [reflexivity|].
    split; [destruct ty; reflexivity|]. split; [destruct ty; reflexivity|].
    split; [intros n []|]. split; [tauto|]. intros _. repeat split.
  - cbn [nonempty]. rewrite <- Er.
    destruct (createTags_ok (r_tags result) [] s H)
      as (ids & s0 & l & E & NF & L & (new & T) & ST & IT & MK & R & I' & ND & U).
    cbn [app] in I'. unfold bind. rewrite E.
    assert (Hne : nonempty ids = true).
    { rewrite I', Er. cbn [markerIds]. specialize (R n0). rewrite Er in R.
      destruct (findTag (tags (catalog s0)) n0); [reflexivity|].
      exfalso. apply R; [left; reflexivity | reflexivity]. }
    rewrite Hne.
    destruct ty.
    + unfold StashClient.addTagsToScene, try_catch, bind. rewrite (graphql_ok _ _ NF).
      cbn [fst snd perform].
      eexists. exists (l ++ [BulkSceneUpdate item ids]).
      split; [reflexivity|]. split; [apply noFaults_logged, NF|].
      cbn [catalog logged stash_log tags scene_tags image_tags markers].
      split; [rewrite L, app_assoc; reflexivity|].
      split; [exists new; exact T|]. split; [exact MK|].
      split; [rewrite ST, I'; reflexivity|]. split; [exact IT|].
      split; [exact R|]. split; [exact ND|].
      intros Hall. destruct (U Hall) as (U1 & U2 & U3).
      split; [rewrite U1; reflexivity|]. rewrite !filter_app, U2, U3. split; reflexivity.
    + unfold StashClient.addTagsToImage, try_catch, bind. rewrite (graphql_ok _ _ NF).
      cbn [fst snd perform].
      eexists. exists (l ++ [BulkImageUpdate item ids]).
      split; [reflexivity|]. split; [apply noFaults_logged, NF|].
      cbn [catalog logged stash_log tags scene_tags image_tags markers].
      split; [rewrite L, app_assoc; reflexivity|].
      split; [exists new; exact T|]. split; [exact MK|].
      split; [exact ST|]. split; [rewrite IT, I'; reflexivity|].
      split; [exact R|]. split; [exact ND|].
      intros Hall. destruct (U Hall) as (U1 & U2 & U3).
      split; [rewrite U1; reflexivity|]. rewrite !filter_app, U2, U3. split; reflexivity.
Qed.

Lemma applyMarkers_ok item ty result s :
  noFaults s ->
  exists s' l,
    applyMarkers item ty result s = (Returned tt, s') /\
    noFaults s' /\ tagsKept s s' /\
    markers (catalog s')
    = submitAll (markers (catalog s))
        match ty with
        | scenes => rowsOf item (tags (catalog s)) (r_markers result)
        | images => []
        end /\
    stash_log s' = stash_log s ++ l /\
    filter is_createTag l = [] /\
    List.length (filter is_createMarker l)
    = match ty with scenes => List.length (r_markers result) | images => 0 end.
Proof.
  intros H. unfold applyMarkers. destruct ty.
  - destruct (r_markers result) as [|m ms] eqn:Em.
    + exists s, []. cbn. rewrite !app_nil_r. repeat split. exact H.
    + cbn [nonempty]. apply createMarkers_ok, H.
  - exists s, []. cbn. rewrite !app_nil_r. repeat split. exact H.
Qed.

Lemma applyResultsToStash_unfold item ty result s :
  applyResultsToStash item ty (Some result) s
  = match applyTags item ty result s with
    | (Returned _, s1) => applyMarkers item ty result s1
    | (Thrown e, s1) => (Thrown e, s1)
    end.
Proof.
  unfold applyResultsToStash, try_catch, bind.
  destruct (applyTags item ty result s) as [[u | e] s1]; [|reflexivity].
  destruct (applyMarkers item ty result s1) as [[[] | e] s2]; reflexivity.
Qed.

(** Without faults the applier returns. *)
Lemma applyResultsToStash_ok item ty result s :
  noFaults s ->
  exists s', applyResultsToStash item ty (Some result) s = (Returned tt, s') /\ noFaults s'.
Proof.
  intros H. rewrite applyResultsToStash_unfold.
  destruct (applyTags_ok item ty result s H) as (s1 & l & E & NF & _). rewrite E.
  destruct (applyMarkers_ok item ty result s1 NF) as (s2 & l2 & E2 & NF2 & _).
  exists s2. split; assumption.
Qed.

(** ** With faults *)

Lemma graphql_tagsKept req :
  match req with FindTag _ | CreateSceneMarker _ _ _ _ => True | _ => False end ->
  Keeps tagsKept (StashClient.graphql req).
Proof.
  intros Hreq s r s' H. unfold StashClient.graphql in H.
  destruct (stash_fault s (List.length (stash_log s))).
  - inversion H; subst. repeat split.
  - destruct req as [n | n | i l | i l | scene title seconds ids]; try contradiction.
    + cbn in H. inversion H; subst. repeat split.
    + destruct (perform_marker scene title seconds ids (catalog s)) as (P1 & P2 & P3 & P4 & _).
      destruct (perform (CreateSceneMarker scene title seconds ids) (catalog s)) as [d c'].
      inversion H; subst. cbn [snd catalog] in *. repeat split; assumption.
Qed.

Lemma getTagByName_tagsKept n : Keeps tagsKept (StashClient.getTagByName n).
Proof.
  unfold StashClient.getTagByName.
  apply Keeps_try_catch; [exact tagsKept_trans | |intros; apply Keeps_ret; exact tagsKept_refl].
  apply Keeps_bind; [exact tagsKept_trans | apply graphql_tagsKept; exact I|].
  intros; apply Keeps_ret; exact tagsKept_refl.
Qed.

Lemma markerTagIds_tagsKept names : forall ids, Keeps tagsKept (StashClient.markerTagIds names ids).
Proof.
  induction names as [|n names IH]; intros ids; cbn.
  - apply Keeps_ret; exact tagsKept_refl.
  - apply Keeps_bind; [exact tagsKept_trans | apply getTagByName_tagsKept|]. intros; apply IH.
Qed.

Lemma createSceneMarker_tagsKept i t sec names :
  Keeps tagsKept (StashClient.createSceneMarker i t sec names).
Proof.
  unfold StashClient.createSceneMarker.
  apply Keeps_bind; [exact tagsKept_trans | apply markerTagIds_tagsKept|]. intros ids.
  apply Keeps_try_catch; [exact tagsKept_trans | |intros; apply Keeps_throw; exact tagsKept_refl].
  apply Keeps_bind; [exact tagsKept_trans | apply graphql_tagsKept; exact I|].
  intros; apply Keeps_ret; exact tagsKept_refl.
Qed.

Lemma createMarkers_tagsKept i ms : Keeps tagsKept (createMarkers i ms).
Proof.
  induction ms as [|m ms IH]; cbn.
  - apply Keeps_ret; exact tagsKept_refl.
  - apply Keeps_bind; [exact tagsKept_trans | apply createSceneMarker_tagsKept|].
    intros; exact IH.
Qed.

Lemma applyMarkers_tagsKept i ty r : Keeps tagsKept (applyMarkers i ty r).
Proof.
  unfold applyMarkers. destruct ty; [|apply Keeps_ret; exact tagsKept_refl].
  destruct (nonempty (r_markers r));
    [apply createMarkers_tagsKept | apply Keeps_ret; exact tagsKept_refl].
Qed.

(** A marker creation that throws has thrown at its [createSceneMarker]
    mutation, which is the last request sent. *)
Lemma createSceneMarker_throws i t sec names s e s' :
  StashClient.createSceneMarker i t sec names s = (Thrown e, s') ->
  exists err pre req,
    e = ThrowError err /\ stash_log s' = pre ++ [req] /\
    is_createMarker req = true /\ stash_fault s' (List.length pre) = Some err.
Proof.
  unfold StashClient.createSceneMarker, bind at 1. intros H.
  destruct (markerTagIds_Total names [] s) as (ids & s0 & E0). rewrite E0 in H.
  unfold try_catch, bind in H.
  destruct (StashClient.graphql (CreateSceneMarker i t sec ids) s0) as [[d | e0] s1] eqn:Eg;
    [discriminate|].
  destruct (graphql_throws _ _ _ _ Eg) as (err & -> & Hf & ->).
  inversion H; subst. exists err, (stash_log s0), (CreateSceneMarker i t sec ids).
  repeat split. exact Hf.
Qed.

Lemma createMarkers_throws i ms : forall s e s',
  createMarkers i ms s = (Thrown e, s') ->
  exists err pre req,
    e = ThrowError err /\ stash_log s' = pre ++ [req] /\
    is_createMarker req = true /\ stash_fault s' (List.length pre) = Some err.
Proof.
  induction ms as [|m ms IH]; intros s e s' H; [discriminate|].
  cbn [createMarkers] in H. unfold bind at 1 in H.
  destruct (StashClient.createSceneMarker i (mk_title m) (mk_seconds m) _ s)
    as [[r | e0] s0] eqn:E.
  - exact (IH _ _ _ H).
  - inversion H; subst. exact (createSceneMarker_throws _ _ _ _ _ _ _ E).
Qed.

(** ** The requests of the applier, whatever the catalog answers

    Every request is sent once: a lookup that fails is not repeated, nor is
    a creation or the bulk update. *)

Lemma graphql_log req s :
  stash_log (snd (StashClient.graphql req s)) = stash_log s ++ [req].
Proof.
  unfold StashClient.graphql.
  destruct (stash_fault s (List.length (stash_log s))); [reflexivity|].
  destruct (perform req (catalog s)). reflexivity.
Qed.

Lemma getTagByName_log n s :
  exists o, fst (StashClient.getTagByName n s) = Returned o /\
            stash_log (snd (StashClient.getTagByName n s)) = stash_log s ++ [FindTag n].
Proof.
  unfold StashClient.getTagByName, try_catch, bind.
  assert (L := graphql_log (FindTag n) s).
  destruct (StashClient.graphql (FindTag n) s) as [[d | e] s']; cbn [fst snd] in *;
    eexists; split; try reflexivity; exact L.
Qed.

Lemma createTagIfNotExists_requests n s :
  exists o l,
    fst (StashClient.createTagIfNotExists n s) = Returned o /\
    stash_log (snd (StashClient.createTagIfNotExists n s)) = stash_log s ++ l /\
    (l = [FindTag n] \/ l = [FindTag n; CreateTag n]).
Proof.
  unfold StashClient.createTagIfNotExists, try_catch, bind.
  destruct (getTagByName_log n s) as (o & E & L).
  destruct (StashClient.getTagByName n s) as [[o' | e] s0]; cbn [fst snd] in *; [|discriminate].
  destruct o' as [t|].
  - exists (Some (tag_id t)), [FindTag n]. cbn. split; [reflexivity|]. split; [exact L|].
    left. reflexivity.
  - assert (L' := graphql_log (CreateTag n) s0).
    destruct (StashClient.graphql (CreateTag n) s0) as [[d | e] s1]; cbn [fst snd] in *.
    + destruct (d_tag d) as [t|]; cbn; eexists; exists [FindTag n; CreateTag n];
        (split; [reflexivity|]); (split; [rewrite L', L, <- app_assoc; reflexivity|]);
        right; reflexivity.
    + eexists. exists [FindTag n; CreateTag n]. cbn.
      split; [reflexivity|]. split; [rewrite L', L, <- app_assoc; reflexivity|].
      right. reflexivity.
Qed.

Lemma createTags_requests names : forall ids s,
  exists ids' l,
    fst (createTags names ids s) = Returned ids' /\
    stash_log (snd (createTags names ids s)) = stash_log s ++ l /\
    TagRequests names l.
Proof.
  induction names as [|n names IH]; intros ids s.
  - exists ids, []. cbn. rewrite app_nil_r. repeat split. constructor.
  - cbn [createTags]. unfold bind.
    destruct (createTagIfNotExists_requests n s) as (o & l & E & L & Hl).
    destruct (StashClient.createTagIfNotExists n s) as [[o' | e] s0]; cbn [fst snd] in *;
      [|discriminate].
    match goal with
    | |- context [createTags names ?i s0] =>
        destruct (IH i s0) as (ids' & l' & E' & L' & T')
    end.
    exists ids', (l ++ l'). split; [exact E'|].
    split; [rewrite L', L, app_assoc; reflexivity|].
    destruct Hl as [-> | ->]; cbn; constructor; exact T'.
Qed.

(** The tag step: the lookups and creations of the tag names, then at most
    one bulk update. *)
Lemma applyTags_requests item result s s1 :
  applyTags item scenes result s = (Returned tt, s1) ->
  exists l bulk,
    stash_log s1 = stash_log s ++ l ++ bulk /\
    TagRequests (r_tags result) l /\
    (bulk = [] \/ exists ids, bulk = [BulkSceneUpdate item ids]).
Proof.
  unfold applyTags. intros H.
  destruct (r_tags result) as [|n0 names0] eqn:Er.
  - cbn in H. inversion H; subst. exists [], []. cbn. rewrite app_nil_r.
    repeat split; [constructor | left; reflexivity].
  - cbn [nonempty] in H. rewrite <- Er in *. unfold bind in H.
    destruct (createTags_requests (r_tags result) [] s) as (ids & l & E & L & T).
    destruct (createTags (r_tags result) [] s) as [[ids' | e] s0]; cbn [fst snd] in *;
      [|discriminate].
    inversion E; subst ids'.
    destruct (nonempty ids).
    + unfold StashClient.addTagsToScene, try_catch, bind in H.
      assert (L' := graphql_log (BulkSceneUpdate item ids) s0).
      destruct (StashClient.graphql (BulkSceneUpdate item ids) s0) as [[d | e] s']; [|discriminate].
      cbn in H. inversion H; subst. cbn [snd] in L'.
      exists l, [BulkSceneUpdate item ids]. split; [rewrite L', L, <- app_assoc; reflexivity|].
      split; [exact T|]. right. exists ids. reflexivity.
    + cbn in H. inversion H; subst. exists l, []. rewrite app_nil_r.
      split; [exact L|]. split; [exact T | left; reflexivity].
Qed.

Lemma markerTagIds_log names : forall ids s,
  stash_log (snd (StashClient.markerTagIds names ids s)) = stash_log s ++ map FindTag names.
Proof.
  induction names as [|n names IH]; intros ids s.
  - cbn. rewrite app_nil_r. reflexivity.
  - cbn [StashClient.markerTagIds map]. unfold bind at 1.
    destruct (getTagByName_log n s) as (o & E & L).
    destruct (StashClient.getTagByName n s) as [[o' | e] s0]; cbn [fst snd] in *; [|discriminate].
    rewrite IH, L, <- app_assoc. reflexivity.
Qed.

Lemma createSceneMarker_requests i t sec names s :
  exists ids,
    stash_log (snd (StashClient.createSceneMarker i t sec names s))
    = stash_log s ++ map FindTag names ++ [CreateSceneMarker i t sec ids].
Proof.
  unfold StashClient.createSceneMarker, bind at 1.
  assert (L := markerTagIds_log names [] s).
  destruct (markerTagIds_Total names [] s) as (ids & s0 & E0). rewrite E0 in *.
  cbn [snd] in L. unfold try_catch, bind.
  assert (L' := graphql_log (CreateSceneMarker i t sec ids) s0).
  exists ids.
  destruct (StashClient.graphql (CreateSceneMarker i t sec ids) s0) as [[d | e] s1];
    cbn [snd ret throw] in *; rewrite L', L, <- app_assoc; reflexivity.
Qed.

(** The marker step that throws: the markers up to the failing one, each
    submitted once. *)
Lemma createMarkers_requests i ms : forall s e s',
  createMarkers i ms s = (Thrown e, s') ->
  exists j l,
    1 <= j <= List.length ms /\
    stash_log s' = stash_log s ++ l /\
    MarkerRequests i (firstn j ms) l.
Proof.
  induction ms as [|m ms IH]; intros s e s' H; [discriminate|].
  cbn [createMarkers] in H. unfold bind at 1 in H.
  destruct (createSceneMarker_requests i (mk_title m) (mk_seconds m)
              (match mk_tags m with Some l => l | None => [] end) s) as (ids & L).
  destruct (StashClient.createSceneMarker i (mk_title m) (mk_seconds m) _ s)
    as [[r | e0] s0] eqn:E; cbn [snd] in L.
  - destruct (IH _ _ _ H) as (j & l & Hj & L' & R).
    exists (Datatypes.S j).
    exists (map FindTag (match mk_tags m with Some l => l | None => [] end)
            ++ CreateSceneMarker i (mk_title m) (mk_seconds m) ids :: l).
    split; [cbn; lia|].
    split; [rewrite L', L, <- !app_assoc; reflexivity|].
    cbn [firstn]. constructor. exact R.
  - inversion H; subst. exists 1.
    exists (map FindTag (match mk_tags m with Some l => l | None => [] end)
            ++ [CreateSceneMarker i (mk_title m) (mk_seconds m) ids]).
    split; [cbn; lia|].
    split; [exact L|]. cbn [firstn]. constructor. constructor.
Qed.

End ApplierFacts.

(* ===================================================================== *)
(** * The result applier: idempotence and partial application *)
(* ===================================================================== *)

Module ApplierTheorems.
Import Js Environment World Observe Hoare HoareFacts Frames ClientFacts.
Import BatchProcessor Pipeline ItemFacts CatalogSpec CatalogFacts ApplierFacts.
Local Open Scope list_scope.




(** C8, the counterexample: scene "1" is processed while the catalog rejects
    the marker.  Both tags stay attached, but the mutation is sent once, not
    retried, and the item as a whole is recorded as failed: it is in
    [errors], not in [results], and counts as failed. *)
Lemma marker_failure_fails_the_item :
  match Scenario.finalOf
          (startProcessing Scenario.props0 Scenario.hands_off ApplierScenario.oneScene) with
  | Some a =>
      errors (comp a) = [Failure "1" "GraphQL errors: marker rejected"]%string /\
      results (comp a) = [] /\
      failed (progress (comp a)) = 1 /\ completed (progress (comp a)) = 0 /\
      scene_tags (catalog (env (world a))) = [("1", 1%N); ("1", 2%N)]%string /\
      List.length (filter is_createMarker (stash_log (env (world a)))) = 1
  | None => False
  end.
Proof. vm_compute. repeat split. Qed.

(** C8 (as amended).  When the tags of an outcome were attached and a marker
    creation then fails, nothing is rolled back: the tags and what is
    attached stay as the tag step left them.  No sub-step is retried.  The
    tag step sent, for each tag name, one lookup and at most one creation,
    and then at most one bulk update; the marker step sent, for each marker
    up to the failing one, the lookups of its tag names and one
    [createSceneMarker] mutation.  The failing mutation is the last request:
    the applier stops there and throws that error; [processItem] passes it
    on, so the item as a whole is recorded as failed, with the message of
    the marker error. *)
Theorem marker_failure_keeps_tags (item : ItemId) (result : ProcessResult)
    (s s1 s2 : Env) (e : JsThrow) :
  applyTags item scenes result s = (Returned tt, s1) ->
  applyMarkers item scenes result s1 = (Thrown e, s2) ->
  applyResultsToStash item scenes (Some result) s = (Thrown e, s2) /\
  tags (catalog s2) = tags (catalog s1) /\
  scene_tags (catalog s2) = scene_tags (catalog s1) /\
  image_tags (catalog s2) = image_tags (catalog s1) /\
  (exists lt bulk,
     stash_log s1 = stash_log s ++ lt ++ bulk /\
     TagRequests (r_tags result) lt /\
     (bulk = [] \/ exists ids, bulk = [BulkSceneUpdate item ids])) /\
  (exists j lm,
     1 <= j <= List.length (r_markers result) /\
     stash_log s2 = stash_log s1 ++ lm /\
     MarkerRequests item (firstn j (r_markers result)) lm) /\
  exists err,
    e = ThrowError err /\
    (exists pre req,
       stash_log s2 = pre ++ [req] /\ is_createMarker req = true /\
       stash_fault s2 (List.length pre) = Some err) /\
    forall props w resp,
      remoteCall props item scenes (env w) = (Returned resp, s) ->
      NSFWTaggerClient.pr_success resp = true ->
      NSFWTaggerClient.pr_result resp = Some result ->
      processItemCaught props scenes item w
      = (Returned (Failure item (e_message err)), with_env s2 (afterCall w s)).
Proof.
  intros Ht Hm.
  assert (Happ : applyResultsToStash item scenes (Some result) s = (Thrown e, s2))
    by (rewrite applyResultsToStash_unfold, Ht; exact Hm).
  destruct (applyMarkers_tagsKept _ _ _ _ _ _ Hm) as (K1 & _ & K3 & K4).
  split; [exact Happ|]. split; [exact K1|]. split; [exact K3|]. split; [exact K4|].
  split; [exact (applyTags_requests _ _ _ _ Ht)|].
  unfold applyMarkers in Hm.
  destruct (nonempty (r_markers result)); [|discriminate].
  split; [exact (createMarkers_requests _ _ _ _ _ Hm)|].
  destruct (createMarkers_throws _ _ _ _ _ Hm) as (err & pre & req & -> & L & C & F).
  exists err. split; [reflexivity|]. split; [exists pre, req; repeat split; assumption|].
  intros props w resp Hcall Hs Hr.
  unfold processItemCaught, try_catch.
  rewrite (processItem_unfold _ _ _ _ _ _ Hcall), Hs, Hr. cbn [negb].
  rewrite Happ. reflexivity.
Qed.

(** The theorem on scene "1" with the catalog that rejects the marker. *)
Lemma marker_failure_keeps_tags_witness :
  let s1 := snd (applyTags "1"%string scenes Scenario.analysis ApplierScenario.faultyEnv) in
  let s2 := snd (applyMarkers "1"%string scenes Scenario.analysis s1) in
  scene_tags (catalog s2) = [("1", 1%N); ("1", 2%N)]%string /\
  exists err,
    applyResultsToStash "1"%string scenes (Some Scenario.analysis) ApplierScenario.faultyEnv
    = (Thrown (ThrowError err), s2) /\
    exists pre req, stash_log s2 = pre ++ [req] /\ is_createMarker req = true.
Proof.
  cbv zeta.
  set (s1 := snd (applyTags "1"%string scenes Scenario.analysis ApplierScenario.faultyEnv)).
  set (s2 := snd (applyMarkers "1"%string scenes Scenario.analysis s1)).
  destruct (marker_failure_keeps_tags "1"%string Scenario.analysis ApplierScenario.faultyEnv
              s1 s2 (ThrowError (Error "GraphQL errors: marker rejected")))
    as (Happ & _ & K3 & _ & _ & _ & err & He & (pre & req & L & C & _) & _).
  - vm_compute. reflexivity.
  - vm_compute. reflexivity.
  - split; [rewrite K3; vm_compute; reflexivity|].
    exists err. split; [rewrite <- He; exact Happ|]. exists pre, req. split; assumption.
Defined.

End ApplierTheorems.

(* ===================================================================== *)
(** * Partial failure *)
(* ===================================================================== *)

Module PartialFailure.
Import Js Environment World Observe Hoare HoareFacts Frames ClientFacts.
Import BatchProcessor Pipeline ItemFacts Chunks BatchFacts Dispatch DispatchFacts RunFacts.
Import CatalogSpec CatalogFacts ApplierFacts Partial.
Local Open Scope list_scope.

Lemma failsOnlyOn_stable bad txt s s' :
  sameOracles s s' -> failsOnlyOn bad txt s -> failsOnlyOn bad txt s'.
Proof.
  intros [O1 O2] (H1 & H2 & H3). unfold failsOnlyOn, noFaults. rewrite O1, O2.
  repeat split; assumption.
Qed.

(** The remote call of an item, under such a container. *)
Lemma remoteCall_payload props i ty :
  exists req,
    payloadItem req = Some i /\
    remoteCall props i ty
    = try_catch
        (bind (NSFWTaggerClient.request (nsfwClient props) req)
           (fun result =>
              ret {| NSFWTaggerClient.pr_success := true;
                     NSFWTaggerClient.pr_result := Some (NSFWTaggerClient.rr_data result);
                     NSFWTaggerClient.pr_error := None |}))
        (fun error =>
           bind (message_of error)
             (fun m => ret {| NSFWTaggerClient.pr_success := false;
                              NSFWTaggerClient.pr_result := None;
                              NSFWTaggerClient.pr_error := Some m |})).
Proof. destruct ty; eexists; (split; [|reflexivity]); reflexivity. Qed.

Lemma remoteCall_500 props i ty s txt :
  (forall n req, payloadItem req = Some i -> exists d, remote s n req = HttpResponse 500 txt d) ->
  exists s1,
    remoteCall props i ty s
    = (Returned {| NSFWTaggerClient.pr_success := false;
                   NSFWTaggerClient.pr_result := None;
                   NSFWTaggerClient.pr_error := Some ("HTTP 500: " ++ txt)%string |}, s1).
Proof.
  intros H. destruct (remoteCall_payload props i ty) as (req & Hp & ->).
  destruct (H (List.length (remote_log s)) req Hp) as (d & Hr).
  unfold try_catch, bind, NSFWTaggerClient.request. rewrite Hr. cbn. eexists. reflexivity.
Qed.

Lemma remoteCall_ok props i ty s :
  (forall n req, payloadItem req = Some i ->
                 exists st tx d, remote s n req = HttpResponse st tx d /\ ok st = true) ->
  exists d s1,
    remoteCall props i ty s
    = (Returned {| NSFWTaggerClient.pr_success := true;
                   NSFWTaggerClient.pr_result := Some d;
                   NSFWTaggerClient.pr_error := None |}, s1).
Proof.
  intros H. destruct (remoteCall_payload props i ty) as (req & Hp & ->).
  destruct (H (List.length (remote_log s)) req Hp) as (st & tx & d & Hr & Hok).
  unfold try_catch, bind, NSFWTaggerClient.request. rewrite Hr, Hok. cbn.
  eexists. eexists. reflexivity.
Qed.

Lemma processItemCaught_expected props ty bad txt i w r w' :
  failsOnlyOn bad txt (env w) ->
  processItemCaught props ty i w = (Returned r, w') -> expected bad txt i r.
Proof.
  intros (H1 & H2 & H3) E. unfold processItemCaught, try_catch in E. split.
  - intros ->. destruct (remoteCall_500 props bad ty (env w) txt H1) as (s1 & Hc).
    rewrite (processItem_unfold _ _ _ _ _ _ Hc) in E. cbn in E. inversion E. reflexivity.
  - intros Hne.
    destruct (remoteCall_ok props i ty (env w)) as (d & s1 & Hc).
    { intros n req Hp. exact (H2 n req i Hp Hne). }
    assert (NF1 : noFaults s1).
    { destruct (remoteCall_sameOracles _ _ _ _ _ _ Hc) as [_ O2].
      intros n. rewrite O2. apply H3. }
    rewrite (processItem_unfold _ _ _ _ _ _ Hc) in E. cbn [negb NSFWTaggerClient.pr_success
      NSFWTaggerClient.pr_result] in E.
    destruct (applyResultsToStash_ok i ty d s1 NF1) as (s2 & Ha & _).
    rewrite Ha in E. inversion E. reflexivity.
Qed.

(** With one failing id in a list without duplicates, the failures are that
    one and the successes are the others, in order. *)
Lemma outcomes_without bad msg : forall rs,
  ~ In bad (map id rs) ->
  Forall (fun r => (id r = bad -> r = Failure bad msg) /\ (id r <> bad -> success r = true)) rs ->
  filter (fun r => negb (success r)) rs = [] /\
  map id (filter success rs) = filter (fun i => negb (String.eqb i bad)) (map id rs).
Proof.
  induction rs as [|r rs IH]; intros Hn Hf; [split; reflexivity|].
  inversion Hf as [|r' rs' [_ Hr] Hrs]; subst.
  assert (Hne : id r <> bad) by (intros E; apply Hn; left; exact E).
  destruct IH as [I1 I2]; [intros H; apply Hn; right; exact H | exact Hrs |].
  cbn. rewrite (Hr Hne). cbn.
  destruct (String.eqb_spec (id r) bad) as [E | _]; [contradiction|]. cbn.
  split; [exact I1 | rewrite I2; reflexivity].
Qed.

Lemma outcomes_one_failure bad msg : forall rs,
  NoDup (map id rs) -> In bad (map id rs) ->
  Forall (fun r => (id r = bad -> r = Failure bad msg) /\ (id r <> bad -> success r = true)) rs ->
  filter (fun r => negb (success r)) rs = [Failure bad msg] /\
  map id (filter success rs) = filter (fun i => negb (String.eqb i bad)) (map id rs).
Proof.
  induction rs as [|r rs IH]; intros Hnd Hin Hf; [contradiction|].
  inversion Hf as [|r' rs' [Hb Hr] Hrs]; subst.
  cbn in Hnd. inversion Hnd as [|x l Hx Hnd']; subst.
  destruct (String.eqb_spec (id r) bad) as [E | NE].
  - rewrite (Hb E) in *. cbn in E, Hx |- *. rewrite String.eqb_refl. cbn.
    destruct (outcomes_without bad msg rs Hx Hrs) as [I1 I2]. rewrite I1. split; [reflexivity | exact I2].
  - destruct Hin as [Hin | Hin]; [contradiction|].
    destruct (IH Hnd' Hin Hrs) as [I1 I2].
    cbn. rewrite (Hr NE). cbn.
    destruct (String.eqb_spec (id r) bad) as [E | _]; [contradiction|]. cbn.
    split; [exact I1 | rewrite I2; reflexivity].
Qed.

(** C2, the counterexample: five scenes, the container answers HTTP 500 to
    every request for scene 3.  The report counts four successes and one
    failure, but the failure entry holds [id], [success] and [error] only,
    with no [source] and no [retryable], and the processing call for scene 3
    was made once, not [maxRetries] = 3 times: [processScene] turns the HTTP
    error into a return value, which the retry loop takes for a success. *)
Lemma failure_entry_and_attempts :
  match Scenario.finalOf
          (startProcessing Scenario.props0 Scenario.hands_off Scenario.app0) with
  | Some a =>
      completed (progress (comp a)) = 4 /\ failed (progress (comp a)) = 1 /\
      errors (comp a) = [Failure "3" "HTTP 500: Internal Server Error"]%string /\
      Forall (fun r => field r "source"%string = None /\ field r "retryable"%string = None)
        (errors (comp a)) /\
      processingCalls "3"%string (remote_log (env (world a))) = 1 /\
      NSFWTaggerClient.default_maxRetries = 3 /\
      ~ (Forall (fun r => field r "retryable"%string = Some (VBool true)) (errors (comp a)) /\
         processingCalls "3"%string (remote_log (env (world a)))
         = NSFWTaggerClient.default_maxRetries)
  | None => False
  end.
Proof.
  vm_compute. repeat split; try (constructor; [split; reflexivity | constructor]).
  intros [_ H]. discriminate H.
Qed.

(** C2 (as amended).  In a batch in which the processing call of one item
    always returns HTTP 500 and every other item succeeds, the final report
    lists exactly that item as failed and all others as successful, whether
    or not the run is cancelled on the way; the failure entry carries the id
    of the item, [success = false] and the message of the HTTP error, and no
    [source] or [retryable] field.  When the cancel action is not invoked,
    the counters agree with the lists: one failed, all others completed. *)
Theorem one_failing_item (props : Props) (ui : nat -> list UiEvent) (a : App)
    (bad : ItemId) (txt : string) :
  NoDup (selectedItems (comp a)) ->
  In bad (selectedItems (comp a)) ->
  1 <= batchSize props ->
  connectionValid props a = true ->
  failsOnlyOn bad txt (env (world a)) ->
  exists a',
    startProcessing props ui a = Done a' /\
    errors (comp a') = [Failure bad ("HTTP 500: " ++ txt)%string] /\
    map id (results (comp a'))
    = filter (fun i => negb (String.eqb i bad)) (selectedItems (comp a)) /\
    Forall (fun r =>
              field r "id"%string = Some (VString bad) /\
              field r "success"%string = Some (VBool false) /\
              field r "error"%string = Some (VString ("HTTP 500: " ++ txt)%string) /\
              field r "source"%string = None /\ field r "retryable"%string = None)
      (errors (comp a')) /\
    ((forall k, hasCancel (ui k) = false) ->
     failed (progress (comp a')) = 1 /\
     completed (progress (comp a')) = List.length (selectedItems (comp a)) - 1).
Proof.
  intros Hnd Hin Hb Hv HO.
  assert (Hsel : selectedItems (comp a) <> []) by (intros E; rewrite E in Hin; contradiction).
  destruct (startProcessing_runs props ui (failsOnlyOn bad txt) (expected bad txt)
              (failsOnlyOn_stable bad txt) a
              (fun i w r w' => processItemCaught_expected props (type (comp a)) bad txt i w r w')
              HO Hsel Hb Hv)
    as (batches & a2 & a3 & rs & Eb & Hcat & Hch & Hc2 & Hh2 & _ & E3 & Es & Hids & HQ
        & Hres & Herr & _).
  rewrite <- Hids in Hnd, Hin.
  destruct (outcomes_one_failure bad ("HTTP 500: " ++ txt)%string rs Hnd Hin HQ) as [F1 F2].
  exists (setState stoppedState (stopProgressTracking a3)).
  split; [exact Es|]. cbn.
  split; [rewrite Herr, F1; reflexivity|].
  split; [rewrite Hres, F2, Hids; reflexivity|].
  split; [rewrite Herr, F1; constructor; [|constructor]; repeat split|].
  intros Hq.
  destruct (processBatches_counts props ui (type (comp a)) batches 0 a2 a3)
    as (T & _ & Cc & Fc & _); [intros j _; apply Hq | exact E3 |].
  rewrite Hc2 in Cc, Fc. cbn in Cc, Fc.
  assert (Hl := filter_split_length success rs).
  assert (Hn : List.length rs = List.length (selectedItems (comp a)))
    by (rewrite <- Hids, length_map; reflexivity).
  rewrite Hres in Cc. rewrite Herr in Fc. rewrite F1 in *. cbn in Fc, Hl.
  split; lia.
Qed.

(** The theorem on five scenes of which the third fails: in a run that is
    cancelled while the first batch is in flight the lists are as stated,
    and in a run that is left alone the counters are 1 and 4 as well. *)
Lemma one_failing_item_witness :
  (exists a',
     startProcessing Scenario.props0 Scenario.cancel_early app3 = Done a' /\
     errors (comp a') = [Failure "3" "HTTP 500: Internal Server Error"]%string /\
     map id (results (comp a')) = ["1"; "2"; "4"; "5"]%string) /\
  (exists a',
     startProcessing Scenario.props0 Scenario.hands_off app3 = Done a' /\
     errors (comp a') = [Failure "3" "HTTP 500: Internal Server Error"]%string /\
     failed (progress (comp a')) = 1 /\ completed (progress (comp a')) = 4).
Proof.
  assert (HO : failsOnlyOn "3"%string "Internal Server Error"%string (env (world app3))).
  { split; [|split].
    - intros n req Hp. cbn. unfold failsOn. rewrite Hp. cbn. eexists. reflexivity.
    - intros n req i Hp Hne. cbn. unfold failsOn. rewrite Hp.
      destruct (String.eqb_spec i "3"%string) as [E|_]; [contradiction|].
      eexists. eexists. eexists. split; reflexivity.
    - intros n. reflexivity. }
  assert (Hnd : NoDup (selectedItems (comp app3)))
    by (cbn; repeat constructor; cbn; intuition discriminate).
  assert (Hin : In "3"%string (selectedItems (comp app3))) by (cbn; auto).
  assert (Hb : 1 <= batchSize Scenario.props0) by (cbn; lia).
  assert (Hv : connectionValid Scenario.props0 app3 = true) by (vm_compute; reflexivity).
  split.
  - destruct (one_failing_item Scenario.props0 Scenario.cancel_early app3
                "3"%string "Internal Server Error"%string Hnd Hin Hb Hv HO)
      as (a' & E & He & Hr & _).
    exists a'. split; [exact E|]. split; [exact He | exact Hr].
  - destruct (one_failing_item Scenario.props0 Scenario.hands_off app3
                "3"%string "Internal Server Error"%string Hnd Hin Hb Hv HO)
      as (a' & E & He & _ & _ & Hc).
    destruct Hc as [Hf Hc]; [intros k; reflexivity|].
    exists a'. split; [exact E|]. split; [exact He|]. split; [exact Hf | exact Hc].
Defined.

End PartialFailure.

(* ===================================================================== *)
(** * The retry loops: how they end *)
(* ===================================================================== *)

Module RetryOutcomes.
Import Js World Observe RetryShape RetryFacts.
Local Open Scope list_scope.

(** How the loop ends, with its counts: at an attempt [j] whose invocation
    and settlement are the last events, after [j - attempt] sleeps.  One
    value of [Math.random] is drawn per sleep, and one more when the warning
    throws. *)
Lemma retryRequest_loop_ends {S A} (requestFn : M S A) maxRetries baseDelay :
  forall fuel attempt lastError (w : World S),
  1 <= fuel -> attempt + fuel = maxRetries + 1 ->
  exists j pre last,
    attempt <= j <= maxRetries /\
    trace (snd (NSFWTaggerClient.retryRequest_loop requestFn maxRetries baseDelay
                  fuel attempt lastError w))
    = trace w ++ pre ++ [Invoke j; Settle j last] /\
    invocations (pre ++ [Invoke j; Settle j last]) = j + 1 - attempt /\
    sleeps (pre ++ [Invoke j; Settle j last]) = j - attempt /\
    ((exists a,
        fst (NSFWTaggerClient.retryRequest_loop requestFn maxRetries baseDelay
               fuel attempt lastError w) = Returned a /\ last = None /\
        draws (snd (NSFWTaggerClient.retryRequest_loop requestFn maxRetries baseDelay
                      fuel attempt lastError w)) = draws w + (j - attempt)) \/
     (exists e,
        fst (NSFWTaggerClient.retryRequest_loop requestFn maxRetries baseDelay
               fuel attempt lastError w) = Thrown e /\ last = Some e /\ j = maxRetries /\
        draws (snd (NSFWTaggerClient.retryRequest_loop requestFn maxRetries baseDelay
                      fuel attempt lastError w)) = draws w + (j - attempt)) \/
     (fst (NSFWTaggerClient.retryRequest_loop requestFn maxRetries baseDelay
             fuel attempt lastError w) = Thrown (ThrowError noMessage) /\
      last = Some ThrowUndefined /\ j < maxRetries /\
      draws (snd (NSFWTaggerClient.retryRequest_loop requestFn maxRetries baseDelay
                    fuel attempt lastError w)) = draws w + (j - attempt) + 1)).
Proof.
  induction fuel as [|fuel IH]; intros attempt lastError w Hf Hsum; [lia|].
  cbn [NSFWTaggerClient.retryRequest_loop].
  destruct (Nat.ltb_spec maxRetries attempt) as [Hlt | Hge]; [lia|].
  destruct (requestFn (env (emit (Invoke attempt) w))) as [[a | error] s'].
  - exists attempt, [], None. cbn. rewrite <- app_assoc.
    split; [lia|]. split; [reflexivity|]. split; [lia|]. split; [lia|].
    left. exists a. repeat split. lia.
  - destruct (Nat.eqb_spec attempt maxRetries) as [Heq | Hne].
    + exists attempt, [], (Some error). cbn. rewrite <- app_assoc.
      split; [lia|]. split; [reflexivity|]. split; [lia|]. split; [lia|].
      right. left. exists error. repeat split; [exact Heq | lia].
    + cbn [MathRandom]. destruct error as [err|]; cbn [message_of ret throw].
      * match goal with
        | |- context [NSFWTaggerClient.retryRequest_loop _ _ _ fuel ?a ?e ?w4] =>
            destruct (IH a e w4) as (j & pre & last & Hj & Ht & Hi & Hs & Hend);
            [lia | lia |]; set (w' := w4) in *
        end.
        exists j, (Invoke attempt :: Settle attempt (Some (ThrowError err))
                   :: Warn attempt (backoff baseDelay attempt (random w (draws w)))
                   :: Sleep (backoff baseDelay attempt (random w (draws w))) :: pre), last.
        split; [lia|].
        split; [rewrite Ht; unfold w'; cbn; rewrite <- !app_assoc; reflexivity|].
        split; [unfold invocations in *; cbn; rewrite Hi; lia|].
        split; [unfold sleeps in *; cbn; rewrite Hs; lia|].
        assert (Ed : draws w' = Datatypes.S (draws w)) by reflexivity.
        destruct Hend as [(a & E1 & E2 & E3) | [(e & E1 & E2 & E3 & E4) | (E1 & E2 & E3 & E4)]].
        -- left. exists a. repeat split; try assumption. rewrite E3, Ed. lia.
        -- right. left. exists e. repeat split; try assumption. rewrite E4, Ed. lia.
        -- right. right. repeat split; try assumption. rewrite E4, Ed. lia.
      * exists attempt, [], (Some ThrowUndefined). cbn. rewrite <- app_assoc.
        split; [lia|]. split; [reflexivity|]. split; [lia|]. split; [lia|].
        right. right. repeat split; lia.
Qed.

(** X1.  When a retry loop ([retryRequest] or [retryOperation]) rejects, it
    is in one of three ways.  With [maxRetries = 0] the operation is not
    invoked at all and the loop rejects with [undefined], the initial value
    of [lastError].  With [maxRetries >= 1] it has either used up its
    attempts: the operation was invoked exactly [maxRetries] times, the loop
    slept [maxRetries - 1] times (drawing one value of [Math.random] per
    sleep), and the value it rejects with is the one the operation threw at
    the last attempt; or the operation rejected with [undefined] at an
    attempt [k < maxRetries]: then the loop rejects with the [TypeError] of
    the read of [error.message], after [k] invocations and [k - 1] sleeps
    ([k] values of [Math.random] are drawn, the last one for a delay that is
    never slept). *)
Theorem retry_rejects_with_the_last_error {S A} (requestFn : M S A) (maxRetries : nat)
    (baseDelay : Q) (loop : M (World S) A) (w : World S) (e : JsThrow) :
  loop = NSFWTaggerClient.retryRequest requestFn maxRetries baseDelay \/
  loop = ErrorHandler.retryOperation requestFn maxRetries baseDelay ->
  fst (loop w) = Thrown e ->
  (maxRetries = 0 /\ e = ThrowUndefined /\ snd (loop w) = w) \/
  (1 <= maxRetries /\
   exists pre,
     trace (snd (loop w))
     = trace w ++ pre ++ [Invoke maxRetries; Settle maxRetries (Some e)] /\
     invocations (pre ++ [Invoke maxRetries; Settle maxRetries (Some e)]) = maxRetries /\
     sleeps (pre ++ [Invoke maxRetries; Settle maxRetries (Some e)]) = maxRetries - 1 /\
     draws (snd (loop w)) = draws w + (maxRetries - 1)) \/
  (e = ThrowError noMessage /\
   exists k pre,
     1 <= k < maxRetries /\
     trace (snd (loop w))
     = trace w ++ pre ++ [Invoke k; Settle k (Some ThrowUndefined)] /\
     invocations (pre ++ [Invoke k; Settle k (Some ThrowUndefined)]) = k /\
     sleeps (pre ++ [Invoke k; Settle k (Some ThrowUndefined)]) = k - 1 /\
     draws (snd (loop w)) = draws w + k).
Proof.
  intros Hl He. rewrite (either_loop _ _ _ _ Hl w) in *. clear Hl loop.
  destruct maxRetries as [|m] eqn:Em.
  - left. cbn in He. inversion He. repeat split.
  - rewrite <- Em in *. right.
    destruct (retryRequest_loop_ends requestFn maxRetries baseDelay maxRetries 1
                ThrowUndefined w) as (j & pre & last & Hj & Ht & Hi & Hs & Hend);
      [lia | lia |].
    fold (NSFWTaggerClient.retryRequest requestFn maxRetries baseDelay) in Ht, Hend.
    rewrite He in Hend.
    destruct Hend as [(a & E1 & _) | [(e' & E1 & E2 & E3 & E4) | (E1 & E2 & E3 & E4)]].
    + discriminate.
    + inversion E1; subst e' last. rewrite E3 in *. left. split; [lia|].
      exists pre. split; [exact Ht|]. split; [lia|]. split; [lia|]. rewrite E4. lia.
    + inversion E1; subst last. right. split; [reflexivity|].
      exists j, pre. split; [lia|]. split; [exact Ht|]. split; [lia|]. split; [lia|].
      rewrite E4. lia.
Qed.

(** The theorem on an operation that always fails with a 404, three
    attempts: three invocations, two sleeps, the 404 comes out. *)
Lemma retry_rejects_with_the_last_error_witness :
  exists pre,
    trace (snd (ErrorHandler.retryOperation
                  (RetryScenario.alwaysFails RetryScenario.notFound) 3 1000
                  RetryScenario.quiet))
    = pre ++ [Invoke 3; Settle 3 (Some (ThrowError RetryScenario.notFound))] /\
    invocations (pre ++ [Invoke 3; Settle 3 (Some (ThrowError RetryScenario.notFound))]) = 3 /\
    sleeps (pre ++ [Invoke 3; Settle 3 (Some (ThrowError RetryScenario.notFound))]) = 2.
Proof.
  destruct (retry_rejects_with_the_last_error
              (RetryScenario.alwaysFails RetryScenario.notFound) 3 1000
              (ErrorHandler.retryOperation
                 (RetryScenario.alwaysFails RetryScenario.notFound) 3 1000)
              RetryScenario.quiet (ThrowError RetryScenario.notFound))
    as [(H0 & _) | [(_ & pre & Ht & Hi & Hs & _) | (H0 & _)]].
  - right. reflexivity.
  - vm_compute. reflexivity.
  - discriminate H0.
  - exists pre. split; [exact Ht|]. split; [exact Hi | exact Hs].
  - discriminate H0.
Defined.

(** X2.  When a retry loop resolves, it does so at the first attempt that
    succeeds: for some [k] between 1 and [maxRetries] the operation was
    invoked [k] times, the last invocation is the one that returned, and the
    loop slept [k - 1] times, once after each failure, drawing one value of
    [Math.random] per sleep. *)
Theorem retry_resolves_at_first_success {S A} (requestFn : M S A) (maxRetries : nat)
    (baseDelay : Q) (loop : M (World S) A) (w : World S) (a : A) :
  loop = NSFWTaggerClient.retryRequest requestFn maxRetries baseDelay \/
  loop = ErrorHandler.retryOperation requestFn maxRetries baseDelay ->
  fst (loop w) = Returned a ->
  exists k pre,
    1 <= k <= maxRetries /\
    trace (snd (loop w)) = trace w ++ pre ++ [Invoke k; Settle k None] /\
    invocations (pre ++ [Invoke k; Settle k None]) = k /\
    sleeps (pre ++ [Invoke k; Settle k None]) = k - 1 /\
    draws (snd (loop w)) = draws w + (k - 1).
Proof.
  intros Hl He. rewrite (either_loop _ _ _ _ Hl w) in *. clear Hl loop.
  destruct maxRetries as [|m] eqn:Em; [cbn in He; discriminate|].
  rewrite <- Em in *.
  destruct (retryRequest_loop_ends requestFn maxRetries baseDelay maxRetries 1
              ThrowUndefined w) as (j & pre & last & Hj & Ht & Hi & Hs & Hend);
    [lia | lia |].
  fold (NSFWTaggerClient.retryRequest requestFn maxRetries baseDelay) in Ht, Hend.
  rewrite He in Hend.
  destruct Hend as [(a' & _ & E2 & E3) | [(e' & E1 & _) | (E1 & _)]]; try discriminate.
  subst last. exists j, pre. split; [lia|]. split; [exact Ht|].
  split; [lia|]. split; [lia|]. rewrite E3. lia.
Qed.

(** The theorem on an operation that fails twice and then returns 7. *)
Lemma retry_resolves_at_first_success_witness :
  exists pre,
    trace (snd (NSFWTaggerClient.retryRequest
                  (ContainerScenario.failsFirst 2 RetryScenario.notFound 7) 3 1000
                  ContainerScenario.fresh))
    = pre ++ [Invoke 3; Settle 3 None] /\
    sleeps (pre ++ [Invoke 3; Settle 3 None]) = 2.
Proof.
  destruct (retry_resolves_at_first_success
              (ContainerScenario.failsFirst 2 RetryScenario.notFound 7) 3 1000
              (NSFWTaggerClient.retryRequest
                 (ContainerScenario.failsFirst 2 RetryScenario.notFound 7) 3 1000)
              ContainerScenario.fresh 7)
    as (k & pre & Hk & Ht & Hi & Hs & _).
  - left. reflexivity.
  - vm_compute. reflexivity.
  - assert (E : invocations (skipn 0 (trace (snd (NSFWTaggerClient.retryRequest
                  (ContainerScenario.failsFirst 2 RetryScenario.notFound 7) 3 1000
                  ContainerScenario.fresh)))) = 3) by (vm_compute; reflexivity).
    cbn [skipn] in E. rewrite Ht in E. cbn [ContainerScenario.fresh trace app] in E.
    rewrite Hi in E. subst k. exists pre. split; [exact Ht | exact Hs].
Defined.

End RetryOutcomes.

(* ===================================================================== *)
(** * The container client *)
(* ===================================================================== *)

Module ContainerFacts.
Import Js Environment World Observe Hoare HoareFacts Frames ClientFacts Answers.
Import BatchProcessor Pipeline.
Local Open Scope list_scope.

(** What [request] does: the request is logged, nothing else changes, and it
    resolves exactly when the response is ok. *)
Lemma request_spec c req s :
  let s' := {| remote := remote s; remote_log := remote_log s ++ [req];
               stash_fault := stash_fault s; stash_log := stash_log s;
               catalog := catalog s |} in
  (answersOk (remote s (List.length (remote_log s)) req) = true /\
   exists rr, NSFWTaggerClient.request c req s = (Returned rr, s')) \/
  (answersOk (remote s (List.length (remote_log s)) req) = false /\
   exists err, NSFWTaggerClient.request c req s = (Thrown (ThrowError err), s')).
Proof.
  cbv zeta. unfold NSFWTaggerClient.request.
  destruct (remote s (List.length (remote_log s)) req) as [st tx d | st tx err | err];
    cbn [answersOk].
  - destruct (ok st); [left | right]; (split; [reflexivity|]); eexists; reflexivity.
  - right. split; [reflexivity|]. destruct (ok st); [|eexists; reflexivity].
    destruct (e_name err) as [nm|]; [|eexists; reflexivity].
    destruct nm as [|a0 nm]; [eexists; reflexivity|].
    repeat match goal with
           | |- context [match ?x with _ => _ end] => destruct x
           end; eexists; reflexivity.
  - right. split; [reflexivity|].
    destruct (e_name err) as [nm|]; [|eexists; reflexivity].
    destruct nm as [|a0 nm]; [eexists; reflexivity|].
    repeat match goal with
           | |- context [match ?x with _ => _ end] => destruct x
           end; eexists; reflexivity.
Qed.

(** A method of the shape [try { await this.request(...) ; return ok }
    catch (error) { return failed(error.message) }]. *)
Lemma guarded_request_spec {A} c req (good : NSFWTaggerClient.RequestResult -> A)
    (bad : string -> A) s :
  let s' := {| remote := remote s; remote_log := remote_log s ++ [req];
               stash_fault := stash_fault s; stash_log := stash_log s;
               catalog := catalog s |} in
  (answersOk (remote s (List.length (remote_log s)) req) = true /\
   exists rr,
     try_catch (bind (NSFWTaggerClient.request c req) (fun r => ret (good r)))
       (fun error => bind (message_of error) (fun m => ret (bad m))) s
     = (Returned (good rr), s')) \/
  (answersOk (remote s (List.length (remote_log s)) req) = false /\
   exists m,
     try_catch (bind (NSFWTaggerClient.request c req) (fun r => ret (good r)))
       (fun error => bind (message_of error) (fun m => ret (bad m))) s
     = (Returned (bad m), s')).
Proof.
  cbv zeta. unfold try_catch, bind.
  destruct (request_spec c req s) as [(Ha & rr & E) | (Ha & err & E)]; rewrite E.
  - left. split; [exact Ha|]. exists rr. reflexivity.
  - right. split; [exact Ha|]. exists (e_message err). reflexivity.
Qed.

(** [validateConnection], request by request. *)
Lemma validateConnection_spec (c : NSFWTaggerClient.Client) (s : Env) :
  let n := List.length (remote_log s) in
  let h := answersOk (remote s n healthReq) in
  let l := answersOk (remote s (Datatypes.S n) lmstudioReq) in
  exists v s',
    NSFWTaggerClient.validateConnection c s = (Returned v, s') /\
    NSFWTaggerClient.valid v = h && l /\
    remote_log s' = remote_log s ++ (if h then [healthReq; lmstudioReq] else [healthReq]) /\
    (h = false ->
     exists m, NSFWTaggerClient.v_error v = Some ("Container not reachable: " ++ m)%string) /\
    (h = true -> l = false ->
     exists m, NSFWTaggerClient.v_error v = Some ("LMStudio not connected: " ++ m)%string) /\
    (h = true -> l = true -> NSFWTaggerClient.v_error v = None) /\
    catalog s' = catalog s /\ stash_log s' = stash_log s /\
    remote s' = remote s /\ stash_fault s' = stash_fault s.
Proof.
  cbv zeta. unfold NSFWTaggerClient.validateConnection, NSFWTaggerClient.healthCheck,
    NSFWTaggerClient.testLMStudioConnection. unfold bind at 1.
  destruct (guarded_request_spec c healthReq
              (fun _ => {| NSFWTaggerClient.healthy := true; NSFWTaggerClient.h_error := None |})
              (fun m => {| NSFWTaggerClient.healthy := false;
                           NSFWTaggerClient.h_error := Some m |}) s)
    as [(Ha & rr & E) | (Ha & m & E)]; unfold healthReq in *; rewrite E, Ha; cbn [negb
      NSFWTaggerClient.healthy NSFWTaggerClient.h_error].
  - unfold bind at 1.
    match goal with
    | |- context [try_catch _ _ ?s1] =>
        destruct (guarded_request_spec c lmstudioReq
              (fun _ => {| NSFWTaggerClient.connected := true;
                           NSFWTaggerClient.c_error := None |})
              (fun m => {| NSFWTaggerClient.connected := false;
                           NSFWTaggerClient.c_error := Some m |}) s1)
          as [(Hb & rr' & E') | (Hb & m & E')]
    end; unfold lmstudioReq in *; cbn [remote remote_log] in Hb, E';
      rewrite length_app, Nat.add_comm in Hb; cbn [List.length Nat.add] in Hb;
      rewrite E', Hb; cbn.
    + eexists. eexists. split; [reflexivity|]. rewrite <- app_assoc. cbn.
      repeat split; try discriminate.
    + eexists. eexists. split; [reflexivity|]. rewrite <- app_assoc. cbn.
      repeat split; try discriminate. intros _ _. exists m. reflexivity.
  - eexists. eexists. split; [reflexivity|]. cbn.
    repeat split; try discriminate. intros _. exists m. reflexivity.
Qed.

(** X3.  [validateConnection] never rejects and contacts the container in
    order: it asks [/health] first, and asks [/test/lmstudio] only when the
    health request resolved, that is, was answered with an ok response whose
    body could be read ([answersOk]).  The connection is valid exactly when
    both requests resolved; otherwise the error names the check that failed.
    Nothing but the request log changes. *)
Theorem validateConnection_checks_in_order (c : NSFWTaggerClient.Client) (s : Env) :
  let n := List.length (remote_log s) in
  let h := answersOk (remote s n healthReq) in
  let l := answersOk (remote s (Datatypes.S n) lmstudioReq) in
  exists v s',
    NSFWTaggerClient.validateConnection c s = (Returned v, s') /\
    NSFWTaggerClient.valid v = h && l /\
    remote_log s' = remote_log s ++ (if h then [healthReq; lmstudioReq] else [healthReq]) /\
    (h = false ->
     exists m, NSFWTaggerClient.v_error v = Some ("Container not reachable: " ++ m)%string) /\
    (h = true -> l = false ->
     exists m, NSFWTaggerClient.v_error v = Some ("LMStudio not connected: " ++ m)%string) /\
    (h = true -> l = true -> NSFWTaggerClient.v_error v = None) /\
    catalog s' = catalog s /\ stash_log s' = stash_log s /\
    remote s' = remote s /\ stash_fault s' = stash_fault s.
Proof.
  cbv zeta.
  destruct (validateConnection_spec c s)
    as (v & s' & E & Hv & Hlog & H1 & H2 & H3 & Hc & Hs & Hr & Hf).
  exists v, s'. split; [exact E|]. split; [exact Hv|]. split; [exact Hlog|].
  split; [exact H1|]. split; [exact H2|]. split; [exact H3|].
  split; [exact Hc|]. split; [exact Hs|]. split; [exact Hr | exact Hf].
Qed.

End ContainerFacts.

(* ===================================================================== *)
(** * The batch component at its edges *)
(* ===================================================================== *)

Module RunEdges.
Import Js Environment World Observe Hoare HoareFacts Frames ClientFacts Answers.
Import BatchProcessor Pipeline Dispatch ContainerFacts.
Local Open Scope list_scope.

(** X4.  The retry wrappers of the processing calls never retry.
    [processScene] and [processImage] catch every failure of the request and
    resolve with [success: false], so for every [maxRetries >= 1] the loop of
    [processSceneWithRetry] and [processImageWithRetry] ends after its first
    invocation: exactly one request is sent to the container, there is no
    sleep, and the wrapper resolves with [success: true] exactly when the
    request resolved, that is, when the response was ok and its body could
    be read ([answersOk]). *)
Theorem processing_is_attempted_once (c : NSFWTaggerClient.Client) (itemId : ItemId)
    (so : SceneOptions) (io : ImageOptions) (maxRetries : nat) (w : World Env) :
  1 <= maxRetries ->
  let n := List.length (remote_log (env w)) in
  (exists r w',
     NSFWTaggerClient.processSceneWithRetry c itemId so maxRetries w = (Returned r, w') /\
     trace w' = trace w ++ [Invoke 1; Settle 1 None] /\ draws w' = draws w /\
     remote_log (env w') = remote_log (env w) ++ [sceneReq itemId so] /\
     NSFWTaggerClient.pr_success r = answersOk (remote (env w) n (sceneReq itemId so))) /\
  (exists r w',
     NSFWTaggerClient.processImageWithRetry c itemId io maxRetries w = (Returned r, w') /\
     trace w' = trace w ++ [Invoke 1; Settle 1 None] /\ draws w' = draws w /\
     remote_log (env w') = remote_log (env w) ++ [imageReq itemId io] /\
     NSFWTaggerClient.pr_success r = answersOk (remote (env w) n (imageReq itemId io))).
Proof.
  intros Hm. cbv zeta. destruct maxRetries as [|m]; [lia|]. split.
  - unfold NSFWTaggerClient.processSceneWithRetry.
    destruct (guarded_request_spec c (sceneReq itemId so)
                (fun result => {| NSFWTaggerClient.pr_success := true;
                                  NSFWTaggerClient.pr_result :=
                                    Some (NSFWTaggerClient.rr_data result);
                                  NSFWTaggerClient.pr_error := None |})
                (fun m => {| NSFWTaggerClient.pr_success := false;
                             NSFWTaggerClient.pr_result := None;
                             NSFWTaggerClient.pr_error := Some m |}) (env w))
      as [(Ha & x & E) | (Ha & x & E)];
      rewrite (retryRequest_of_returning _ _ _ _ _ _ E), Ha;
      eexists; eexists; (split; [reflexivity|]); repeat split.
  - unfold NSFWTaggerClient.processImageWithRetry.
    destruct (guarded_request_spec c (imageReq itemId io)
                (fun result => {| NSFWTaggerClient.pr_success := true;
                                  NSFWTaggerClient.pr_result :=
                                    Some (NSFWTaggerClient.rr_data result);
                                  NSFWTaggerClient.pr_error := None |})
                (fun m => {| NSFWTaggerClient.pr_success := false;
                             NSFWTaggerClient.pr_result := None;
                             NSFWTaggerClient.pr_error := Some m |}) (env w))
      as [(Ha & x & E) | (Ha & x & E)];
      rewrite (retryRequest_of_returning _ _ _ _ _ _ E), Ha;
      eexists; eexists; (split; [reflexivity|]); repeat split.
Qed.

(** The theorem on scene "3" of the five scenes, whose request is answered
    with HTTP 500: one request, no success. *)
Lemma processing_is_attempted_once_witness :
  exists r w',
    NSFWTaggerClient.processSceneWithRetry (nsfwClient Scenario.props0) "3"%string
      {| frame_interval := None; max_frames := None; shot_detection := None |} 3
      Scenario.world0 = (Returned r, w') /\
    trace w' = [Invoke 1; Settle 1 None] /\
    NSFWTaggerClient.pr_success r = false.
Proof.
  destruct (processing_is_attempted_once (nsfwClient Scenario.props0) "3"%string
              {| frame_interval := None; max_frames := None; shot_detection := None |}
              {| quality := None |} 3 Scenario.world0) as [(r & w' & E & Ht & _ & _ & Hs) _].
  - lia.
  - exists r, w'. split; [exact E|]. split; [exact Ht | exact Hs].
Defined.

Lemma processingCalls_app i l1 l2 :
  processingCalls i (l1 ++ l2) = processingCalls i l1 + processingCalls i l2.
Proof. unfold processingCalls. rewrite filter_app, length_app. reflexivity. Qed.

(** X5.  [startProcessing] does nothing unless something is selected and the
    connection checks pass: with an empty selection it returns at once,
    leaving everything as it is, the request log included; when
    [validateConnection] reports an invalid connection it returns after the
    checks, with the state of the component unchanged ([processing] is not
    set, the progress is not reset, [results] and [errors] are kept), no item
    started, no processing request sent and the catalog untouched. *)
Theorem startProcessing_needs_selection_and_connection (props : Props)
    (ui : nat -> list UiEvent) (a : App) :
  selectedItems (comp a) = [] \/ connectionValid props a = false ->
  exists a',
    startProcessing props ui a = Done a' /\
    comp a' = comp a /\ history a' = history a /\
    trace (world a') = trace (world a) /\
    catalog (env (world a')) = catalog (env (world a)) /\
    stash_log (env (world a')) = stash_log (env (world a)) /\
    (forall i, processingCalls i (remote_log (env (world a')))
               = processingCalls i (remote_log (env (world a)))) /\
    (selectedItems (comp a) = [] -> a' = a).
Proof.
  intros H. unfold startProcessing.
  destruct (selectedItems (comp a)) as [|i0 sel] eqn:Esel.
  - exists a. cbn. repeat split.
  - destruct H as [H | H]; [discriminate|]. cbn [List.length Nat.eqb].
    unfold connectionValid in H. unfold liftEnv.
    destruct (validateConnection_spec (nsfwClient props) (env (world a)))
      as (v & s' & E & _ & Hlog & _ & _ & _ & Hc & Hs & _).
    rewrite E in H |- *. cbn in H. rewrite H. cbn [negb].
    eexists. split; [reflexivity|]. cbn.
    split; [reflexivity|]. split; [reflexivity|]. split; [reflexivity|].
    split; [exact Hc|]. split; [exact Hs|]. split; [|discriminate].
    intros i. rewrite Hlog, processingCalls_app.
    destruct (answersOk _); cbn; lia.
Qed.

(** The theorem on the five scenes when the container refuses the
    connection. *)
Lemma startProcessing_needs_selection_and_connection_witness :
  exists a',
    startProcessing Scenario.props0 Scenario.hands_off
      {| comp := Scenario.fiveScenes;
         world := {| env := ContainerScenario.envOf ContainerScenario.refused;
                     random := fun _ => (1 # 2)%Q; draws := 0; trace := [] |};
         history := [] |} = Done a' /\
    comp a' = Scenario.fiveScenes /\ trace (world a') = [].
Proof.
  destruct (startProcessing_needs_selection_and_connection Scenario.props0 Scenario.hands_off
      {| comp := Scenario.fiveScenes;
         world := {| env := ContainerScenario.envOf ContainerScenario.refused;
                     random := fun _ => (1 # 2)%Q; draws := 0; trace := [] |};
         history := [] |}) as (a' & E & Hc & _ & Ht & _).
  - right. vm_compute. reflexivity.
  - exists a'. split; [exact E|]. split; [exact Hc | exact Ht].
Defined.

(** X6.  The cancel action of the component resets the interface whatever
    the container answers.  It sends exactly one [POST /cancel]; the client
    turns every failure of that request into a return value, which the
    component does not look at, so the [catch] with its alert is never
    reached: in every case [processing] becomes false, the progress becomes
    all zero with status "cancelled", the interval is cleared, and [results]
    and [errors] are kept as they were. *)
Theorem cancel_resets_whatever_the_container_answers (props : Props) (a : App) :
  exists s',
    cancelProcessing props a
    = {| comp := {| selectedItems := selectedItems (comp a); type := type (comp a);
                    processing := false;
                    progress := {| current := 0; total := 0; completed := 0; failed := 0;
                                   status := "cancelled" |};
                    results := results (comp a); errors := errors (comp a);
                    processingInterval := false |};
         world := {| env := s'; random := random (world a); draws := draws (world a);
                     trace := trace (world a) ++ [CancelSignal] |};
         history := history a ++ [cancelledState (comp a)] |} /\
    remote_log s' = remote_log (env (world a)) ++ [cancelReq] /\
    catalog s' = catalog (env (world a)) /\ stash_log s' = stash_log (env (world a)).
Proof.
  unfold cancelProcessing, liftEnv, NSFWTaggerClient.cancelProcessing.
  cbn [world with_world env emit].
  destruct (guarded_request_spec (nsfwClient props) cancelReq (fun _ => true)
              (fun _ => false) (env (world a))) as [(_ & x & E) | (_ & x & E)];
    unfold cancelReq in *.
  - rewrite E. eexists. split; [reflexivity|]. repeat split.
  - rewrite E. eexists. split; [reflexivity|]. repeat split.
Qed.

End RunEdges.

(* ===================================================================== *)
(** * Error classification, messages and delays *)
(* ===================================================================== *)

Module ClassificationFacts.
Import Js Environment World Answers Text ErrorMessages ContainerFacts.
Local Open Scope string_scope.

(** A match of a pattern cannot start inside a prefix that lacks the first
    character of the pattern. *)
Lemma includes_skip (c : ascii) (sub : string) :
  forall pre s, avoids c pre ->
    includes (pre ++ s) (String c sub) = includes s (String c sub).
Proof.
  induction pre as [|x pre IH]; intros s H; [reflexivity|].
  destruct H as [Hx Hp]. cbn [append includes String.prefix].
  destruct (ascii_dec c x) as [E | _]; [symmetry in E; contradiction|].
  apply IH, Hp.
Qed.

Lemma avoids_app c s1 s2 : avoids c s1 -> avoids c s2 -> avoids c (s1 ++ s2).
Proof.
  induction s1 as [|x s1 IH]; intros H1 H2; [exact H2|].
  destruct H1 as [Hx H1]. split; [exact Hx | apply IH; assumption].
Qed.

(** The decimal form of a number consists of digits. *)
Lemma avoids_digits (c : ascii) :
  uint_of_char c (Some Decimal.Nil) = None ->
  forall d, avoids c (NilEmpty.string_of_uint d).
Proof.
  intros Hc. induction d; cbn; try exact I;
    (split; [intros E; subst c; discriminate Hc | assumption]).
Qed.

Lemma avoids_toString (c : ascii) (n : N) :
  uint_of_char c (Some Decimal.Nil) = None -> avoids c (toString n).
Proof.
  intros Hc. unfold toString, NilZero.string_of_uint.
  destruct (N.to_uint n) eqn:E; try (rewrite <- E; apply avoids_digits, Hc);
    try (apply (avoids_digits c Hc (Decimal.D0 Decimal.Nil))).
Qed.

(** The message of an HTTP error contains a lower-case word exactly when
    the status text does. *)
Lemma includes_http (st : N) (tx : string) (c : ascii) (sub : string) :
  uint_of_char c (Some Decimal.Nil) = None ->
  avoids c "HTTP : " ->
  includes ("HTTP " ++ toString st ++ ": " ++ tx) (String c sub) = includes tx (String c sub).
Proof.
  intros Hd Ha.
  replace ("HTTP " ++ toString st ++ ": " ++ tx) with (("HTTP " ++ toString st ++ ": ") ++ tx).
  - apply includes_skip. cbn in Ha. destruct Ha as (A1 & A2 & A3 & A4 & A5 & A6 & A7 & _).
    cbn [append]. repeat (split; [assumption|]).
    apply avoids_app; [apply avoids_toString, Hd|]. cbn. tauto.
  - cbn [append]. do 5 f_equal. induction (toString st); [reflexivity|].
    cbn [append]. f_equal. assumption.
Qed.

(** X7.  The error that [request] throws for a response that is not ok is a
    plain [Error] with the message [HTTP <status>: <statusText>]: it has
    neither [code] nor [status], so [getErrorCode] gives its name, "Error",
    none of the status texts of [getErrorMessage] applies, and the status
    plays no part in the classification: [isRetryableError] and
    [shouldRetry] hold exactly when the status text contains "timeout" or
    "network" (in lower case). *)
Theorem http_errors_are_classified_by_their_text (c : NSFWTaggerClient.Client)
    (req : RemoteReq) (s : Env) (st : N) (tx : string) (d : ProcessResult) :
  remote s (List.length (remote_log s)) req = HttpResponse st tx d ->
  ok st = false ->
  exists e s',
    NSFWTaggerClient.request c req s = (Thrown (ThrowError e), s') /\
    e = Error ("HTTP " ++ toString st ++ ": " ++ tx) /\
    ErrorHandler.getErrorCode (Some e) = "Error" /\
    getErrorMessage (Some e) = "HTTP " ++ toString st ++ ": " ++ tx /\
    ErrorHandler.isRetryableError e = includes tx "timeout" || includes tx "network" /\
    ErrorHandler.shouldRetry e = includes tx "timeout" || includes tx "network".
Proof.
  intros Hr Hok. unfold NSFWTaggerClient.request. rewrite Hr, Hok.
  eexists. eexists. split; [reflexivity|]. split; [reflexivity|].
  split; [reflexivity|]. split; [reflexivity|].
  assert (E : ErrorHandler.isRetryableError (Error ("HTTP " ++ toString st ++ ": " ++ tx))
              = includes tx "timeout" || includes tx "network").
  { unfold ErrorHandler.isRetryableError. cbn [e_message Error].
    rewrite !includes_http;
      try reflexivity; try (cbn; repeat split; discriminate).  }
  split; [exact E|]. unfold ErrorHandler.shouldRetry. exact E.
Qed.

(** The theorem on a gateway timeout: HTTP 504 with the status text
    "Gateway Timeout" is not retryable, for "Timeout" is capitalised. *)
Lemma http_errors_are_classified_by_their_text_witness :
  exists e s',
    NSFWTaggerClient.request (BatchProcessor.nsfwClient Scenario.props0) healthReq
      (ContainerScenario.envOf ContainerScenario.gatewayTimeout)
    = (Thrown (ThrowError e), s') /\
    e_message e = "HTTP 504: Gateway Timeout" /\
    ErrorHandler.shouldRetry e = false.
Proof.
  destruct (http_errors_are_classified_by_their_text (BatchProcessor.nsfwClient Scenario.props0) healthReq
              (ContainerScenario.envOf ContainerScenario.gatewayTimeout)
              504 "Gateway Timeout" Scenario.analysis)
    as (e & s' & E & He & _ & _ & _ & Hs).
  - reflexivity.
  - reflexivity.
  - exists e, s'. split; [exact E|]. split; [rewrite He; reflexivity | exact Hs].
Defined.

(** X8.  When the timeout timer aborts the fetch, [request] replaces the
    [AbortError] by an error whose message gives the timeout in seconds, as
    it was passed to the constructor (which keeps it in milliseconds), and
    that error is one [shouldRetry] accepts: its message contains
    "timeout".  The timeout is a whole number of seconds whose milliseconds
    are an exact double (at most [2^53]), so that the division by 1000 gives
    the seconds back and they are printed in plain decimal. *)
Theorem timeouts_are_reported_in_seconds_and_retryable (host : string) (port t : N)
    (req : RemoteReq) (s : Env) (err : JsError) :
  (t * 1000 <= 2 ^ 53)%N ->
  remote s (List.length (remote_log s)) req = FetchFails err ->
  e_name err = Some "AbortError" ->
  exists s',
    NSFWTaggerClient.request (NSFWTaggerClient.new host port t) req s
    = (Thrown (ThrowError (Error ("Request timeout after " ++ toString t ++ " seconds"))), s') /\
    ErrorHandler.shouldRetry (Error ("Request timeout after " ++ toString t ++ " seconds"))
    = true.
Proof.
  intros _ Hr Hn. unfold NSFWTaggerClient.request. rewrite Hr, Hn.
  cbn [NSFWTaggerClient.timeout NSFWTaggerClient.new].
  rewrite N.div_mul by discriminate.
  eexists. split; [reflexivity|]. reflexivity.
Qed.

(** The theorem on a client with a timeout of 300 seconds. *)
Lemma timeouts_are_reported_in_seconds_and_retryable_witness :
  exists s',
    NSFWTaggerClient.request (NSFWTaggerClient.new "localhost" 8000 300) healthReq
      (ContainerScenario.envOf ContainerScenario.aborted)
    = (Thrown (ThrowError (Error "Request timeout after 300 seconds")), s').
Proof.
  destruct (timeouts_are_reported_in_seconds_and_retryable "localhost" 8000 300 healthReq
              (ContainerScenario.envOf ContainerScenario.aborted)
              {| e_code := None; e_status := None; e_name := Some "AbortError";
                 e_message := "The operation was aborted." |}) as (s' & E & _).
  - vm_compute. discriminate.
  - reflexivity.
  - reflexivity.
  - exists s'. exact E.
Defined.

(** X9.  [getErrorMessage] always has something to show: whatever the error
    (a missing one included), the message it returns is not empty. *)
Theorem getErrorMessage_is_never_empty (error : option JsError) :
  getErrorMessage error <> "".
Proof.
  unfold getErrorMessage. destruct error as [e|]; [|discriminate].
  repeat match goal with
         | |- (if ?b then _ else _) <> _ => destruct b eqn:?; try discriminate
         end.
  intros E. rewrite E in *. discriminate.
Qed.

(** X10.  [handleValidationError] never returns a response.  The method is
    declared twice in the class and the later declaration, which starts by
    calling [this.handleValidationError], is the one in force: every call
    recurses until the call stack is exhausted and ends in the [RangeError]
    of the engine, however deep the stack. *)
Theorem handleValidationError_exhausts_the_stack (stack : nat) (now : string)
    (errors : list string) (context : string) :
  handleValidationError stack now errors context = Thrown (ThrowError RangeError).
Proof.
  induction stack as [|stack IH]; [reflexivity|].
  cbn [handleValidationError]. rewrite IH. reflexivity.
Qed.

End ClassificationFacts.

Module DelayFacts.
Import JsNumber JsNumberFacts.
Local Open Scope Q_scope.

Lemma jitter_bounds (r : Q) : 0 <= r -> r < 1 -> 0 <= mul r 1000 /\ mul r 1000 <= 1000.
Proof.
  intros H0 H1. unfold mul. split.
  - apply Qle_trans with (rnd 0); [rewrite rnd_0; apply Qle_refl|]. apply rnd_le.
    apply Qmult_le_0_compat; [exact H0 | discriminate].
  - assert (E : rnd 1000 == 1000) by (vm_compute; reflexivity).
    apply Qle_trans with (rnd 1000); [|rewrite E; apply Qle_refl]. apply rnd_le.
    apply Qle_trans with (1 * 1000); [|discriminate].
    apply Qmult_le_compat_r; [|discriminate]. apply Qlt_le_weak, H1.
Qed.

(** The capped delay is a double when the cap is. *)
Lemma capped_representable (maxDelay x : Q) :
  rnd maxDelay == maxDelay -> rnd (MathMin maxDelay (rnd x)) == MathMin maxDelay (rnd x).
Proof.
  intros Hm. unfold MathMin.
  destruct (Q.min_spec maxDelay (rnd x)) as [[_ E] | [_ E]]; rewrite E.
  - exact Hm.
  - apply rnd_idem.
Qed.

(** The bounds of [getRetryDelay] and its growth with the attempt. *)
Lemma getRetryDelay_bounds (attempt attempt' : Z)
    (baseDelay maxDelay r : Q) :
  0 <= r -> r < 1 -> rnd maxDelay == maxDelay ->
  let capped := MathMin maxDelay (mul baseDelay (pow2 (attempt - 1))) in
  (MathFloor capped <= ErrorHandler.getRetryDelay attempt baseDelay maxDelay r)%Z /\
  (ErrorHandler.getRetryDelay attempt baseDelay maxDelay r
   <= MathFloor (add capped 1000))%Z /\
  (ErrorHandler.getRetryDelay attempt baseDelay maxDelay r
   <= MathFloor (add maxDelay 1000))%Z /\
  (0 <= baseDelay -> (attempt <= attempt')%Z ->
   (ErrorHandler.getRetryDelay attempt baseDelay maxDelay r
    <= ErrorHandler.getRetryDelay attempt' baseDelay maxDelay r)%Z).
Proof.
  intros H0 H1 Hm. cbv zeta. unfold ErrorHandler.getRetryDelay, MathFloor.
  destruct (jitter_bounds r H0 H1) as [J0 J1].
  set (capped := MathMin maxDelay (mul baseDelay (pow2 (attempt - 1)))).
  assert (Hrep : rnd capped == capped) by (apply capped_representable, Hm).
  split; [|split; [|split]].
  - apply Qfloor_resp_le. unfold add.
    apply Qle_trans with (rnd capped); [rewrite Hrep; apply Qle_refl|].
    apply rnd_le. apply Qle_trans with (capped + 0); [rewrite Qplus_0_r; apply Qle_refl|].
    apply Qplus_le_r. exact J0.
  - apply Qfloor_resp_le. unfold add. apply rnd_le. apply Qplus_le_r. exact J1.
  - apply Qfloor_resp_le. unfold add. apply rnd_le.
    apply Qplus_le_compat; [apply Q.le_min_l | exact J1].
  - intros Hb Ha. apply Qfloor_resp_le. unfold add. apply rnd_le.
    apply Qplus_le_l. unfold capped, MathMin. apply Q.min_le_compat_l.
    unfold mul. apply rnd_le. rewrite !(Qmult_comm baseDelay).
    apply Qmult_le_compat_r; [|exact Hb]. apply pow2_le. lia.
Qed.

(** X11.  [getRetryDelay] is capped and monotone, where its arithmetic
    stays within the finite doubles: for attempts from 1 to 1024, a base term
    [baseDelay * 2^(attempt-1)] below [2^1023] in absolute value and a
    [maxDelay] that is a double below [2^1023].  For a value of
    [Math.random] in [0, 1): the delay is a whole number of milliseconds, at
    least the integer part of [min(maxDelay, baseDelay * 2^(attempt-1))] and
    at most that minimum plus 1000, hence never more than [maxDelay + 1000];
    and for a non-negative [baseDelay] it does not decrease when the attempt
    number grows (with the same jitter). *)
Theorem getRetryDelay_is_capped_and_monotone (attempt attempt' : Z)
    (baseDelay maxDelay r : Q) :
  0 <= r -> r < 1 -> rnd maxDelay == maxDelay -> Qabs maxDelay < 2 ^ 1023 ->
  (1 <= attempt)%Z -> (attempt <= attempt')%Z -> (attempt' <= 1024)%Z ->
  Qabs baseDelay * 2 ^ (attempt' - 1) < 2 ^ 1023 ->
  let capped := MathMin maxDelay (mul baseDelay (pow2 (attempt - 1))) in
  (MathFloor capped <= ErrorHandler.getRetryDelay attempt baseDelay maxDelay r)%Z /\
  (ErrorHandler.getRetryDelay attempt baseDelay maxDelay r
   <= MathFloor (add capped 1000))%Z /\
  (ErrorHandler.getRetryDelay attempt baseDelay maxDelay r
   <= MathFloor (add maxDelay 1000))%Z /\
  (0 <= baseDelay ->
   (ErrorHandler.getRetryDelay attempt baseDelay maxDelay r
    <= ErrorHandler.getRetryDelay attempt' baseDelay maxDelay r)%Z).
Proof.
  intros H0 H1 Hm _ _ Ha _ _. cbv zeta.
  destruct (getRetryDelay_bounds attempt attempt' baseDelay maxDelay r H0 H1 Hm)
    as (L & U & U' & M).
  split; [exact L|]. split; [exact U|]. split; [exact U'|].
  intros Hb. exact (M Hb Ha).
Qed.

(** The theorem with the default arguments, at the first attempt and a
    jitter of one half: between 1000 and 2000 ms. *)
Lemma getRetryDelay_is_capped_and_monotone_witness :
  (1000 <= ErrorHandler.getRetryDelay 1 1000 30000 (1 # 2) <= 2000)%Z.
Proof.
  destruct (getRetryDelay_is_capped_and_monotone 1 2 1000 30000 (1 # 2))
    as (L & U & _).
  - discriminate.
  - reflexivity.
  - vm_compute. reflexivity.
  - vm_compute. reflexivity.
  - lia.
  - lia.
  - lia.
  - vm_compute. reflexivity.
  - split.
    + apply Z.le_trans with (2 := L). vm_compute. discriminate.
    + apply Z.le_trans with (1 := U). vm_compute. discriminate.
Defined.

(** X12.  With its default arguments ([baseDelay = 1000], [maxDelay =
    30000]) [getRetryDelay] doubles from one attempt to the next up to the
    fifth and stays at the cap from the sixth attempt on: for a value of
    [Math.random] in [0, 1) the delay of attempt [k], for [k] from 1 to 5,
    lies between [1000 * 2^(k-1)] and [1000 * 2^(k-1) + 1000], and the delay
    of every later attempt lies between 30000 and 31000. *)
Theorem getRetryDelay_defaults (attempt : Z) (r : Q) :
  0 <= r -> r < 1 -> (1 <= attempt)%Z ->
  ((attempt <= 5)%Z ->
   (1000 * 2 ^ (attempt - 1)
    <= ErrorHandler.getRetryDelay attempt 1000 ErrorHandler.default_maxDelay r
    <= 1000 * 2 ^ (attempt - 1) + 1000)%Z) /\
  ((6 <= attempt)%Z ->
   (30000 <= ErrorHandler.getRetryDelay attempt 1000 ErrorHandler.default_maxDelay r
    <= 31000)%Z).
Proof.
  intros H0 H1 Ha.
  assert (Hm : rnd ErrorHandler.default_maxDelay == ErrorHandler.default_maxDelay)
    by (vm_compute; reflexivity).
  destruct (getRetryDelay_bounds attempt attempt 1000
              ErrorHandler.default_maxDelay r H0 H1 Hm) as (L & U & U' & _).
  cbv zeta in L, U. split.
  - intros H5.
    assert (C : (attempt = 1 \/ attempt = 2 \/ attempt = 3 \/ attempt = 4 \/ attempt = 5)%Z)
      by lia.
    destruct C as [-> | [-> | [-> | [-> | ->]]]];
      (split; [apply (Z.le_trans _ _ _) with (2 := L)
              |apply (Z.le_trans _ _ _) with (1 := U)]);
      vm_compute; discriminate.
  - intros H6. split; [|apply Z.le_trans with (1 := U'); vm_compute; discriminate].
    apply Z.le_trans with (2 := L). unfold MathFloor.
    assert (E : MathMin ErrorHandler.default_maxDelay (mul 1000 (pow2 (attempt - 1)))
                == 30000).
    { unfold MathMin. apply Q.min_l. unfold mul.
      apply Qle_trans with (rnd 32000); [vm_compute; discriminate|]. apply rnd_le.
      apply Qle_trans with (1000 * 2 ^ 5); [vm_compute; discriminate|].
      rewrite !(Qmult_comm 1000). apply Qmult_le_compat_r; [|discriminate].
      apply pow2_le. lia. }
    rewrite E. vm_compute. discriminate.
Qed.

(** The theorem at the tenth attempt. *)
Lemma getRetryDelay_defaults_witness :
  (30000 <= ErrorHandler.getRetryDelay 10 1000 ErrorHandler.default_maxDelay (3 # 4)
   <= 31000)%Z.
Proof.
  destruct (getRetryDelay_defaults 10 (3 # 4)) as [_ H].
  - discriminate.
  - reflexivity.
  - lia.
  - apply H. lia.
Defined.

End DelayFacts.

(* ===================================================================== *)
(** * The selection of the batch component *)
(* ===================================================================== *)

Module SelectionFacts.
Import Environment Selection.
Local Open Scope list_scope.

Lemma isSelected_In i l : isSelected i l = true <-> In i l.
Proof.
  unfold isSelected. rewrite existsb_exists. split.
  - intros (x & Hx & E). apply String.eqb_eq in E. subst x. exact Hx.
  - intros H. exists i. split; [exact H | apply String.eqb_refl].
Qed.

Lemma In_remove i j l :
  In j (filter (fun id => negb (String.eqb id i)) l) <-> In j l /\ j <> i.
Proof.
  rewrite filter_In. split; intros [H1 H2]; (split; [exact H1|]).
  - intros ->. rewrite String.eqb_refl in H2. discriminate.
  - destruct (String.eqb_spec j i); [contradiction | reflexivity].
Qed.

Lemma remove_absent i l :
  ~ In i l -> filter (fun id => negb (String.eqb id i)) l = l.
Proof.
  induction l as [|x l IH]; intros H; [reflexivity|]. cbn.
  destruct (String.eqb_spec x i) as [-> | _]; [exfalso; apply H; left; reflexivity|].
  cbn. f_equal. apply IH. intros Hi. apply H. right. exact Hi.
Qed.

Lemma NoDup_snoc (i : ItemId) l : NoDup l -> ~ In i l -> NoDup (l ++ [i]).
Proof.
  intros Hn Hi. apply NoDup_app; [exact Hn | repeat constructor; intros [] |].
  intros x Hx [<- | []]. exact (Hi Hx).
Qed.

(** What a click on an item does to the selection. *)
Lemma handleSelectItem_spec (itemId : ItemId) (state : Listing) :
  (In itemId (selectedItems (handleSelectItem itemId state))
   <-> ~ In itemId (selectedItems state)) /\
  (forall j, j <> itemId ->
     (In j (selectedItems (handleSelectItem itemId state)) <-> In j (selectedItems state))) /\
  (~ In itemId (selectedItems state) ->
   selectedItems (handleSelectItem itemId (handleSelectItem itemId state))
   = selectedItems state) /\
  (NoDup (selectedItems state) -> NoDup (selectedItems (handleSelectItem itemId state))) /\
  items (handleSelectItem itemId state) = items state.
Proof.
  unfold handleSelectItem. cbn [selectedItems items].
  destruct (isSelected itemId (selectedItems state)) eqn:E.
  - apply isSelected_In in E. split; [|split; [|split; [|split]]].
    + rewrite In_remove. split; [intros [_ H]; contradiction | intros H; contradiction].
    + intros j Hj. rewrite In_remove. tauto.
    + intros H. contradiction.
    + intros H. apply NoDup_filter, H.
    + reflexivity.
  - assert (Hn : ~ In itemId (selectedItems state)).
    { intros H. apply isSelected_In in H. congruence. }
    split; [|split; [|split; [|split]]].
    + rewrite in_app_iff. cbn. tauto.
    + intros j Hj. rewrite in_app_iff. cbn. split; [intros [H | [H | []]] | tauto].
      * exact H.
      * symmetry in H. contradiction.
    + intros _.
      assert (S : isSelected itemId (selectedItems state ++ [itemId]) = true).
      { apply isSelected_In, in_or_app. right. left. reflexivity. }
      rewrite S. rewrite filter_app. cbn. rewrite String.eqb_refl. cbn.
      rewrite app_nil_r. apply remove_absent, Hn.
    + intros H. apply NoDup_snoc; assumption.
    + reflexivity.
Qed.

(** X13.  [handleSelectItem] toggles one item and leaves the others alone:
    afterwards the item is selected exactly when it was not before, and every
    other id is selected exactly when it was.  Selecting an item that was
    not selected and clicking it again gives back the selection as it was,
    and a selection without duplicates stays without duplicates. *)
Theorem handleSelectItem_toggles (itemId : ItemId) (state : Listing) :
  (In itemId (selectedItems (handleSelectItem itemId state))
   <-> ~ In itemId (selectedItems state)) /\
  (forall j, j <> itemId ->
     (In j (selectedItems (handleSelectItem itemId state)) <-> In j (selectedItems state))) /\
  (~ In itemId (selectedItems state) ->
   selectedItems (handleSelectItem itemId (handleSelectItem itemId state))
   = selectedItems state) /\
  (NoDup (selectedItems state) -> NoDup (selectedItems (handleSelectItem itemId state))) /\
  items (handleSelectItem itemId state) = items state.
Proof.
  destruct (handleSelectItem_spec itemId state) as (T1 & T2 & T3 & T4 & T5).
  split; [exact T1|]. split; [exact T2|]. split; [exact T3|]. split; [exact T4 | exact T5].
Qed.

(** The theorem on the three items: selecting "2" and clicking it again. *)
Lemma handleSelectItem_toggles_witness :
  selectedItems (handleSelectItem "2"%string (handleSelectItem "2"%string
                   (handleSelectItem "1"%string (loaded SelectionScenario.three))))
  = ["1"]%string.
Proof.
  destruct (handleSelectItem_toggles "2"%string
              (handleSelectItem "1"%string (loaded SelectionScenario.three)))
    as (_ & _ & H & _).
  rewrite H; [reflexivity|]. cbn. intros [E | []]. discriminate E.
Defined.

(** The invariant of the selection: no duplicates, and only listed items. *)
Lemma click_invariant (state : Listing) (c : Click) :
  NoDup (map item_id (items state)) ->
  NoDup (selectedItems state) ->
  incl (selectedItems state) (map item_id (items state)) ->
  onListed (map item_id (items state)) [c] ->
  items (click state c) = items state /\
  NoDup (selectedItems (click state c)) /\
  incl (selectedItems (click state c)) (map item_id (items state)).
Proof.
  intros Hi Hs Hincl Hc. destruct c as [i|].
  - destruct (handleSelectItem_spec i state) as (T1 & T2 & _ & T4 & T5).
    cbn [click]. split; [exact T5|]. split; [exact (T4 Hs)|].
    intros j Hj. destruct (string_dec j i) as [-> | Hne].
    + destruct Hc as [Hc _]. exact Hc.
    + apply Hincl. apply (T2 j Hne). exact Hj.
  - cbn [click handleSelectAll selectedItems items].
    split; [reflexivity|]. destruct (allSelected state).
    + split; [constructor | intros j []].
    + split; [exact Hi | apply incl_refl].
Qed.

Lemma clicks_invariant (cs : list Click) : forall state,
  NoDup (map item_id (items state)) ->
  NoDup (selectedItems state) ->
  incl (selectedItems state) (map item_id (items state)) ->
  onListed (map item_id (items state)) cs ->
  items (clicks cs state) = items state /\
  NoDup (selectedItems (clicks cs state)) /\
  incl (selectedItems (clicks cs state)) (map item_id (items state)).
Proof.
  induction cs as [|c cs IH]; intros state Hi Hs Hincl Hc.
  - cbn. repeat split; assumption.
  - assert (Hc1 : onListed (map item_id (items state)) [c]).
    { destruct c; cbn in Hc |- *; tauto. }
    assert (Hc2 : onListed (map item_id (items state)) cs).
    { destruct c; cbn in Hc; tauto. }
    destruct (click_invariant state c Hi Hs Hincl Hc1) as (I1 & I2 & I3).
    unfold clicks. cbn [fold_left]. fold (clicks cs (click state c)).
    rewrite <- I1 in Hi, I3, Hc2.
    destruct (IH (click state c) Hi I2 I3 Hc2) as (J1 & J2 & J3).
    rewrite J1, I1 in *. repeat split; assumption.
Qed.

(** X14.  The selection never holds an id twice.  From a freshly loaded list
    whose items have distinct ids, whatever the user clicks (checkboxes of
    listed items and "select all", in any order), [selectedItems] has no
    duplicates and holds ids of listed items only; the list of items is not
    touched. *)
Theorem selection_has_no_duplicates (l : list Item) (cs : list Click) :
  NoDup (map item_id l) ->
  onListed (map item_id l) cs ->
  NoDup (selectedItems (clicks cs (loaded l))) /\
  incl (selectedItems (clicks cs (loaded l))) (map item_id l) /\
  items (clicks cs (loaded l)) = l.
Proof.
  intros Hl Hc.
  destruct (clicks_invariant cs (loaded l) Hl (NoDup_nil _)) as (I1 & I2 & I3).
  - intros j [].
  - exact Hc.
  - repeat split; assumption.
Qed.

(** The theorem on the three items, after a few clicks. *)
Lemma selection_has_no_duplicates_witness :
  NoDup (selectedItems (clicks [ClickItem "2"; ClickAll; ClickItem "2"; ClickItem "2"]%string
                          (loaded SelectionScenario.three))).
Proof.
  apply (selection_has_no_duplicates SelectionScenario.three
           [ClickItem "2"; ClickAll; ClickItem "2"; ClickItem "2"]%string).
  - cbn. repeat constructor; cbn; intuition discriminate.
  - cbn. tauto.
Defined.

(** X15.  After a click on an item of a list with distinct ids, the
    [allSelected] flag is right: it is set exactly when every listed item is
    selected (the selection holding distinct ids of listed items, as it does
    by the invariant above).  "Select all" from an unset flag selects every
    listed item, in the order of the list, and from a set flag clears the
    selection. *)
Theorem allSelected_is_accurate (state : Listing) (itemId : ItemId) :
  NoDup (map item_id (items state)) ->
  NoDup (selectedItems state) ->
  incl (selectedItems state) (map item_id (items state)) ->
  In itemId (map item_id (items state)) ->
  (allSelected (handleSelectItem itemId state) = true
   <-> forall i, In i (map item_id (items state)) ->
                 In i (selectedItems (handleSelectItem itemId state))) /\
  selectedItems (handleSelectAll state)
  = (if allSelected state then [] else map item_id (items state)).
Proof.
  intros Hi Hs Hincl Hin. split; [|reflexivity].
  destruct (click_invariant state (ClickItem itemId) Hi Hs Hincl) as (_ & N & I).
  { cbn. tauto. }
  cbn [click] in N, I.
  set (sel := selectedItems (handleSelectItem itemId state)) in *.
  assert (F : allSelected (handleSelectItem itemId state)
              = (List.length sel =? List.length (items state))%nat) by reflexivity.
  rewrite F, Nat.eqb_eq. split.
  - intros E i Hi'.
    refine (NoDup_length_incl N _ I i Hi'). rewrite E, length_map. lia.
  - intros H. apply Nat.le_antisymm.
    + rewrite <- (length_map item_id (items state)). apply NoDup_incl_length; assumption.
    + rewrite <- (length_map item_id (items state)). apply NoDup_incl_length; [exact Hi|].
      intros i Hi'. apply H, Hi'.
Qed.

(** The theorem on the three items: with "1" and "2" selected, a click on
    "3" sets the flag. *)
Lemma allSelected_is_accurate_witness :
  allSelected (handleSelectItem "3"%string
                 {| items := SelectionScenario.three; selectedItems := ["1"; "2"];
                    allSelected := false |}%string) = true.
Proof.
  destruct (allSelected_is_accurate
              {| items := SelectionScenario.three; selectedItems := ["1"; "2"];
                 allSelected := false |}%string "3"%string) as [[_ H] _].
  - cbn. repeat constructor; cbn; intuition discriminate.
  - cbn. repeat constructor; cbn; intuition discriminate.
  - intros j Hj. cbn in Hj |- *. tauto.
  - cbn. tauto.
  - apply H. intros i Hi. cbn in Hi |- *. tauto.
Defined.

End SelectionFacts.

(* ===================================================================== *)
(** * Batches, progress and the order of the report *)
(* ===================================================================== *)

Module BatchMore.
Import Js Environment World Observe Hoare HoareFacts Frames ClientFacts.
Import BatchProcessor Pipeline ItemFacts Chunks BatchFacts Dispatch DispatchFacts RunFacts.
Local Open Scope list_scope.

Lemma chunked_count {A} (b : nat) (bs : list (list A)) :
  1 <= b -> chunked b bs ->
  List.length bs = (List.length (List.concat bs) + b - 1) / b.
Proof.
  intros Hb. induction bs as [|c rest IH]; intros H.
  - cbn. symmetry. apply Nat.div_small. lia.
  - cbn [chunked] in H. destruct H as [Hc Hr]. cbn [List.concat List.length].
    rewrite length_app. destruct rest as [|c' rest'].
    + cbn. rewrite Nat.add_0_r.
      apply (Nat.div_unique _ _ 1 (List.length c - 1)); lia.
    + rewrite (IH Hr), Hc.
      replace (b + List.length (List.concat (c' :: rest')) + b - 1)
        with (1 * b + (List.length (List.concat (c' :: rest')) + b - 1)) by lia.
      rewrite Nat.div_add_l by lia. lia.
Qed.

(** X16.  [createBatches] with a batch size of at least 1 returns
    [ceil(n / batchSize)] batches for [n] items; concatenated they are the
    input, in order.  An empty input gives no batch, and a batch size that
    is not smaller than the number of items gives the input as the one
    batch. *)
Theorem createBatches_count {A} (items : list A) (batchSize : nat) :
  1 <= batchSize ->
  exists batches,
    createBatches items batchSize = Some batches /\
    List.concat batches = items /\
    List.length batches = (List.length items + batchSize - 1) / batchSize /\
    (items = [] -> batches = []) /\
    (items <> [] -> List.length items <= batchSize -> batches = [items]).
Proof.
  intros Hb. destruct (createBatches_spec items batchSize Hb) as (bs & E & Hc & Hk).
  exists bs. split; [exact E|]. split; [exact Hc|].
  assert (Hn := chunked_count batchSize bs Hb Hk). rewrite Hc in Hn.
  split; [exact Hn|]. split.
  - intros ->. cbn in Hn. rewrite Nat.div_small in Hn by lia.
    destruct bs; [reflexivity | discriminate].
  - intros Hne Hle.
    assert (L : List.length bs = 1).
    { rewrite Hn. destruct items as [|x items]; [contradiction|]. cbn [List.length] in *.
      symmetry. apply (Nat.div_unique _ _ 1 (List.length items)); lia. }
    destruct bs as [|c [|c' bs]]; try discriminate.
    cbn in Hc. rewrite app_nil_r in Hc. subst c. reflexivity.
Qed.

(** The theorem on five items, two at a time: three batches. *)
Lemma createBatches_count_witness :
  exists batches,
    createBatches [1; 2; 3; 4; 5] 2 = Some batches /\ List.length batches = 3.
Proof.
  destruct (createBatches_count [1; 2; 3; 4; 5] 2) as (bs & E & _ & L & _).
  - lia.
  - exists bs. split; [exact E | exact L].
Defined.

(** X17.  A concurrency setting of 0 hangs the run.  The default of 4 applies
    to a missing setting only, so 0 reaches [createBatches] as the batch
    size; with an item to process its loop pushes empty batches without ever
    advancing, whatever the number of iterations, and [processItems] never
    settles: no item is started, and [startProcessing], once the connection
    checks have passed, never reaches the end where it clears
    [processing]. *)
Theorem zero_concurrency_never_finishes (props : Props) (ui : nat -> list UiEvent)
    (itemIds : list ItemId) (ty : ItemType) (a : App) :
  concurrency (settings props) = Some 0 ->
  itemIds <> [] ->
  (forall fuel, createBatches_loop fuel itemIds 0 0 [] = None) /\
  processItems props ui itemIds ty a = Diverges /\
  (selectedItems (comp a) = itemIds -> connectionValid props a = true ->
   startProcessing props ui a = Diverges).
Proof.
  intros Hc Hne.
  assert (Hlen : 0 < List.length itemIds) by (destruct itemIds; [contradiction | cbn; lia]).
  assert (D : forall fuel, createBatches_loop fuel itemIds 0 0 [] = None).
  { intros fuel. apply createBatches_diverges; assumption. }
  assert (P : forall a0, processItems props ui itemIds ty a0 = Diverges).
  { intros a0. unfold processItems, createBatches. rewrite Hc, D. reflexivity. }
  split; [exact D|]. split; [apply P|].
  intros Hsel Hv. unfold startProcessing. rewrite Hsel.
  destruct (List.length itemIds) eqn:El; [lia|]. cbn [Nat.eqb].
  unfold connectionValid in Hv. unfold liftEnv.
  destruct (NSFWTaggerClient.validateConnection (nsfwClient props) (env (world a)))
    as [[v | e] s]; cbn in Hv; [|discriminate].
  rewrite Hv. cbn [negb].
  match goal with
  | |- match processItems _ _ _ ?t ?a2 with _ => _ end = _ =>
      replace (processItems props ui itemIds t a2) with Diverges; [reflexivity|]
  end.
  symmetry. unfold processItems, createBatches. rewrite Hc, D. reflexivity.
Qed.

(** The theorem on the five scenes with [concurrency: 0]. *)
Lemma zero_concurrency_never_finishes_witness :
  startProcessing
    {| settings := {| concurrency := Some 0; set_frame_interval := None;
                      set_max_frames := None; set_shot_detection := None;
                      set_quality := None |};
       nsfwClient := nsfwClient Scenario.props0 |}
    Scenario.hands_off Scenario.app0 = Diverges.
Proof.
  apply (zero_concurrency_never_finishes
           {| settings := {| concurrency := Some 0; set_frame_interval := None;
                             set_max_frames := None; set_shot_detection := None;
                             set_quality := None |};
              nsfwClient := nsfwClient Scenario.props0 |}
           Scenario.hands_off ["1"; "2"; "3"; "4"; "5"]%string scenes Scenario.app0).
  - reflexivity.
  - discriminate.
  - reflexivity.
  - vm_compute. reflexivity.
Defined.

(** X18.  The report keeps the order of the selection.  For a run that
    passes the connection checks (cancelled or not), [results] lists the
    successful outcomes and [errors] the failed ones, each in the order in
    which the items were selected: both are sublists of one list of
    outcomes, one per selected item in selection order. *)
Theorem report_keeps_selection_order (props : Props) (ui : nat -> list UiEvent) (a : App) :
  selectedItems (comp a) <> [] ->
  1 <= batchSize props ->
  connectionValid props a = true ->
  exists a' rs,
    startProcessing props ui a = Done a' /\
    map id rs = selectedItems (comp a) /\
    results (comp a') = filter success rs /\
    errors (comp a') = filter (fun r => negb (success r)) rs.
Proof.
  intros Hsel Hb Hv.
  destruct (startProcessing_runs props ui (fun _ => True) (fun _ _ => True)
              (fun _ _ _ _ => I) a (fun _ _ _ _ _ _ => I) I Hsel Hb Hv)
    as (batches & a2 & a3 & rs & _ & _ & _ & _ & _ & _ & _ & Es & Hids & _
        & Hres & Herr & _).
  exists (setState stoppedState (stopProgressTracking a3)), rs.
  split; [exact Es|]. split; [exact Hids|]. split; [exact Hres | exact Herr].
Qed.

(** The theorem on the five scenes, cancelled during the first batch. *)
Lemma report_keeps_selection_order_witness :
  exists a',
    startProcessing Scenario.props0 Scenario.cancel_early Scenario.app0 = Done a' /\
    map id (results (comp a')) = ["1"; "2"; "4"; "5"]%string /\
    map id (errors (comp a')) = ["3"]%string.
Proof.
  destruct (report_keeps_selection_order Scenario.props0 Scenario.cancel_early Scenario.app0)
    as (a' & rs & E & _).
  - discriminate.
  - cbn. lia.
  - vm_compute. reflexivity.
  - exists a'. split; [exact E|].
    assert (F : Scenario.finalOf
                  (startProcessing Scenario.props0 Scenario.cancel_early Scenario.app0)
                = Some a') by (rewrite E; reflexivity).
    vm_compute in F. inversion F. split; reflexivity.
Defined.

End BatchMore.

Module ProgressMore.
Import JsNumber JsNumberFacts BatchProcessor ProgressFacts.
Local Open Scope Q_scope.

(** X19.  The progress bar is monotone and exact at both ends: with the same
    total, more completed items never give a smaller percentage; no
    completed item gives 0 and [completed = total] (not zero) gives 100. *)
Theorem getProgressPercentage_is_monotone (c c' : Component) :
  total (progress c') = total (progress c) ->
  (completed (progress c) <= completed (progress c'))%nat ->
  (getProgressPercentage c <= getProgressPercentage c')%Z /\
  (completed (progress c) = 0%nat -> getProgressPercentage c = 0%Z) /\
  (total (progress c) <> 0%nat -> completed (progress c') = total (progress c') ->
   getProgressPercentage c' = 100%Z).
Proof.
  intros Ht Hc. unfold getProgressPercentage. rewrite Ht.
  destruct (Nat.eqb_spec (total (progress c)) 0) as [E | NE].
  - split; [lia|]. split; [reflexivity | intros H; contradiction].
  - assert (Hp := ofNat_pos (total (progress c)) NE). split; [|split].
    + apply MathRound_le. unfold mul, div. apply rnd_le.
      apply Qmult_le_compat_r; [|discriminate]. apply rnd_le.
      apply Qmult_le_compat_r; [|apply Qlt_le_weak, Qinv_lt_0_compat, Hp].
      unfold ofNat. rewrite <- Zle_Qle. lia.
    + intros H0. rewrite H0.
      assert (E0 : div (ofNat 0) (ofNat (total (progress c))) == 0).
      { unfold div. assert (Z0 : ofNat 0 / ofNat (total (progress c)) == 0)
          by (unfold Qdiv; apply Qmult_0_l).
        rewrite Z0. apply rnd_0. }
      unfold mul.
      assert (E1 : rnd (div (ofNat 0) (ofNat (total (progress c))) * 100) == 0).
      { rewrite E0. rewrite Qmult_0_l. apply rnd_0. }
      unfold MathRound. rewrite (Qfloor_comp _ (0 + (1 # 2))); [reflexivity|].
      rewrite E1. reflexivity.
    + intros _ Hd. rewrite Hd.
      assert (E0 : div (ofNat (total (progress c))) (ofNat (total (progress c))) == 1).
      { unfold div.
        assert (Z1 : ofNat (total (progress c)) / ofNat (total (progress c)) == 1).
        { apply Qmult_inv_r. intros H. rewrite H in Hp. discriminate Hp. }
        rewrite Z1. apply rnd_1. }
      assert (E1 : mul (div (ofNat (total (progress c))) (ofNat (total (progress c)))) 100
                   == 100).
      { unfold mul. rewrite E0, Qmult_1_l. apply rnd_100. }
      unfold MathRound. rewrite (Qfloor_comp _ (100 + (1 # 2))); [reflexivity|].
      rewrite E1. reflexivity.
Qed.

(** The theorem at 23 and 24 items done of 40. *)
Lemma getProgressPercentage_is_monotone_witness :
  (getProgressPercentage (Scenario0.counting 23 40)
   <= getProgressPercentage (Scenario0.counting 24 40))%Z.
Proof.
  apply (getProgressPercentage_is_monotone (Scenario0.counting 23 40)
           (Scenario0.counting 24 40)).
  - reflexivity.
  - cbn. lia.
Defined.

End ProgressMore.

(* ===================================================================== *)
(** * More on the result applier *)
(* ===================================================================== *)

Module ApplierMore.
Import Js Environment World Observe Hoare HoareFacts Frames ClientFacts.
Import BatchProcessor Pipeline ItemFacts CatalogSpec CatalogFacts ApplierFacts CatalogMore.
Local Open Scope list_scope.

Lemma existsb_pair_In p rel : existsb (pair_eqb p) rel = true <-> In p rel.
Proof.
  rewrite existsb_exists. split.
  - intros (x & Hx & E). unfold pair_eqb in E. apply andb_true_iff in E.
    destruct E as [E1 E2]. apply String.eqb_eq in E1. apply N.eqb_eq in E2.
    destruct p, x. cbn in *. subst. exact Hx.
  - intros H. exists p. split; [exact H | apply pair_eqb_refl].
Qed.

Lemma markerIds_In ts names n t :
  In n names -> findTag ts n = Some t -> In (tag_id t) (markerIds ts names).
Proof.
  induction names as [|m names IH]; intros Hin Hf; [contradiction|].
  cbn [markerIds]. destruct Hin as [-> | Hin].
  - rewrite Hf. left. reflexivity.
  - destruct (findTag ts m); [right|]; apply IH; assumption.
Qed.

(** X20.  What applying a result achieves when the catalog answers every
    request: afterwards every tag name of the result is a tag of the catalog
    and that tag is attached to the item; whatever was attached before, to
    this item or another, still is; the tags that existed are still there;
    and the items of the other type are not touched. *)
Theorem applied_tags_are_attached (item : ItemId) (ty : ItemType) (result : ProcessResult)
    (s : Env) :
  noFaults s ->
  exists s',
    applyResultsToStash item ty (Some result) s = (Returned tt, s') /\
    (forall n, In n (r_tags result) ->
       exists t, findTag (tags (catalog s')) n = Some t /\
                 In (item, tag_id t) (tagsOf ty (catalog s'))) /\
    (forall p, In p (tagsOf ty (catalog s)) -> In p (tagsOf ty (catalog s'))) /\
    (exists new, tags (catalog s') = tags (catalog s) ++ new) /\
    tagsOf (match ty with scenes => images | images => scenes end) (catalog s')
    = tagsOf (match ty with scenes => images | images => scenes end) (catalog s).
Proof.
  intros NF. rewrite applyResultsToStash_unfold.
  destruct (applyTags_ok item ty result s NF)
    as (s1 & l & E & NF1 & _ & Hnew & _ & Hst & Hit & Hfind & _).
  rewrite E.
  destruct (applyMarkers_ok item ty result s1 NF1) as (s2 & l2 & E2 & _ & K & _).
  destruct K as (K1 & _ & K3 & K4).
  exists s2. split; [exact E2|].
  assert (R : tagsOf ty (catalog s2)
              = attach item (markerIds (tags (catalog s1)) (r_tags result))
                  (tagsOf ty (catalog s))).
  { destruct ty; cbn [tagsOf]; [rewrite K3 | rewrite K4]; assumption. }
  split; [|split; [|split]].
  - intros n Hn. destruct (findTag (tags (catalog s1)) n) as [t|] eqn:Ef;
      [|exfalso; exact (Hfind n Hn Ef)].
    exists t. rewrite K1. split; [exact Ef|]. rewrite R.
    apply existsb_pair_In, attach_attaches, (markerIds_In _ _ n); assumption.
  - intros p Hp. rewrite R. apply existsb_pair_In, attach_keeps, existsb_pair_In, Hp.
  - rewrite K1. exact Hnew.
  - destruct ty; cbn [tagsOf]; [rewrite K4 | rewrite K3]; assumption.
Qed.

(** The theorem on scene "1" and the analysis with the tags "a" and "b". *)
Lemma applied_tags_are_attached_witness :
  exists s',
    applyResultsToStash "1"%string scenes (Some Scenario.analysis) Scenario.env0
    = (Returned tt, s') /\
    exists t, findTag (tags (catalog s')) "b"%string = Some t /\
              In ("1"%string, tag_id t) (scene_tags (catalog s')).
Proof.
  destruct (applied_tags_are_attached "1"%string scenes Scenario.analysis Scenario.env0)
    as (s' & E & H & _).
  - intros n. reflexivity.
  - exists s'. split; [exact E|]. apply (H "b"%string). cbn. tauto.
Defined.

(** ** Images *)

Lemma imageStep_refl s : imageStep s s.
Proof. repeat split. exists []. rewrite app_nil_r. split; reflexivity. Qed.

Lemma imageStep_trans s1 s2 s3 : imageStep s1 s2 -> imageStep s2 s3 -> imageStep s1 s3.
Proof.
  intros (M1 & S1 & l1 & L1 & F1) (M2 & S2 & l2 & L2 & F2).
  split; [congruence|]. split; [congruence|].
  exists (l1 ++ l2). rewrite L2, L1, <- app_assoc. split; [reflexivity|].
  rewrite forallb_app, F1, F2. reflexivity.
Qed.

Lemma graphql_imageStep req :
  imageRequest req = true -> Keeps imageStep (StashClient.graphql req).
Proof.
  intros Hreq s r s' H. unfold StashClient.graphql in H.
  destruct (stash_fault s (List.length (stash_log s))).
  - inversion H; subst. cbn. repeat split. exists [req]. cbn. rewrite Hreq. split; reflexivity.
  - destruct req; try discriminate; cbn in H; inversion H; subst; cbn;
      repeat split; eexists [_]; split; reflexivity.
Qed.

Ltac image_keeps :=
  repeat first
    [ apply Keeps_ret; exact imageStep_refl
    | apply Keeps_throw; exact imageStep_refl
    | apply Keeps_message_of; exact imageStep_refl
    | apply graphql_imageStep; reflexivity
    | apply Keeps_bind; [exact imageStep_trans | | intros ? ]
    | apply Keeps_try_catch; [exact imageStep_trans | | intros ? ] ].

Lemma getTagByName_imageStep n : Keeps imageStep (StashClient.getTagByName n).
Proof. unfold StashClient.getTagByName. image_keeps. Qed.

Lemma createTagIfNotExists_imageStep n : Keeps imageStep (StashClient.createTagIfNotExists n).
Proof.
  unfold StashClient.createTagIfNotExists.
  apply Keeps_try_catch; [exact imageStep_trans | | intros; image_keeps].
  apply Keeps_bind; [exact imageStep_trans | apply getTagByName_imageStep|].
  intros [t|]; [image_keeps|].
  apply Keeps_bind; [exact imageStep_trans | image_keeps|].
  intros d. destruct (d_tag d); image_keeps.
Qed.

Lemma createTags_imageStep names : forall ids, Keeps imageStep (createTags names ids).
Proof.
  induction names as [|n names IH]; intros ids; cbn [createTags]; [image_keeps|].
  apply Keeps_bind; [exact imageStep_trans | apply createTagIfNotExists_imageStep|].
  intros; apply IH.
Qed.

Lemma applyResultsToStash_imageStep item result :
  Keeps imageStep (applyResultsToStash item images result).
Proof.
  unfold applyResultsToStash.
  apply Keeps_try_catch; [exact imageStep_trans | | intros; image_keeps].
  destruct result as [result|]; [|image_keeps].
  apply Keeps_bind; [exact imageStep_trans | | intros; unfold applyMarkers; image_keeps].
  unfold applyTags. destruct (nonempty (r_tags result)); [|image_keeps].
  apply Keeps_bind; [exact imageStep_trans | apply createTags_imageStep|].
  intros ids. destruct (nonempty ids); [|image_keeps].
  unfold StashClient.addTagsToImage. image_keeps.
Qed.

(** X21.  Markers are for scenes only.  Whatever the result of an image
    holds, markers included, and whichever requests the catalog fails,
    applying it sends tag lookups, tag creations and the image update only:
    no marker is created, the markers of the catalog and the tags of the
    scenes stay as they are. *)
Theorem images_get_no_markers (item : ItemId) (result : option ProcessResult) (s : Env) :
  let s' := snd (applyResultsToStash item images result s) in
  markers (catalog s') = markers (catalog s) /\
  scene_tags (catalog s') = scene_tags (catalog s) /\
  exists l,
    stash_log s' = stash_log s ++ l /\
    filter is_createMarker l = [] /\ forallb imageRequest l = true.
Proof.
  cbv zeta.
  destruct (applyResultsToStash item images result s) as [r s'] eqn:E.
  destruct (applyResultsToStash_imageStep item result s r s' E) as (M & S & l & L & F).
  cbn [snd]. split; [exact M|]. split; [exact S|]. exists l. split; [exact L|].
  split; [|exact F]. clear L. induction l as [|x l IH]; [reflexivity|].
  cbn in F. apply andb_true_iff in F. destruct F as [Fx Fl].
  cbn. destruct x; try discriminate; cbn; apply IH, Fl.
Qed.

(** ** A catalog that fails *)

Lemma graphql_fault req s e :
  stash_fault s (List.length (stash_log s)) = Some e ->
  StashClient.graphql req s = (Thrown (ThrowError e), logged req s (catalog s)).
Proof. intros H. unfold StashClient.graphql. rewrite H. reflexivity. Qed.

Lemma createTagIfNotExists_down n s :
  allFaults s ->
  StashClient.createTagIfNotExists n s
  = (Returned None, logged (CreateTag n) (logged (FindTag n) s (catalog s)) (catalog s)).
Proof.
  intros H. unfold StashClient.createTagIfNotExists, StashClient.getTagByName,
    try_catch, bind.
  destruct (stash_fault s (List.length (stash_log s))) as [e|] eqn:E1;
    [|exfalso; exact (H _ E1)].
  rewrite (graphql_fault _ _ _ E1). cbn [ret].
  destruct (stash_fault (logged (FindTag n) s (catalog s))
              (List.length (stash_log (logged (FindTag n) s (catalog s))))) as [e2|] eqn:E2;
    [|exfalso; exact (H _ E2)].
  rewrite (graphql_fault _ _ _ E2). reflexivity.
Qed.

Lemma createTags_down names : forall ids s,
  allFaults s ->
  exists s',
    createTags names ids s = (Returned ids, s') /\
    allFaults s' /\ catalog s' = catalog s /\ remote_log s' = remote_log s /\
    stash_log s' = stash_log s ++ flat_map (fun n => [FindTag n; CreateTag n]) names.
Proof.
  induction names as [|n names IH]; intros ids s H.
  - exists s. cbn. rewrite app_nil_r. repeat split. exact H.
  - cbn [createTags]. unfold bind. rewrite (createTagIfNotExists_down n s H).
    destruct (IH ids (logged (CreateTag n) (logged (FindTag n) s (catalog s)) (catalog s)))
      as (s' & E & A & C & R & L); [exact H|].
    exists s'. split; [exact E|]. split; [exact A|]. split; [exact C|]. split; [exact R|].
    rewrite L. cbn. rewrite <- !app_assoc. reflexivity.
Qed.

(** X22.  Failures of the tag step are swallowed.  When the catalog fails
    every request, applying a result without markers (or the result of an
    image) still resolves: [createTagIfNotExists] turns each failure into
    [null], the ids that are [null] are skipped, and with no id left no
    update is sent.  Nothing is written, two requests per tag name were
    tried, and [processItem] reports the item as a success. *)
Theorem tag_failures_are_swallowed (item : ItemId) (ty : ItemType) (result : ProcessResult)
    (s : Env) :
  allFaults s ->
  ty = images \/ r_markers result = [] ->
  exists s',
    applyResultsToStash item ty (Some result) s = (Returned tt, s') /\
    catalog s' = catalog s /\
    stash_log s'
    = stash_log s ++ flat_map (fun n => [FindTag n; CreateTag n]) (r_tags result) /\
    forall props w resp,
      remoteCall props item ty (env w) = (Returned resp, s) ->
      NSFWTaggerClient.pr_success resp = true ->
      NSFWTaggerClient.pr_result resp = Some result ->
      processItemCaught props ty item w
      = (Returned (Success item result), with_env s' (afterCall w s)).
Proof.
  intros H Hm.
  assert (Em : forall s1, applyMarkers item ty result s1 = (Returned tt, s1)).
  { intros s1. unfold applyMarkers. destruct Hm as [-> | ->]; [reflexivity|].
    destruct ty; reflexivity. }
  assert (Et : exists s',
             applyTags item ty result s = (Returned tt, s') /\ catalog s' = catalog s /\
             stash_log s'
             = stash_log s ++ flat_map (fun n => [FindTag n; CreateTag n]) (r_tags result)).
  { unfold applyTags. destruct (r_tags result) as [|n names] eqn:En.
    - exists s. cbn. rewrite app_nil_r. repeat split.
    - cbn [nonempty]. unfold bind.
      destruct (createTags_down (n :: names) [] s H) as (s' & E & _ & C & _ & L).
      rewrite E. cbn [nonempty]. exists s'. repeat split; assumption. }
  destruct Et as (s' & Et & C & L).
  assert (Ea : applyResultsToStash item ty (Some result) s = (Returned tt, s'))
    by (rewrite applyResultsToStash_unfold, Et; apply Em).
  exists s'. split; [exact Ea|]. split; [exact C|]. split; [exact L|].
  intros props w resp Hcall Hs Hr. unfold processItemCaught, try_catch.
  rewrite (processItem_unfold _ _ _ _ _ _ Hcall), Hs, Hr. cbn [negb]. rewrite Ea. reflexivity.
Qed.

(** The theorem on an image with the tags "a" and "b", the catalog being
    down: four requests, nothing written, no failure. *)
Lemma tag_failures_are_swallowed_witness :
  exists s',
    applyResultsToStash "9"%string images (Some Scenario.analysis) down = (Returned tt, s') /\
    catalog s' = Scenario.emptyCatalog /\
    stash_log s' = [FindTag "a"; CreateTag "a"; FindTag "b"; CreateTag "b"]%string.
Proof.
  destruct (tag_failures_are_swallowed "9"%string images Scenario.analysis down)
    as (s' & E & C & L & _).
  - intros n. discriminate.
  - left. reflexivity.
  - exists s'. split; [exact E|]. split; [exact C | exact L].
Defined.

(** X23.  A failed lookup counts as "not there".  [getTagByName] answers
    [null] when its query fails, and [createTagIfNotExists] takes that for an
    absent tag: if the lookup fails and the next request goes through, the
    [createTag] mutation is sent whether or not a tag of that name exists,
    and the id it gives is returned.  A catalog that adds a row per creation
    then holds the name twice if it was there. *)
Theorem failed_lookup_creates_anyway (name : string) (s : Env) (e : JsError) :
  stash_fault s (List.length (stash_log s)) = Some e ->
  stash_fault s (Datatypes.S (List.length (stash_log s))) = None ->
  exists s',
    StashClient.createTagIfNotExists name s = (Returned (Some (next_id (catalog s))), s') /\
    stash_log s' = stash_log s ++ [FindTag name; CreateTag name] /\
    tags (catalog s')
    = tags (catalog s) ++ [ {| tag_id := next_id (catalog s); tag_name := name |} ] /\
    (findTag (tags (catalog s)) name <> None ->
     ~ NoDup (map tag_name (tags (catalog s')))).
Proof.
  intros H1 H2.
  unfold StashClient.createTagIfNotExists, StashClient.getTagByName, try_catch, bind.
  rewrite (graphql_fault _ _ _ H1). cbn [ret].
  unfold StashClient.graphql at 1. cbn [logged stash_log stash_fault].
  rewrite length_app, Nat.add_comm. cbn [List.length Nat.add]. rewrite H2.
  cbn. eexists. split; [reflexivity|]. cbn. rewrite <- app_assoc.
  split; [reflexivity|]. split; [reflexivity|].
  intros Hf Hnd. rewrite map_app in Hnd. cbn in Hnd.
  apply NoDup_remove_2 in Hnd. rewrite app_nil_r in Hnd. apply Hnd.
  destruct (findTag (tags (catalog s)) name) as [t|] eqn:Ef; [|contradiction].
  unfold findTag in Ef. apply find_some in Ef. destruct Ef as [Hin Heq].
  apply String.eqb_eq in Heq. rewrite <- Heq. apply in_map, Hin.
Qed.

(** The theorem on a catalog that holds "a" and fails the first request. *)
Lemma failed_lookup_creates_anyway_witness :
  exists s',
    StashClient.createTagIfNotExists "a" hiccup = (Returned (Some 2%N), s') /\
    map tag_name (tags (catalog s')) = ["a"; "a"]%string.
Proof.
  destruct (failed_lookup_creates_anyway "a" hiccup (Error "HTTP 502: Bad Gateway"))
    as (s' & E & _ & T & _).
  - reflexivity.
  - reflexivity.
  - exists s'. split; [exact E|]. rewrite T. reflexivity.
Defined.

Lemma markerIds_only ts names i :
  In i (markerIds ts names) ->
  exists n t, In n names /\ findTag ts n = Some t /\ tag_id t = i.
Proof.
  induction names as [|m names IH]; intros H; [contradiction|].
  cbn [markerIds] in H. destruct (findTag ts m) as [t|] eqn:Ef.
  - destruct H as [H | H].
    + exists m, t. split; [left; reflexivity|]. split; assumption.
    + destruct (IH H) as (n & t' & Hn & Hf & Hi). exists n, t'.
      split; [right; exact Hn|]. split; assumption.
  - destruct (IH H) as (n & t' & Hn & Hf & Hi). exists n, t'.
    split; [right; exact Hn|]. split; assumption.
Qed.

(** X24.  The tag names of a marker are looked up, never created.  With a
    catalog that answers every request, [createSceneMarker] sends one lookup
    per tag name and then one [createSceneMarker] mutation; the mutation
    carries the ids of the names that exist, and of those only (names that
    do not exist are dropped), and the tags of the catalog stay as they
    are. *)
Theorem marker_tags_are_looked_up_not_created (sceneId : ItemId) (title : string)
    (seconds : Q) (tagNames : list string) (s : Env) :
  noFaults s ->
  exists r s' ids,
    StashClient.createSceneMarker sceneId title seconds tagNames s = (Returned r, s') /\
    stash_log s'
    = stash_log s ++ map FindTag tagNames
      ++ [CreateSceneMarker sceneId title seconds ids] /\
    (forall i, In i ids <->
       exists n t, In n tagNames /\ findTag (tags (catalog s)) n = Some t /\ tag_id t = i) /\
    tags (catalog s') = tags (catalog s) /\
    next_id (catalog s') = next_id (catalog s).
Proof.
  intros NF. unfold StashClient.createSceneMarker, bind at 1.
  destruct (markerTagIds_ok tagNames [] s NF) as (s0 & E0 & NF0 & C0 & L0).
  rewrite E0. cbn [app]. unfold try_catch, bind.
  rewrite (graphql_ok _ _ NF0). cbn [ret].
  destruct (perform_marker sceneId title seconds (markerIds (tags (catalog s)) tagNames)
              (catalog s0)) as (P1 & P2 & _).
  eexists. eexists. exists (markerIds (tags (catalog s)) tagNames).
  split; [reflexivity|]. cbn [logged stash_log catalog]. rewrite L0, P1, P2, C0, <- app_assoc.
  split; [reflexivity|]. split; [|split; reflexivity].
  intros i. split; [apply markerIds_only|].
  intros (n & t & Hn & Hf & <-). apply (markerIds_In _ _ n); assumption.
Qed.

(** The theorem on the marker of the analysis, whose tags are "a" and "zz",
    in a catalog that holds "a" only: the marker is created with the id of
    "a". *)
Lemma marker_tags_are_looked_up_not_created_witness :
  exists r s' ids,
    StashClient.createSceneMarker "1"%string "m"%string 3%Q ["a"; "zz"]%string
      {| remote := remote hiccup; remote_log := []; stash_fault := fun _ => None;
         stash_log := []; catalog := catalog hiccup |} = (Returned r, s') /\
    stash_log s' = [FindTag "a"; FindTag "zz"; CreateSceneMarker "1" "m" 3%Q ids]%string /\
    tags (catalog s') = tags (catalog hiccup).
Proof.
  destruct (marker_tags_are_looked_up_not_created "1"%string "m"%string 3%Q
              ["a"; "zz"]%string
      {| remote := remote hiccup; remote_log := []; stash_fault := fun _ => None;
         stash_log := []; catalog := catalog hiccup |})
    as (r & s' & ids & E & L & _ & T & _).
  - intros n. reflexivity.
  - exists r, s', ids. split; [exact E|]. split; [exact L | exact T].
Defined.

End ApplierMore.

(* ===================================================================== *)
(** * The requests of a run *)
(* ===================================================================== *)

Module SentFacts.
Import Js Environment World Observe Hoare HoareFacts Frames ClientFacts Answers.
Import BatchProcessor Pipeline ItemFacts Chunks BatchFacts Dispatch DispatchFacts RunFacts.
Import ContainerFacts Sent.
Local Open Scope list_scope.

Lemma itemsOf_app l1 l2 : itemsOf (l1 ++ l2) = itemsOf l1 ++ itemsOf l2.
Proof. unfold itemsOf. apply flat_map_app. Qed.

Lemma remoteKept_refl s : remoteKept s s.
Proof. reflexivity. Qed.

Lemma remoteKept_trans s1 s2 s3 : remoteKept s1 s2 -> remoteKept s2 s3 -> remoteKept s1 s3.
Proof. unfold remoteKept. congruence. Qed.

Lemma graphql_remoteKept req : Keeps remoteKept (StashClient.graphql req).
Proof.
  intros s r s' H. unfold StashClient.graphql in H.
  destruct (stash_fault s (List.length (stash_log s))).
  - inversion H; subst. reflexivity.
  - destruct (perform req (catalog s)). inversion H; subst. reflexivity.
Qed.

Ltac remote_keeps :=
  repeat first
    [ apply Keeps_ret; exact remoteKept_refl
    | apply Keeps_throw; exact remoteKept_refl
    | apply Keeps_message_of; exact remoteKept_refl
    | apply graphql_remoteKept
    | apply Keeps_bind; [exact remoteKept_trans | | intros ? ]
    | apply Keeps_try_catch; [exact remoteKept_trans | | intros ? ]
    | match goal with
      | |- Keeps _ (match ?x with _ => _ end) => destruct x
      | |- Keeps _ (if ?x then _ else _) => destruct x
      end ].

Lemma getTagByName_remoteKept n : Keeps remoteKept (StashClient.getTagByName n).
Proof. unfold StashClient.getTagByName. remote_keeps. Qed.

Lemma createTagIfNotExists_remoteKept n : Keeps remoteKept (StashClient.createTagIfNotExists n).
Proof.
  unfold StashClient.createTagIfNotExists.
  apply Keeps_try_catch; [exact remoteKept_trans | | intros; remote_keeps].
  apply Keeps_bind; [exact remoteKept_trans | apply getTagByName_remoteKept|].
  intros [t|]; remote_keeps.
Qed.

Lemma createTags_remoteKept names : forall ids, Keeps remoteKept (createTags names ids).
Proof.
  induction names as [|n names IH]; intros ids; cbn [createTags]; [remote_keeps|].
  apply Keeps_bind; [exact remoteKept_trans | apply createTagIfNotExists_remoteKept|].
  intros; apply IH.
Qed.

Lemma markerTagIds_remoteKept names : forall ids, Keeps remoteKept (StashClient.markerTagIds names ids).
Proof.
  induction names as [|n names IH]; intros ids; cbn [StashClient.markerTagIds]; [remote_keeps|].
  apply Keeps_bind; [exact remoteKept_trans | apply getTagByName_remoteKept|].
  intros; apply IH.
Qed.

Lemma createMarkers_remoteKept i ms : Keeps remoteKept (createMarkers i ms).
Proof.
  induction ms as [|m ms IH]; cbn [createMarkers]; [remote_keeps|].
  apply Keeps_bind; [exact remoteKept_trans | | intros; exact IH].
  unfold StashClient.createSceneMarker.
  apply Keeps_bind; [exact remoteKept_trans | apply markerTagIds_remoteKept|].
  intros; remote_keeps.
Qed.

Lemma applyResultsToStash_remoteKept i ty result :
  Keeps remoteKept (applyResultsToStash i ty result).
Proof.
  unfold applyResultsToStash.
  apply Keeps_try_catch; [exact remoteKept_trans | | intros; remote_keeps].
  destruct result as [result|]; [|remote_keeps].
  apply Keeps_bind; [exact remoteKept_trans | |intros _].
  - unfold applyTags. destruct (nonempty (r_tags result)); [|remote_keeps].
    apply Keeps_bind; [exact remoteKept_trans | apply createTags_remoteKept|].
    intros ids. destruct (nonempty ids); [|remote_keeps].
    destruct ty; [unfold StashClient.addTagsToScene | unfold StashClient.addTagsToImage];
      remote_keeps.
  - unfold applyMarkers. destruct ty; [|remote_keeps].
    destruct (nonempty (r_markers result)); [apply createMarkers_remoteKept | remote_keeps].
Qed.

(** The pipeline of an item sends one request, about this item. *)
Lemma processItemCaught_sends props ty i w :
  exists r w' req,
    processItemCaught props ty i w = (Returned r, w') /\
    payloadItem req = Some i /\
    remote_log (env w') = remote_log (env w) ++ [req].
Proof.
  destruct (PartialFailure.remoteCall_payload props i ty) as (req & Hp & Hc).
  assert (Hcall : exists resp s1,
             remoteCall props i ty (env w) = (Returned resp, s1) /\
             remote_log s1 = remote_log (env w) ++ [req]).
  { rewrite Hc.
    destruct (guarded_request_spec (nsfwClient props) req
                (fun result => {| NSFWTaggerClient.pr_success := true;
                                  NSFWTaggerClient.pr_result :=
                                    Some (NSFWTaggerClient.rr_data result);
                                  NSFWTaggerClient.pr_error := None |})
                (fun m => {| NSFWTaggerClient.pr_success := false;
                             NSFWTaggerClient.pr_result := None;
                             NSFWTaggerClient.pr_error := Some m |}) (env w))
      as [(_ & x & E) | (_ & x & E)]; rewrite E; eexists; eexists; split; reflexivity. }
  destruct Hcall as (resp & s1 & Hcall & Hlog).
  unfold processItemCaught, try_catch. rewrite (processItem_unfold _ _ _ _ _ _ Hcall).
  destruct (negb (NSFWTaggerClient.pr_success resp)).
  - eexists. eexists. exists req. split; [reflexivity|]. split; [exact Hp | exact Hlog].
  - destruct (applyResultsToStash i ty (NSFWTaggerClient.pr_result resp) s1)
      as [[u | e] s2] eqn:Happ.
    + assert (K := applyResultsToStash_remoteKept _ _ _ _ _ _ Happ). unfold remoteKept in K.
      destruct (NSFWTaggerClient.pr_result resp) as [r|];
        eexists; eexists; exists req; (split; [reflexivity|]); (split; [exact Hp|]);
        cbn; rewrite K; exact Hlog.
    + assert (K := applyResultsToStash_remoteKept _ _ _ _ _ _ Happ). unfold remoteKept in K.
      destruct (applyResultsToStash_OnlyErrors _ _ _ _ _ _ Happ) as [err ->].
      eexists. eexists. exists req. split; [reflexivity|]. split; [exact Hp|].
      cbn. rewrite K. exact Hlog.
Qed.

Lemma runBatch_sends props ty batch : forall w,
  exists rs w' reqs,
    runBatch props ty batch w = (Returned rs, w') /\
    remote_log (env w') = remote_log (env w) ++ reqs /\
    itemsOf reqs = batch /\
    Forall (fun r => payloadItem r = None -> r = cancelReq) reqs.
Proof.
  induction batch as [|i batch IH]; intros w.
  - exists [], w, []. cbn. rewrite app_nil_r. repeat split. constructor.
  - destruct (processItemCaught_sends props ty i w) as (r & w1 & req & E1 & Hp & L1).
    set (w2 := emit (ItemDone i (success r)) w1).
    destruct (IH w2) as (rs & w3 & reqs & E3 & L3 & I3 & F3).
    exists (r :: rs), w3, (req :: reqs). split.
    { cbn [runBatch]. unfold bind at 1. rewrite E1.
      unfold bind at 1. fold w2. unfold bind at 1. rewrite E3. reflexivity. }
    split; [|split].
    + rewrite L3. unfold w2. cbn [emit env]. rewrite L1, <- app_assoc. reflexivity.
    + unfold itemsOf in *. cbn [flat_map]. rewrite Hp, I3. reflexivity.
    + constructor; [|exact F3]. intros Hn. rewrite Hp in Hn. discriminate.
Qed.

(** Interface events send cancels only. *)
Lemma deliver_sends props evs : forall a,
  exists reqs,
    remote_log (env (world (deliver props evs a))) = remote_log (env (world a)) ++ reqs /\
    itemsOf reqs = [] /\
    Forall (fun r => payloadItem r = None -> r = cancelReq) reqs.
Proof.
  induction evs as [|e evs IH]; intros a.
  - exists []. cbn. rewrite app_nil_r. repeat split. constructor.
  - rewrite deliver_cons. destruct e.
    + destruct (IH (tick a)) as (reqs & L & I & F). exists reqs. split; [|split; [exact I | exact F]].
      rewrite L. unfold tick. destruct (processingInterval (comp a)); reflexivity.
    + destruct (IH (cancelProcessing props a)) as (reqs & L & I & F).
      exists (cancelReq :: reqs). split; [|split; [exact I | constructor; [reflexivity | exact F]]].
      rewrite L. unfold cancelProcessing, liftEnv, NSFWTaggerClient.cancelProcessing.
      cbn [world with_world env emit].
      destruct (guarded_request_spec (nsfwClient props) cancelReq (fun _ => true)
                  (fun _ => false) (env (world a))) as [(_ & x & E) | (_ & x & E)];
        unfold cancelReq in *; rewrite E; cbn; rewrite <- app_assoc; reflexivity.
Qed.

Lemma emitAll_env es : forall w, env (emitAll es w) = env w.
Proof.
  unfold emitAll. induction es as [|e es IH]; intros w; [reflexivity|].
  cbn [fold_left]. rewrite IH. reflexivity.
Qed.

Lemma processBatches_sends props ui ty batches : forall k a,
  exists a' reqs,
    processBatches props ui ty k batches a = Done a' /\
    remote_log (env (world a')) = remote_log (env (world a)) ++ reqs /\
    itemsOf reqs = List.concat batches /\
    Forall (fun r => payloadItem r = None -> r = cancelReq) reqs.
Proof.
  induction batches as [|batch rest IH]; intros k a.
  - exists a, []. cbn. rewrite app_nil_r. repeat split. constructor.
  - cbn [processBatches].
    set (a1 := with_world (emitAll (map ItemStart batch) (world a)) a).
    destruct (deliver_sends props (ui k) a1) as (r1 & L1 & I1 & F1).
    set (a2 := deliver props (ui k) a1) in *.
    destruct (runBatch_sends props ty batch (world a2)) as (rs & w3 & r2 & E3 & L2 & I2 & F2).
    rewrite E3.
    destruct (IH (Datatypes.S k) (setState (commit rs) (with_world w3 a2)))
      as (a' & r3 & E & L3 & I3 & F3).
    exists a', (r1 ++ r2 ++ r3). split; [exact E|]. split; [|split].
    + rewrite L3. cbn [setState with_world world]. rewrite L2, L1.
      unfold a1. cbn [with_world world]. rewrite emitAll_env, <- !app_assoc. reflexivity.
    + rewrite !itemsOf_app, I1, I2, I3. reflexivity.
    + apply Forall_app. split; [exact F1|]. apply Forall_app. split; assumption.
Qed.

(** X25.  A run sends every selected item to the container exactly once.
    For a run that passes the connection checks, whatever the container and
    the catalog answer and whether or not the user cancels meanwhile, the
    processing requests that [startProcessing] sends are one per selected
    item, in the order of the selection: no item is skipped, none is sent
    twice (nothing is retried), and a cancel takes none away.  The only
    other requests of the run are the two connection checks, which come
    first, and the cancel requests. *)
Theorem every_item_is_sent_once (props : Props) (ui : nat -> list UiEvent) (a : App) :
  selectedItems (comp a) <> [] ->
  1 <= batchSize props ->
  connectionValid props a = true ->
  exists a' reqs,
    startProcessing props ui a = Done a' /\
    remote_log (env (world a'))
    = remote_log (env (world a)) ++ [healthReq; lmstudioReq] ++ reqs /\
    itemsOf reqs = selectedItems (comp a) /\
    Forall (fun r => payloadItem r = None -> r = cancelReq) reqs.
Proof.
  intros Hsel Hb Hv. unfold startProcessing.
  destruct (selectedItems (comp a)) as [|i0 sel] eqn:Esel; [contradiction|].
  cbn [List.length Nat.eqb]. unfold connectionValid in Hv. unfold liftEnv.
  destruct (validateConnection_spec (nsfwClient props) (env (world a)))
    as (v & s' & E & Hval & Hlog & _).
  rewrite E in Hv |- *. cbn in Hv. rewrite Hv. cbn [negb].
  rewrite Hv in Hval. symmetry in Hval. apply andb_true_iff in Hval.
  destruct Hval as [Hh _]. rewrite Hh in Hlog.
  unfold processItems. fold (batchSize props).
  destruct (createBatches_spec (i0 :: sel) (batchSize props) Hb) as (bs & Eb & Hc & _).
  rewrite Eb.
  match goal with
  | |- context [processBatches props ui ?t 0 bs ?a2] =>
      destruct (processBatches_sends props ui t bs 0 a2) as (a3 & reqs & E3 & L3 & I3 & F3)
  end.
  rewrite E3. eexists. exists reqs. split; [reflexivity|].
  cbn in L3 |- *. rewrite L3, Hlog, <- app_assoc. split; [reflexivity|].
  split; [rewrite I3, Hc; reflexivity | exact F3].
Qed.

(** The theorem on the five scenes, cancelled during the first batch. *)
Lemma every_item_is_sent_once_witness :
  exists a' reqs,
    startProcessing Scenario.props0 Scenario.cancel_early Scenario.app0 = Done a' /\
    remote_log (env (world a')) = [healthReq; lmstudioReq] ++ reqs /\
    itemsOf reqs = ["1"; "2"; "3"; "4"; "5"]%string /\
    Forall (fun r => payloadItem r = None -> r = cancelReq) reqs.
Proof.
  destruct (every_item_is_sent_once Scenario.props0 Scenario.cancel_early Scenario.app0)
    as (a' & reqs & E & L & I & F).
  - discriminate.
  - cbn. lia.
  - vm_compute. reflexivity.
  - exists a', reqs. split; [exact E|]. split; [exact L|]. split; [exact I | exact F].
Defined.

End SentFacts.

(* ===================================================================== *)
(** * The Stash client: endpoint and listings *)
(* ===================================================================== *)

Module StashQueryFacts.
Import Js Selection StashQueries.
Local Open Scope string_scope.

Lemma removeTrailingSlash_snoc (e : string) : removeTrailingSlash (e ++ "/") = e.
Proof.
  induction e as [|c e IH]; [reflexivity|].
  cbn [append removeTrailingSlash]. rewrite IH.
  destruct (e ++ "/") eqn:E; [destruct e; discriminate | reflexivity].
Qed.

Lemma removeTrailingSlash_other (s : string) :
  endsWithSlash s = false -> removeTrailingSlash s = s.
Proof.
  induction s as [|c s IH]; intros H; [reflexivity|].
  cbn [removeTrailingSlash endsWithSlash] in *. destruct s as [|c' s'].
  - rewrite H. reflexivity.
  - rewrite IH; [reflexivity | exact H].
Qed.

(** X26.  The client drops exactly one trailing slash of its endpoint.  For
    an endpoint [e] that does not end in a slash: [e] is kept as it is; [e]
    with a trailing slash becomes [e], so both lead to the same GraphQL URL,
    with a single slash before [graphql]; and of two trailing slashes one
    stays. *)
Theorem endpoint_loses_one_trailing_slash (e : string) :
  endsWithSlash e = false ->
  removeTrailingSlash e = e /\
  removeTrailingSlash (e ++ "/") = e /\
  removeTrailingSlash (e ++ "//") = e ++ "/" /\
  graphqlUrl e = e ++ "/graphql" /\
  graphqlUrl (e ++ "/") = graphqlUrl e.
Proof.
  intros H. unfold graphqlUrl.
  rewrite (removeTrailingSlash_other e H), removeTrailingSlash_snoc.
  split; [reflexivity|]. split; [reflexivity|]. split; [|split; reflexivity].
  replace (e ++ "//") with ((e ++ "/") ++ "/").
  - apply removeTrailingSlash_snoc.
  - clear H. induction e as [|c e IH]; [reflexivity|]. cbn [append]. rewrite IH. reflexivity.
Qed.

(** The theorem on the default endpoint of the plugin. *)
Lemma endpoint_loses_one_trailing_slash_witness :
  graphqlUrl "http://localhost:9999/" = "http://localhost:9999/graphql".
Proof.
  destruct (endpoint_loses_one_trailing_slash "http://localhost:9999") as (_ & _ & _ & U & V).
  - reflexivity.
  - cbn [append] in V. rewrite V. exact U.
Defined.

Lemma prefix_split (p s : string) :
  String.prefix p s = true <-> exists rest, s = p ++ rest.
Proof.
  revert s. induction p as [|c p IH]; intros s.
  - destruct s; cbn; (split; [intros _; eexists; reflexivity | reflexivity]).
  - destruct s as [|d s]; cbn [String.prefix append].
    + split; [discriminate | intros (rest & E); discriminate].
    + destruct (ascii_dec c d) as [-> | Hne].
      * rewrite IH. split; intros (rest & E); exists rest; [rewrite E | inversion E];
          reflexivity.
      * split; [discriminate|]. intros (rest & E). inversion E. congruence.
Qed.

Lemma toLowerCase_app (a b : string) :
  toLowerCase (a ++ b) = toLowerCase a ++ toLowerCase b.
Proof.
  induction a as [|c a IH]; [reflexivity|]. cbn [append toLowerCase]. rewrite IH. reflexivity.
Qed.

(** A lower-cased name starts with a prefix exactly when the name starts
    with some spelling of it. *)
Lemma startsWith_lower (p name : string) :
  startsWith (toLowerCase name) p = true
  <-> exists pre rest, name = pre ++ rest /\ toLowerCase pre = p.
Proof.
  unfold startsWith. rewrite prefix_split. split.
  - revert name. induction p as [|c p IH]; intros name (rest & E).
    + exists "", name. split; reflexivity.
    + destruct name as [|d name]; [discriminate|]. cbn [toLowerCase append] in E.
      inversion E as [[Hc Hr]].
      destruct (IH name (ex_intro _ rest Hr)) as (pre & rest' & En & Ep).
      exists (String d pre), rest'. cbn [append toLowerCase]. rewrite <- En, Ep, Hc.
      split; reflexivity.
  - intros (pre & rest & -> & <-). exists (toLowerCase rest). apply toLowerCase_app.
Qed.

(** X27.  [getUntaggedScenes] and [getUntaggedImages] filter one page on the
    client.  When the listing query answers, they resolve with the items of
    that page that carry no tag of the plugin, in the order of the page, and
    with the number of these items as [count]: the count of the catalog is
    dropped, so [count] is never more than the page holds.  A tag is one of
    the plugin when its name starts, in whatever capitalisation, with "ai_",
    "generated_" or "nsfw_". *)
Theorem getUntagged_filters_one_page {S : Type} (queryItems : QuerySpec -> M S Found)
    (limit page : N) (s s' : S) (answer : Found) :
  queryItems {| per_page := limit; page := page; q := "" |} s = (Returned answer, s') ->
  exists untagged,
    getUntagged queryItems limit page s
    = (Returned {| count := List.length untagged; found := untagged |}, s') /\
    (List.length untagged <= List.length (found answer))%nat /\
    (forall item,
       In item untagged <->
       In item (found answer) /\
       forall name, In name (item_tags item) ->
         forall pre rest, name = pre ++ rest ->
           toLowerCase pre <> "ai_" /\ toLowerCase pre <> "generated_" /\
           toLowerCase pre <> "nsfw_") /\
    exists keep, untagged = filter keep (found answer).
Proof.
  intros E. unfold getUntagged, getAll, bind. rewrite E. cbn [ret found].
  eexists. split; [reflexivity|]. split; [apply filter_length_le|]. split.
  - intros item. rewrite filter_In, negb_true_iff. split; intros [Hin H]; (split; [exact Hin|]).
    + intros name Hn pre rest En.
      assert (F : isAiTag name = false).
      { destruct (isAiTag name) eqn:Ea; [|reflexivity].
        assert (X : existsb isAiTag (item_tags item) = true)
          by (apply existsb_exists; exists name; split; assumption).
        congruence. }
      unfold isAiTag in F. apply orb_false_iff in F. destruct F as [F F3].
      apply orb_false_iff in F. destruct F as [F1 F2].
      repeat split; intros Hp;
        match goal with
        | Hf : startsWith (toLowerCase name) ?p = false |- _ =>
            match type of Hp with
            | _ = p =>
                assert (T : startsWith (toLowerCase name) p = true)
                  by (apply startsWith_lower; exists pre, rest; split; assumption);
                congruence
            end
        end.
    + destruct (existsb isAiTag (item_tags item)) eqn:Ex; [|reflexivity]. exfalso.
      apply existsb_exists in Ex. destruct Ex as (name & Hn & Ha).
      unfold isAiTag in Ha. apply orb_true_iff in Ha. destruct Ha as [Ha | Ha];
        [apply orb_true_iff in Ha; destruct Ha as [Ha | Ha]|];
        apply startsWith_lower in Ha; destruct Ha as (pre & rest & En & Ep);
        destruct (H name Hn pre rest En) as (N1 & N2 & N3); contradiction.
  - eexists. reflexivity.
Qed.

(** The theorem on a page of three scenes of which one is untagged. *)
Lemma getUntagged_filters_one_page_witness :
  exists s',
    getUntagged somePage 100 1 tt
    = (Returned {| count := 1;
                   found := [ {| item_id := "2"; item_tags := ["airport"] |} ] |}, s').
Proof.
  destruct (getUntagged_filters_one_page somePage 100 1 tt tt
              {| count := 250;
                 found := [ {| item_id := "1"; item_tags := ["outdoor"; "AI_beach"] |};
                            {| item_id := "2"; item_tags := ["airport"] |};
                            {| item_id := "3"; item_tags := ["Nsfw_x"] |} ] |})
    as (u & E & _).
  - reflexivity.
  - exists tt. vm_compute. reflexivity.
Defined.

End StashQueryFacts.

(* ===================================================================== *)
(** * How a run can end *)
(* ===================================================================== *)

Module RunTotality.
Import Js Environment World Observe Hoare HoareFacts Frames ClientFacts Answers.
Import BatchProcessor Pipeline ItemFacts Chunks BatchFacts Dispatch DispatchFacts RunFacts.
Import ContainerFacts Sent SentFacts.
Local Open Scope list_scope.

(** X28.  [startProcessing] never rejects.  For a concurrency that is
    missing or a non-negative integer, a container and a catalog that answer
    every request (with whatever answer, failures included), and a user who
    at most cancels meanwhile, its promise is never rejected: every failure
    on the way is caught and becomes a return value or an entry of
    [errors].  It resolves in every case but one: with something selected, a
    valid connection and a concurrency of 0 it never settles. *)
Theorem startProcessing_never_rejects (props : Props) (ui : nat -> list UiEvent) (a : App) :
  match startProcessing props ui a with
  | Done _ =>
      selectedItems (comp a) = [] \/ connectionValid props a = false \/ 1 <= batchSize props
  | Rejected _ _ => False
  | Diverges =>
      selectedItems (comp a) <> [] /\ connectionValid props a = true /\ batchSize props = 0
  end.
Proof.
  unfold startProcessing.
  destruct (selectedItems (comp a)) as [|i0 sel] eqn:Esel; [left; reflexivity|].
  cbn [List.length Nat.eqb]. unfold connectionValid, liftEnv.
  destruct (validateConnection_spec (nsfwClient props) (env (world a))) as (v & s' & E & _).
  rewrite E. cbn [fst]. destruct (NSFWTaggerClient.valid v); cbn [negb];
    [|right; left; reflexivity].
  unfold processItems. fold (batchSize props).
  destruct (batchSize props) as [|b] eqn:Eb.
  - unfold createBatches.
    rewrite (createBatches_diverges (i0 :: sel)); [|discriminate | cbn; lia].
    split; [discriminate|]. split; reflexivity.
  - destruct (createBatches_spec (i0 :: sel) (Datatypes.S b)) as (bs & Ebs & _); [lia|].
    rewrite Ebs.
    match goal with
    | |- context [processBatches props ui ?t 0 bs ?a2] =>
        destruct (processBatches_sends props ui t bs 0 a2) as (a3 & reqs & E3 & _)
    end.
    rewrite E3. right. right. lia.
Qed.

End RunTotality.
